(** * Padloc server controller (packages/core/src/server.ts)

    A shallow embedding of the request controller: every [async] method of
    [Controller] is a computation in a state-and-exception monad over the
    server's world (the persistent storage, the in-process [pendingAuths]
    map, the messenger's outbox, the attachment store, the clock and the
    source of random identifiers).  The world is threaded through failures
    as well, because the controller never rolls back what it has already
    written when it throws. *)

From Stdlib Require Import ZArith List String Ascii Bool Lia.
From Stdlib.Strings Require Import Byte.
From stdpp Require Import base option gmap strings list pretty.

Local Open Scope string_scope.
Local Open Scope Z_scope.

(** ** Byte strings and their hex encoding *)

Definition bytes := list Byte.byte.

Definition hexDigit (n : N) : ascii :=
  match n with
  | 0%N => "0" | 1%N => "1" | 2%N => "2" | 3%N => "3"
  | 4%N => "4" | 5%N => "5" | 6%N => "6" | 7%N => "7"
  | 8%N => "8" | 9%N => "9" | 10%N => "a" | 11%N => "b"
  | 12%N => "c" | 13%N => "d" | 14%N => "e" | _ => "f"
  end%char.

Definition hexValue (c : ascii) : N :=
  let n := N_of_ascii c in
  if (n <? 58)%N then (n - 48)%N else (n - 87)%N.

(** Modelled from the spec: [bytesToHex] of encoding.ts, which is not part of
    the sources at hand; two lower-case hexadecimal digits per byte, so that
    comparing the encodings compares the arrays byte for byte. *)
Fixpoint bytesToHex (b : bytes) : string :=
  match b with
  | [] => EmptyString
  | x :: r =>
      let n := Byte.to_N x in
      String (hexDigit (n / 16)) (String (hexDigit (n mod 16)) (bytesToHex r))
  end.

Definition byteOfHex (c1 c2 : ascii) : option Byte.byte :=
  Byte.of_N (hexValue c1 * 16 + hexValue c2).

(** [String.prototype.toLowerCase], on the ASCII range. *)
Definition lowerChar (c : ascii) : ascii :=
  let n := nat_of_ascii c in
  if ((65 <=? n) && (n <=? 90))%nat then ascii_of_nat (n + 32) else c.

Fixpoint toLowerCase (s : string) : string :=
  match s with
  | EmptyString => EmptyString
  | String c r => String (lowerChar c) (toLowerCase r)
  end.

(** ** Errors (error.ts) *)

Inductive ErrorCode : Set :=
  | NOT_FOUND | BAD_REQUEST | INVALID_CREDENTIALS | INVALID_SESSION
  | SESSION_EXPIRED | INVALID_REQUEST | EMAIL_VERIFICATION_REQUIRED
  | EMAIL_VERIFICATION_FAILED | EMAIL_VERIFICATION_TRIES_EXCEEDED
  | ACCOUNT_EXISTS | OUTDATED_REVISION | INSUFFICIENT_PERMISSIONS
  | QUOTA_EXCEEDED | NOT_SUPPORTED | SERVER_ERROR.

(** What a method can throw: an [Err] carrying a code, or a native
    [TypeError] (a property read on [null] or [undefined]). *)
Inductive Thrown : Set :=
  | Err (code : ErrorCode)
  | TypeError.

Inductive Result (A : Type) : Type :=
  | Ok (a : A)
  | Throw (e : Thrown).
Arguments Ok {A} a.
Arguments Throw {A} e.

Definition isNotFound (e : Thrown) : bool :=
  match e with Err NOT_FOUND => true | _ => false end.

(** ** Data model *)

Record DeviceInfo := mkDevice {
  dev_id : string;
  dev_description : string }.

Record Session := mkSession {
  sess_id : string;
  sess_account : string;
  sess_key : option bytes;
  sess_device : option DeviceInfo;
  sess_expires : option nat;
  sess_lastUsed : nat;
  sess_updated : nat }.

(** [new Session()] *)
Definition newSession : Session :=
  mkSession "" "" None None None 0%nat 0%nat.

(** Modelled from the spec: the [info] getter of session.ts, the session
    summary listed on an account: every field of the session but its key. *)
Definition info (s : Session) : Session :=
  mkSession (sess_id s) (sess_account s) None (sess_device s)
            (sess_expires s) (sess_lastUsed s) (sess_updated s).

Record AccountQuota := mkAccountQuota {
  aq_orgs : Z;
  aq_storage : Z }.

Record Account := mkAccount {
  acc_id : string;
  acc_email : string;
  acc_name : string;
  acc_publicKey : string;
  acc_keyParams : string;
  acc_encryptionParams : string;
  acc_encryptedData : string;
  acc_revision : string;
  acc_sessions : list Session;
  acc_orgs : list string;
  acc_quota : AccountQuota;
  acc_mainVault : string;
  acc_updated : nat }.

Record Auth := mkAuth {
  auth_email : string;
  auth_account : string;
  auth_verifier : option bytes;
  auth_keyParams : string;
  auth_trustedDevices : list DeviceInfo }.

Record EmailVerification := mkEmailVerification {
  ev_email : string;
  ev_purpose : string;
  ev_code : string;
  ev_token : string;
  ev_tries : nat }.

Inductive OrgRole : Set := Owner | Admin | Member | Suspended.

Definition OrgRole_eqb (a b : OrgRole) : bool :=
  match a, b with
  | Owner, Owner | Admin, Admin | Member, Member | Suspended, Suspended => true
  | _, _ => false
  end.

Record VaultRef := mkVaultRef {
  vr_id : string;
  vr_name : string }.

Record Assignment := mkAssignment {
  as_id : string;
  as_readonly : bool }.

Record OrgMember := mkOrgMember {
  mem_id : string;
  mem_name : string;
  mem_email : string;
  mem_role : OrgRole;
  mem_vaults : list Assignment }.

Record Group := mkGroup {
  grp_name : string;
  grp_vaults : list Assignment }.

Record Invite := mkInvite {
  inv_id : string;
  inv_email : string;
  inv_accepted : bool;
  inv_invitedBy : option string }.

Record OrgQuota := mkOrgQuota {
  oq_members : Z;
  oq_groups : Z;
  oq_vaults : Z;
  oq_storage : Z }.

Record Org := mkOrg {
  org_id : string;
  org_name : string;
  org_owner : string;
  org_revision : string;
  org_publicKey : string;
  org_keyParams : string;
  org_encryptionParams : string;
  org_encryptedData : string;
  org_signingParams : string;
  org_accessors : string;
  org_members : list OrgMember;
  org_groups : list Group;
  org_vaults : list VaultRef;
  org_invites : list Invite;
  org_quota : OrgQuota }.

(** A vault's [owner] and [org] are optional: [None] is the field not being
    set. *)
Record Vault := mkVault {
  vault_id : string;
  vault_name : string;
  vault_owner : option string;
  vault_org : option VaultRef;
  vault_revision : string;
  vault_keyParams : string;
  vault_encryptionParams : string;
  vault_accessors : string;
  vault_encryptedData : string;
  vault_created : nat;
  vault_updated : nat }.

(** [new Vault()] *)
Definition newVault : Vault :=
  mkVault "" "" None None "" "" "" "" "" 0%nat 0%nat.

Record Attachment := mkAttachment {
  att_id : string;
  att_vault : string;
  att_size : Z }.

(** Messages handed to the messenger (messages.ts). *)
Inductive Message : Type :=
  | EmailVerificationMessage (v : EmailVerification)
  | InviteCreatedMessage (invite : Invite) (link : string)
  | InviteAcceptedMessage (invite : Invite) (link : string)
  | MemberAddedMessage (org : Org) (link : string).

(** The SRP context kept between [initAuth] and [createSession] (srp.ts),
    as it is once [initialize] has run: the verifier, the server's secret
    and public ephemeral values and, after [setA], the client's public value,
    the session key and the expected proof. *)
Record SRPServer := mkSRP {
  srp_v : bytes;
  srp_b : nat;
  srp_B : bytes;
  srp_A : option bytes;
  srp_K : option bytes;
  srp_M1 : option bytes }.

Record InitAuthResponse := mkInitAuthResponse {
  iar_auth : Auth;
  iar_B : bytes }.

Record AuthRef := mkAuthRef {
  ar_session : string;
  ar_signature : string }.

Record Request := mkRequest {
  req_method : string;
  req_auth : option AuthRef;
  req_device : option DeviceInfo }.

(** Request context *)
Record Context := mkContext {
  ctx_session : option Session;
  ctx_account : option Account;
  ctx_device : option DeviceInfo }.

(** ** The world *)

(** Modelled from the spec: the persistence port of storage.ts, an object
    store keyed by kind and id.  [save] stores the serialisation of the
    object as it is at the time of the call; [get] throws [NOT_FOUND] for a
    missing key; [delete] removes the key. *)
Record Storage := mkStorage {
  st_auth : gmap string Auth;
  st_account : gmap string Account;
  st_session : gmap string Session;
  st_org : gmap string Org;
  st_vault : gmap string Vault;
  st_ev : gmap string EmailVerification }.

Record World := mkWorld {
  storage : Storage;
  pendingAuths : gmap string SRPServer;
  outbox : list (string * Message);
  attachments : list Attachment;
  clock : nat;
  entropy : nat }.

(** The collaborators the controller consumes without looking inside:
    random identifiers, the SRP arithmetic, request signatures and the
    capability methods of [Org] (org.ts). *)
Record Env := mkEnv {
  clientUrl : string;
  uuid_gen : nat -> string;
  code_gen : nat -> string;
  token_gen : nat -> string;
  srp_public : bytes -> nat -> bytes;
  srp_key : bytes -> nat -> bytes -> bytes;
  srp_proof : bytes -> nat -> bytes -> bytes;
  session_verify : Session -> Request -> bool;
  isOwner : Org -> string -> bool;
  isAdmin : Org -> string -> bool;
  canRead : Org -> string -> string -> bool;
  canWrite : Org -> string -> string -> bool }.

(** ** The monad of controller methods *)

Definition M (A : Type) : Type := World -> Result A * World.

Definition ret {A} (a : A) : M A := fun w => (Ok a, w).

Definition throw {A} (e : Thrown) : M A := fun w => (Throw e, w).

Definition bind {A B} (m : M A) (k : A -> M B) : M B :=
  fun w =>
    match m w with
    | (Ok a, w') => k a w'
    | (Throw e, w') => (Throw e, w')
    end.

Notation "x <~ m ;; k" := (bind m (fun x => k))
  (at level 100, m at next level, right associativity).
Notation "m ;;; k" := (bind m (fun _ => k))
  (at level 100, right associativity).

(** [try { m } catch (e) { h e }] *)
Definition try_catch {A} (m : M A) (h : Thrown -> M A) : M A :=
  fun w =>
    match m w with
    | (Ok a, w') => (Ok a, w')
    | (Throw e, w') => h e w'
    end.

(** A call to an [async] function whose promise is dropped (neither awaited
    nor returned): the callee runs, but its outcome, a rejection included,
    never reaches the caller. *)
Definition floating {A} (m : M A) : M unit :=
  fun w => (Ok tt, snd (m w)).

(** [for (const x of l) { body x }] *)
Fixpoint for_each {A} (l : list A) (body : A -> M unit) : M unit :=
  match l with
  | [] => ret tt
  | x :: r => body x ;;; for_each r body
  end.

Definition get_world : M World := fun w => (Ok w, w).
Definition put_storage (s : Storage) : M unit :=
  fun w => (Ok tt, mkWorld s (pendingAuths w) (outbox w) (attachments w) (clock w) (entropy w)).
Definition put_pendingAuths (p : gmap string SRPServer) : M unit :=
  fun w => (Ok tt, mkWorld (storage w) p (outbox w) (attachments w) (clock w) (entropy w)).
Definition put_attachments (a : list Attachment) : M unit :=
  fun w => (Ok tt, mkWorld (storage w) (pendingAuths w) (outbox w) a (clock w) (entropy w)).

(** [new Date()] *)
Definition now : M nat := fun w => (Ok (clock w), w).

(** A fresh draw from the random source. *)
Definition draw : M nat :=
  fun w => (Ok (entropy w),
            mkWorld (storage w) (pendingAuths w) (outbox w) (attachments w) (clock w) (S (entropy w))).

(** [this.messenger.send(email, message)] *)
Definition send (email : string) (msg : Message) : M unit :=
  fun w => (Ok tt, mkWorld (storage w) (pendingAuths w) ((email, msg) :: outbox w)
                           (attachments w) (clock w) (entropy w)).

(** *** Storage operations, one per kind *)

Definition with_auth (f : gmap string Auth -> gmap string Auth) (s : Storage) : Storage :=
  mkStorage (f (st_auth s)) (st_account s) (st_session s) (st_org s) (st_vault s) (st_ev s).
Definition with_account (f : gmap string Account -> gmap string Account) (s : Storage) : Storage :=
  mkStorage (st_auth s) (f (st_account s)) (st_session s) (st_org s) (st_vault s) (st_ev s).
Definition with_session (f : gmap string Session -> gmap string Session) (s : Storage) : Storage :=
  mkStorage (st_auth s) (st_account s) (f (st_session s)) (st_org s) (st_vault s) (st_ev s).
Definition with_org (f : gmap string Org -> gmap string Org) (s : Storage) : Storage :=
  mkStorage (st_auth s) (st_account s) (st_session s) (f (st_org s)) (st_vault s) (st_ev s).
Definition with_vault (f : gmap string Vault -> gmap string Vault) (s : Storage) : Storage :=
  mkStorage (st_auth s) (st_account s) (st_session s) (st_org s) (f (st_vault s)) (st_ev s).
Definition with_ev (f : gmap string EmailVerification -> gmap string EmailVerification)
    (s : Storage) : Storage :=
  mkStorage (st_auth s) (st_account s) (st_session s) (st_org s) (st_vault s) (f (st_ev s)).

(** Modelled from the spec: [Storage.get], which throws NOT_FOUND when
    nothing is stored under the id. *)
Definition storage_get {A} (proj : Storage -> gmap string A) (id : string) : M A :=
  fun w =>
    match proj (storage w) !! id with
    | Some a => (Ok a, w)
    | None => (Throw (Err NOT_FOUND), w)
    end.

Definition modify_storage (f : Storage -> Storage) : M unit :=
  fun w => (Ok tt, mkWorld (f (storage w)) (pendingAuths w) (outbox w)
                           (attachments w) (clock w) (entropy w)).

Definition get_auth := storage_get st_auth.
Definition get_account := storage_get st_account.
Definition get_session := storage_get st_session.
Definition get_org := storage_get st_org.
Definition get_vault := storage_get st_vault.
Definition get_ev := storage_get st_ev.

(** Modelled from the spec: [Storage.save] and [Storage.delete] for each
    kind of object.  An [Auth] and an [EmailVerification] are stored under
    their email, the other objects under their id. *)
Definition save_auth (a : Auth) : M unit := modify_storage (with_auth <[auth_email a := a]>).
Definition save_account (a : Account) : M unit := modify_storage (with_account <[acc_id a := a]>).
Definition save_session (s : Session) : M unit := modify_storage (with_session <[sess_id s := s]>).
Definition save_org (o : Org) : M unit := modify_storage (with_org <[org_id o := o]>).
Definition save_vault (v : Vault) : M unit := modify_storage (with_vault <[vault_id v := v]>).
Definition save_ev (v : EmailVerification) : M unit := modify_storage (with_ev <[ev_email v := v]>).

Definition delete_session (s : Session) : M unit := modify_storage (with_session (delete (sess_id s))).
Definition delete_ev (v : EmailVerification) : M unit := modify_storage (with_ev (delete (ev_email v))).

(** *** Attachment storage *)

(** The attachment port of attachment.ts is not among the sources; it is
    kept as the list of the attachments stored, each with its vault and id. *)
Definition sameAttachment (vault id : string) (a : Attachment) : bool :=
  String.eqb (att_vault a) vault && String.eqb (att_id a) id.

(** Modelled from the spec: [AttachmentStorage.getUsage], the total size of
    the attachments stored for a vault. *)
Definition att_getUsage (vault : string) : M Z :=
  fun w => (Ok (fold_right (fun a sum => if String.eqb (att_vault a) vault
                                         then att_size a + sum else sum)
                           0 (attachments w)), w).

(** Modelled from the spec: [AttachmentStorage.put], which stores the
    attachment under its vault and id. *)
Definition att_put (a : Attachment) : M unit :=
  fun w => put_attachments
             (a :: List.filter (fun x => negb (sameAttachment (att_vault a) (att_id a) x)) (attachments w)) w.

(** Modelled from the spec: [AttachmentStorage.get], which throws
    NOT_FOUND for a missing attachment. *)
Definition att_get (vault id : string) : M Attachment :=
  fun w =>
    match List.find (sameAttachment vault id) (attachments w) with
    | Some a => (Ok a, w)
    | None => (Throw (Err NOT_FOUND), w)
    end.

(** Modelled from the spec: [AttachmentStorage.delete]. *)
Definition att_delete (vault id : string) : M unit :=
  fun w => put_attachments
             (List.filter (fun x => negb (sameAttachment vault id x)) (attachments w)) w.

(** ** Organisations (org.ts) *)

(** Modelled from the spec: [Org.getMember] of org.ts, the member with the
    given account id, if any. *)
Definition getMember (o : Org) (id : string) : option OrgMember :=
  List.find (fun m => String.eqb (mem_id m) id) (org_members o).

(** Modelled from the spec: [Org.isMember] of org.ts, whether there is a
    member with the given account id. *)
Definition isMember (o : Org) (id : string) : bool :=
  match getMember o id with Some _ => true | None => false end.

(** Modelled from the spec: [Org.getInvite] of org.ts, the invite with the
    given id, if any. *)
Definition getInvite (o : Org) (id : string) : option Invite :=
  List.find (fun i => String.eqb (inv_id i) id) (org_invites o).

(** An assignment to a property of the object that [getMember] returned:
    the first member with that id is changed where it stands. *)
Fixpoint update_member (id : string) (f : OrgMember -> OrgMember)
    (l : list OrgMember) : list OrgMember :=
  match l with
  | [] => []
  | m :: r => if String.eqb (mem_id m) id then f m :: r
              else m :: update_member id f r
  end.

Definition set_mem_name (n : string) (m : OrgMember) : OrgMember :=
  mkOrgMember (mem_id m) n (mem_email m) (mem_role m) (mem_vaults m).

Definition set_mem_role (r : OrgRole) (m : OrgMember) : OrgMember :=
  mkOrgMember (mem_id m) (mem_name m) (mem_email m) r (mem_vaults m).

Definition set_org_members (ms : list OrgMember) (o : Org) : Org :=
  mkOrg (org_id o) (org_name o) (org_owner o) (org_revision o) (org_publicKey o)
        (org_keyParams o) (org_encryptionParams o) (org_encryptedData o)
        (org_signingParams o) (org_accessors o) ms (org_groups o) (org_vaults o)
        (org_invites o) (org_quota o).

Definition set_org_revision (r : string) (o : Org) : Org :=
  mkOrg (org_id o) (org_name o) (org_owner o) r (org_publicKey o)
        (org_keyParams o) (org_encryptionParams o) (org_encryptedData o)
        (org_signingParams o) (org_accessors o) (org_members o) (org_groups o)
        (org_vaults o) (org_invites o) (org_quota o).

Definition set_org_vaults (vs : list VaultRef) (o : Org) : Org :=
  mkOrg (org_id o) (org_name o) (org_owner o) (org_revision o) (org_publicKey o)
        (org_keyParams o) (org_encryptionParams o) (org_encryptedData o)
        (org_signingParams o) (org_accessors o) (org_members o) (org_groups o)
        vs (org_invites o) (org_quota o).

(** [Object.assign(org, { members, groups, vaults })] *)
Definition assign_membership (upd o : Org) : Org :=
  mkOrg (org_id o) (org_name o) (org_owner o) (org_revision o) (org_publicKey o)
        (org_keyParams o) (org_encryptionParams o) (org_encryptedData o)
        (org_signingParams o) (org_accessors o) (org_members upd) (org_groups upd)
        (org_vaults upd) (org_invites o) (org_quota o).

(** [Object.assign(org, { name, publicKey, keyParams, encryptionParams,
    encryptedData, signingParams, accessors, invites })] *)
Definition assign_owner_fields (upd o : Org) : Org :=
  mkOrg (org_id o) (org_name upd) (org_owner o) (org_revision o) (org_publicKey upd)
        (org_keyParams upd) (org_encryptionParams upd) (org_encryptedData upd)
        (org_signingParams upd) (org_accessors upd) (org_members o) (org_groups o)
        (org_vaults o) (org_invites upd) (org_quota o).

Definition set_acc_orgs (os : list string) (a : Account) : Account :=
  mkAccount (acc_id a) (acc_email a) (acc_name a) (acc_publicKey a) (acc_keyParams a)
            (acc_encryptionParams a) (acc_encryptedData a) (acc_revision a)
            (acc_sessions a) os (acc_quota a) (acc_mainVault a) (acc_updated a).

Definition set_acc_sessions (ss : list Session) (a : Account) : Account :=
  mkAccount (acc_id a) (acc_email a) (acc_name a) (acc_publicKey a) (acc_keyParams a)
            (acc_encryptionParams a) (acc_encryptedData a) (acc_revision a)
            ss (acc_orgs a) (acc_quota a) (acc_mainVault a) (acc_updated a).

Definition set_vault_name (n : string) (v : Vault) : Vault :=
  mkVault (vault_id v) n (vault_owner v) (vault_org v) (vault_revision v)
          (vault_keyParams v) (vault_encryptionParams v) (vault_accessors v)
          (vault_encryptedData v) (vault_created v) (vault_updated v).

Definition set_sess_key (k : option bytes) (s : Session) : Session :=
  mkSession (sess_id s) (sess_account s) k (sess_device s) (sess_expires s)
            (sess_lastUsed s) (sess_updated s).

Definition set_ev_tries (n : nat) (v : EmailVerification) : EmailVerification :=
  mkEmailVerification (ev_email v) (ev_purpose v) (ev_code v) (ev_token v) n.

(** [devices.some(({ id }) => id === device.id)] *)
Definition hasDevice (d : DeviceInfo) (devices : list DeviceInfo) : bool :=
  existsb (fun t => String.eqb (dev_id t) (dev_id d)) devices.

(** [if (device && !devices.some(..)) devices.push(device)] *)
Definition trustDevice (d : option DeviceInfo) (devices : list DeviceInfo) : list DeviceInfo :=
  match d with
  | Some d => if negb (hasDevice d devices) then devices ++ [d] else devices
  | None => devices
  end.

(** A supplied string is truthy unless it is missing or empty. *)
Definition truthy (s : option string) : bool :=
  match s with
  | Some s => negb (String.eqb s "")
  | None => false
  end.

Definition nonEmpty {A} (l : list A) : bool :=
  match l with [] => false | _ => true end.

(** [n !== -1 && count > n] *)
Definition exceeds (count : nat) (limit : Z) : bool :=
  negb (limit =? -1) && (Z.of_nat count >? limit).

(** ** Numbers

    A JavaScript number is an IEEE 754 double.  The controller computes
    with numbers in one place, the storage quota of [createAttachment];
    there the amounts are whole numbers of bytes, so a finite number is kept
    as the integer it stands for, and a sum or product is the exact result
    rounded to 53 significant bits, ties to even, or an infinity beyond the
    largest double. *)

Inductive JsNumber : Type :=
  | Finite (z : Z)
  | PosInfinity
  | NegInfinity
  | NotANumber.

(** The nearest integer with at most 53 significant bits, ties to the even
    significand. *)
Definition round53 (x : Z) : Z :=
  let a := Z.abs x in
  if a <? 2 ^ 53 then x
  else
    let e := Z.log2 a - 52 in
    let q := Z.shiftr a e in
    let r := Z.land a (Z.ones e) in
    let half := Z.shiftl 1 (e - 1) in
    let q' := if r <? half then q
              else if half <? r then q + 1
              else if Z.even q then q else q + 1 in
    Z.sgn x * Z.shiftl q' e.

(** The double nearest to an integer: what a number literal or a parsed
    number holds, and what an exact result is rounded to. *)
Definition toNumber (x : Z) : JsNumber :=
  let r := round53 x in
  if 2 ^ 1024 <=? r then PosInfinity
  else if r <=? - 2 ^ 1024 then NegInfinity
  else Finite r.

(** [a + b] *)
Definition num_add (a b : JsNumber) : JsNumber :=
  match a, b with
  | Finite x, Finite y => toNumber (x + y)
  | NotANumber, _ | _, NotANumber => NotANumber
  | PosInfinity, NegInfinity | NegInfinity, PosInfinity => NotANumber
  | PosInfinity, _ | _, PosInfinity => PosInfinity
  | NegInfinity, _ | _, NegInfinity => NegInfinity
  end.

(** [a * b] *)
Definition num_mul (a b : JsNumber) : JsNumber :=
  let sign (n : JsNumber) : Z :=
    match n with
    | Finite x => Z.sgn x
    | PosInfinity => 1
    | NegInfinity => -1
    | NotANumber => 0
    end in
  match a, b with
  | Finite x, Finite y => toNumber (x * y)
  | NotANumber, _ | _, NotANumber => NotANumber
  | _, _ =>
      match sign a * sign b with
      | Z0 => NotANumber
      | Zpos _ => PosInfinity
      | Zneg _ => NegInfinity
      end
  end.

(** [a > b] *)
Definition num_gt (a b : JsNumber) : bool :=
  match a, b with
  | Finite x, Finite y => x >? y
  | NotANumber, _ | _, NotANumber => false
  | PosInfinity, PosInfinity => false
  | PosInfinity, _ => true
  | _, PosInfinity => false
  | NegInfinity, _ => false
  | Finite _, NegInfinity => true
  end.

(** ** The controller *)

Section Controller.

Variable env : Env.

(** [await uuid()] (util.ts): a random identifier. *)
Definition uuid : M string :=
  n <~ draw ;; ret (uuid_gen env n).

(** Modelled from the spec: [new EmailVerification(email, purpose)] followed
    by [init()] (email-verification.ts), a record with a freshly generated
    code and token and a [tries] counter that starts at zero. *)
Definition newEmailVerification (email purpose : string) : M EmailVerification :=
  n <~ draw ;;
  ret (mkEmailVerification email purpose (code_gen env n) (token_gen env n) 0).

(** Modelled from the spec: [new SRPServer()] followed by [initialize(v)]
    (srp.ts), which draws the secret ephemeral value and produces the public
    one from the verifier. *)
Definition srp_initialize (v : bytes) : M SRPServer :=
  b <~ draw ;;
  ret (mkSRP v b (srp_public env v b) None None None).

(** The session key and the client proof that an exchange derives from the
    client's public value [A]. *)
Definition sessionKey (s : SRPServer) (A : bytes) : bytes :=
  srp_key env (srp_v s) (srp_b s) A.

Definition expectedProof (s : SRPServer) (A : bytes) : bytes :=
  srp_proof env (srp_v s) (srp_b s) A.

(** Modelled from the spec: [srp.setA(A)] (srp.ts), which accepts the
    client's public ephemeral value and yields the session key [K] and the
    expected proof [M1]. *)
Definition srp_setA (s : SRPServer) (A : bytes) : SRPServer :=
  mkSRP (srp_v s) (srp_b s) (srp_B s) (Some A)
        (Some (sessionKey s A)) (Some (expectedProof s A)).

Definition _requireAuth (ctx : Context) : M (Account * Session) :=
  match ctx_session ctx, ctx_account ctx with
  | Some session, Some account => ret (account, session)
  | _, _ => throw (Err INVALID_SESSION)
  end.

Definition _checkEmailVerificationCode (email code : string) : M string :=
  ev <~ try_catch (get_ev email)
          (fun e => if isNotFound e then throw (Err EMAIL_VERIFICATION_REQUIRED)
                    else throw e) ;;
  if negb (String.eqb (ev_code ev) (toLowerCase code)) then
    let ev := set_ev_tries (S (ev_tries ev)) ev in
    if (5 <? ev_tries ev)%nat then
      delete_ev ev ;;; throw (Err EMAIL_VERIFICATION_TRIES_EXCEEDED)
    else
      save_ev ev ;;; throw (Err EMAIL_VERIFICATION_FAILED)
  else ret (ev_token ev).

Definition _checkEmailVerificationToken (email token : string) : M unit :=
  ev <~ try_catch (get_ev email)
          (fun e => if isNotFound e then throw (Err EMAIL_VERIFICATION_FAILED)
                    else throw e) ;;
  if negb (String.eqb (ev_token ev) token) then throw (Err EMAIL_VERIFICATION_FAILED)
  else delete_ev ev.

Definition requestEmailVerification (email purpose : string) : M unit :=
  v <~ newEmailVerification email purpose ;;
  save_ev v ;;;
  send email (EmailVerificationMessage v).

Definition completeEmailVerification (email code : string) : M string :=
  _checkEmailVerificationCode email code.

(** [auth && this.context.device &&
    auth.trustedDevices.some(({ id }) => id === this.context.device!.id)] *)
Definition deviceTrusted (auth : option Auth) (ctx : Context) : bool :=
  match auth, ctx_device ctx with
  | Some a, Some d => hasDevice d (auth_trustedDevices a)
  | _, _ => false
  end.

(** [initAuth({ email, verify })].  The call to
    [_checkEmailVerificationToken] is a statement of its own, without
    [await]: its promise is dropped. *)
Definition initAuth (ctx : Context) (email : string) (verify : option string)
    : M InitAuthResponse :=
  auth <~ try_catch (a <~ get_auth email ;; ret (Some a))
            (fun e => if isNotFound e then ret None else throw e) ;;
  (if negb (deviceTrusted auth ctx) then
     match verify with
     | Some token =>
         if truthy verify then floating (_checkEmailVerificationToken email token)
         else throw (Err EMAIL_VERIFICATION_REQUIRED)
     | None => throw (Err EMAIL_VERIFICATION_REQUIRED)
     end
   else ret tt) ;;;
  match auth with
  | None => throw (Err NOT_FOUND)
  | Some auth =>
      match auth_verifier auth with
      | None => throw TypeError
      | Some v =>
          srp <~ srp_initialize v ;;
          w <~ get_world ;;
          put_pendingAuths (<[auth_account auth := srp]> (pendingAuths w)) ;;;
          ret (mkInitAuthResponse auth (srp_B srp))
      end
  end.

(** [createSession({ account, A, M })].  [srp.setA] changes the context that
    sits in [pendingAuths]; the session is pushed on the account and both are
    saved before [delete session.key] strips the object that is returned. *)
Definition createSession (ctx : Context) (account : string) (A M1 : bytes) : M Session :=
  w <~ get_world ;;
  match pendingAuths w !! account with
  | None => throw (Err INVALID_CREDENTIALS)
  | Some srp =>
      let srp := srp_setA srp A in
      put_pendingAuths (<[account := srp]> (pendingAuths w)) ;;;
      match srp_M1 srp with
      | None => throw TypeError
      | Some expected =>
          if negb (String.eqb (bytesToHex M1) (bytesToHex expected))
          then throw (Err INVALID_CREDENTIALS)
          else
            acc <~ get_account account ;;
            id <~ uuid ;;
            let session :=
              mkSession id account (srp_K srp) (ctx_device ctx)
                        (sess_expires newSession) (sess_lastUsed newSession)
                        (sess_updated newSession) in
            let acc := set_acc_sessions (acc_sessions acc ++ [session]) acc in
            save_session session ;;;
            save_account acc ;;;
            w <~ get_world ;;
            put_pendingAuths (delete account (pendingAuths w)) ;;;
            auth <~ get_auth (acc_email acc) ;;
            let auth :=
              mkAuth (auth_email auth) (auth_account auth) (auth_verifier auth)
                     (auth_keyParams auth)
                     (trustDevice (ctx_device ctx) (auth_trustedDevices auth)) in
            save_auth auth ;;;
            ret (set_sess_key None session)
      end
  end.

Definition createAccount (ctx : Context) (account : Account) (auth : Auth)
    (verify : string) : M Account :=
  _checkEmailVerificationToken (acc_email account) verify ;;;
  try_catch (get_auth (auth_email auth) ;;; throw (Err ACCOUNT_EXISTS))
    (fun e => if isNotFound e then ret tt else throw e) ;;;
  id <~ uuid ;;
  revision <~ uuid ;;
  let auth :=
    mkAuth (auth_email auth) id (auth_verifier auth) (auth_keyParams auth)
           (trustDevice (ctx_device ctx) (auth_trustedDevices auth)) in
  vid <~ uuid ;;
  created <~ now ;;
  updated <~ now ;;
  let vault :=
    mkVault vid "My Vault" (Some id) (vault_org newVault) (vault_revision newVault)
            (vault_keyParams newVault) (vault_encryptionParams newVault)
            (vault_accessors newVault) (vault_encryptedData newVault) created updated in
  let account :=
    mkAccount id (acc_email account) (acc_name account) (acc_publicKey account)
              (acc_keyParams account) (acc_encryptionParams account)
              (acc_encryptedData account) revision (acc_sessions account)
              (acc_orgs account) (acc_quota account) vid (acc_updated account) in
  save_account account ;;;
  save_vault vault ;;;
  save_auth auth ;;;
  ret account.

Definition updateAccount (ctx : Context) (upd : Account) : M Account :=
  p <~ _requireAuth ctx ;;
  let account := fst p in
  if negb (String.eqb (acc_revision upd) (acc_revision account))
  then throw (Err OUTDATED_REVISION)
  else
    revision <~ uuid ;;
    let nameChanged := negb (String.eqb (acc_name account) (acc_name upd)) in
    updated <~ now ;;
    let account :=
      mkAccount (acc_id account) (acc_email upd) (acc_name upd) (acc_publicKey upd)
                (acc_keyParams upd) (acc_encryptionParams upd) (acc_encryptedData upd)
                revision (acc_sessions account) (acc_orgs account) (acc_quota account)
                (acc_mainVault account) updated in
    save_account account ;;;
    (if nameChanged then
       for_each (acc_orgs account) (fun id =>
         org <~ get_org id ;;
         match getMember org (acc_id account) with
         | None => throw TypeError
         | Some _ =>
             save_org (set_org_members
                         (update_member (acc_id account) (set_mem_name (acc_name upd))
                                        (org_members org)) org)
         end)
     else ret tt) ;;;
    ret account.

(** [recoverAccount({ account, auth, verify })].  The deletions of the
    sessions are started by [map] and their promises are not inspected. *)
Definition recoverAccount (ctx : Context) (upd : Account) (auth : Auth)
    (verify : string) : M Account :=
  _checkEmailVerificationToken (auth_email auth) verify ;;;
  existingAuth <~ get_auth (auth_email auth) ;;
  account <~ get_account (auth_account existingAuth) ;;
  let account :=
    mkAccount (acc_id account) (acc_email upd) (acc_name account) (acc_publicKey upd)
              (acc_keyParams upd) (acc_encryptionParams upd) (acc_encryptedData upd)
              (acc_revision account) (acc_sessions account) (acc_orgs account)
              (acc_quota account) (acc_mainVault account) (acc_updated account) in
  created <~ now ;;
  updated <~ now ;;
  let mainVault :=
    mkVault (acc_mainVault account) "My Vault" (Some (acc_id account))
            (vault_org newVault) (vault_revision newVault) (vault_keyParams newVault)
            (vault_encryptionParams newVault) (vault_accessors newVault)
            (vault_encryptedData newVault) created updated in
  let auth :=
    mkAuth (auth_email auth) (acc_id account) (auth_verifier auth) (auth_keyParams auth)
           (match ctx_device ctx with
            | Some d => auth_trustedDevices auth ++ [d]
            | None => auth_trustedDevices auth
            end) in
  for_each (acc_sessions account) (fun s => floating (delete_session s)) ;;;
  for_each (acc_orgs account) (fun id =>
    org <~ get_org id ;;
    if negb (isOwner env org (acc_id account)) then
      match getMember org (acc_id account) with
      | None => throw TypeError
      | Some _ =>
          save_org (set_org_members
                      (update_member (acc_id account) (set_mem_role Suspended)
                                     (org_members org)) org)
      end
    else ret tt) ;;;
  save_account account ;;;
  save_auth auth ;;;
  save_vault mainVault ;;;
  ret account.

Definition getOrg (ctx : Context) (id : string) : M Org :=
  p <~ _requireAuth ctx ;;
  let account := fst p in
  org <~ get_org id ;;
  if negb (String.eqb (org_owner org) (acc_id account)) && negb (isMember org (acc_id account))
  then throw (Err NOT_FOUND)
  else ret org.

(** The membership changes of an update, as [updateOrg] computes them
    against the stored organisation. *)
Definition addedMembers (org upd : Org) : list OrgMember :=
  List.filter (fun m => negb (isMember org (mem_id m))) (org_members upd).

Definition removedMembers (org upd : Org) : list OrgMember :=
  List.filter (fun m => negb (existsb (fun m' => String.eqb (mem_id m) (mem_id m'))
                                      (org_members upd)))
              (org_members org).

Definition addedInvites (org upd : Org) : list Invite :=
  List.filter (fun i => match getInvite org (inv_id i) with Some _ => false | None => true end)
              (org_invites upd).

Definition roleChanged (org upd : Org) : bool :=
  existsb (fun m => match getMember org (mem_id m) with
                    | None => true
                    | Some member => negb (OrgRole_eqb (mem_role member) (mem_role m))
                    end)
          (org_members upd).

Definition membershipChanged (org upd : Org) : bool :=
  nonEmpty (addedMembers org upd) || nonEmpty (removedMembers org upd)
  || nonEmpty (addedInvites org upd) || roleChanged org upd.

Definition inviteLink (org : Org) (invite : Invite) : string :=
  clientUrl env +:+ "/invite/" +:+ org_id org +:+ "/" +:+ inv_id invite.

Definition updateOrg (ctx : Context) (upd : Org) : M Org :=
  p <~ _requireAuth ctx ;;
  let account := fst p in
  org <~ get_org (org_id upd) ;;
  if negb (String.eqb (org_revision upd) (org_revision org))
  then throw (Err OUTDATED_REVISION)
  else
    let isOwner_ := String.eqb (org_owner org) (acc_id account) || isOwner env org (acc_id account) in
    let isAdmin_ := isOwner_ || isAdmin env org (acc_id account) in
    if negb isAdmin_ then throw (Err INSUFFICIENT_PERMISSIONS)
    else if negb isOwner_ && membershipChanged org upd
    then throw (Err INSUFFICIENT_PERMISSIONS)
    else
      (* New invites *)
      for_each (addedInvites org upd) (fun invite =>
        link <~ try_catch (get_auth (inv_email invite) ;;; ret (inviteLink org invite))
                  (fun e =>
                     if isNotFound e then
                       v <~ newEmailVerification (inv_email invite) "" ;;
                       save_ev v ;;;
                       ret (inviteLink org invite +:+ "?verify=" +:+ ev_token v
                              +:+ "&email=" +:+ inv_email invite)
                     else throw e) ;;
        send (inv_email invite) (InviteCreatedMessage invite link)) ;;;
      (* Removed members *)
      for_each (removedMembers org upd) (fun m =>
        acc <~ get_account (mem_id m) ;;
        save_account
          (set_acc_orgs (List.filter (fun id => negb (String.eqb id (org_id org))) (acc_orgs acc))
                        acc)) ;;;
      (* Update any changed vault names *)
      for_each (org_vaults org) (fun entry =>
        match List.find (fun v => String.eqb (vr_id v) (vr_id entry)) (org_vaults upd) with
        | Some newVaultEntry =>
            if negb (String.eqb (vr_name newVaultEntry) (vr_name entry)) then
              vault <~ get_vault (vr_id entry) ;;
              save_vault (set_vault_name (vr_name newVaultEntry) vault)
            else ret tt
        | None => ret tt
        end) ;;;
      let added := addedMembers org upd in
      let org := assign_membership upd org in
      let org := if isOwner_ then assign_owner_fields upd org else org in
      (* Check members quota *)
      if exceeds (length (org_members upd)) (oq_members (org_quota org))
         || exceeds (length (org_groups upd)) (oq_groups (org_quota org))
      then throw (Err QUOTA_EXCEEDED)
      else
        (* Added members *)
        for_each added (fun member =>
          acc <~ get_account (mem_id member) ;;
          save_account (set_acc_orgs (acc_orgs acc ++ [org_id org]) acc) ;;;
          if negb (String.eqb (mem_id member) (acc_id account)) then
            send (mem_email member)
                 (MemberAddedMessage org (clientUrl env +:+ "/org/" +:+ org_id org))
          else ret tt) ;;;
        revision <~ uuid ;;
        let org := set_org_revision revision org in
        save_org org ;;;
        ret org.

(** [vault.org && (await this.storage.get(Org, vault.org.id))] *)
Definition orgOf (vault : Vault) : M (option Org) :=
  match vault_org vault with
  | Some ref => org <~ get_org (vr_id ref) ;; ret (Some org)
  | None => ret None
  end.

(** [(org && !org.canRead(vault, account)) || (!org && vault.owner !== account.id)] *)
Definition readDenied (org : option Org) (vault : Vault) (account : Account) : bool :=
  match org with
  | Some org => negb (canRead env org (vault_id vault) (acc_id account))
  | None => match vault_owner vault with
            | Some owner => negb (String.eqb owner (acc_id account))
            | None => true
            end
  end.

(** [org && !org.canWrite(vault, account)] *)
Definition writeDenied (org : option Org) (vault : Vault) (account : Account) : bool :=
  match org with
  | Some org => negb (canWrite env org (vault_id vault) (acc_id account))
  | None => false
  end.

(** [org ? org.canWrite(vault, account) : vault.owner === account.id] and its
    reading counterpart. *)
Definition ownsVault (vault : Vault) (account : Account) : bool :=
  match vault_owner vault with
  | Some owner => String.eqb owner (acc_id account)
  | None => false
  end.

Definition writeAllowed (org : option Org) (vault : Vault) (account : Account) : bool :=
  match org with
  | Some org => canWrite env org (vault_id vault) (acc_id account)
  | None => ownsVault vault account
  end.

Definition readAllowed (org : option Org) (vault : Vault) (account : Account) : bool :=
  match org with
  | Some org => canRead env org (vault_id vault) (acc_id account)
  | None => ownsVault vault account
  end.

Definition getVault (ctx : Context) (id : string) : M Vault :=
  p <~ _requireAuth ctx ;;
  let account := fst p in
  vault <~ get_vault id ;;
  org <~ orgOf vault ;;
  if readDenied org vault account then throw (Err NOT_FOUND)
  else ret vault.

Definition updateVault (ctx : Context) (upd : Vault) : M Vault :=
  p <~ _requireAuth ctx ;;
  let account := fst p in
  vault <~ get_vault (vault_id upd) ;;
  org <~ orgOf vault ;;
  if readDenied org vault account then throw (Err NOT_FOUND)
  else if writeDenied org vault account then throw (Err INSUFFICIENT_PERMISSIONS)
  else if negb (String.eqb (vault_revision upd) (vault_revision vault))
  then throw (Err OUTDATED_REVISION)
  else
    revision <~ uuid ;;
    updated <~ now ;;
    let vault :=
      mkVault (vault_id vault) (vault_name vault) (vault_owner vault) (vault_org vault)
              revision (vault_keyParams upd) (vault_encryptionParams upd)
              (vault_accessors upd) (vault_encryptedData upd) (vault_created vault)
              updated in
    save_vault vault ;;;
    ret vault.

Definition createVault (ctx : Context) (vault : Vault) : M Vault :=
  p <~ _requireAuth ctx ;;
  let account := fst p in
  match vault_org vault with
  | None => throw (Err BAD_REQUEST)
  | Some ref =>
      org <~ get_org (vr_id ref) ;;
      if negb (isAdmin env org (acc_id account)) then throw (Err INSUFFICIENT_PERMISSIONS)
      else
        id <~ uuid ;;
        created <~ now ;;
        revision <~ uuid ;;
        let vault :=
          mkVault id (vault_name vault) (Some (acc_id account)) (vault_org vault)
                  revision (vault_keyParams vault) (vault_encryptionParams vault)
                  (vault_accessors vault) (vault_encryptedData vault) created created in
        orgRevision <~ uuid ;;
        let org :=
          set_org_revision orgRevision
            (set_org_vaults (org_vaults org ++ [mkVaultRef (vault_id vault) (vault_name vault)])
                            org) in
        if exceeds (length (org_vaults org)) (oq_vaults (org_quota org))
        then throw (Err QUOTA_EXCEEDED)
        else
          save_vault vault ;;;
          save_org org ;;;
          ret vault
  end.

(** [Promise.all(org.vaults.map(({ id }) => this.attachmentStorage.getUsage(id)))] *)
Fixpoint usagesOf (vaults : list VaultRef) : M (list Z) :=
  match vaults with
  | [] => ret []
  | v :: r => u <~ att_getUsage (vr_id v) ;; us <~ usagesOf r ;; ret (u :: us)
  end.

(** [.reduce((sum: number, each: number) => sum + each, 0)] *)
Definition sumUsage (usages : list Z) : JsNumber :=
  fold_left (fun sum each => num_add sum (toNumber each)) usages (Finite 0).

Definition usageOf (vaults : list VaultRef) : M JsNumber :=
  usages <~ usagesOf vaults ;; ret (sumUsage usages).

Definition createAttachment (ctx : Context) (att : Attachment) : M Attachment :=
  p <~ _requireAuth ctx ;;
  let account := fst p in
  vault <~ get_vault (att_vault att) ;;
  org <~ orgOf vault ;;
  if negb (writeAllowed org vault account) then throw (Err INSUFFICIENT_PERMISSIONS)
  else
    id <~ uuid ;;
    let att := mkAttachment id (att_vault att) (att_size att) in
    currentUsage <~ match org with
                    | Some org => usageOf (org_vaults org)
                    | None => u <~ att_getUsage (vault_id vault) ;; ret (toNumber u)
                    end ;;
    let storageQuota := match org with
                        | Some org => oq_storage (org_quota org)
                        | None => aq_storage (acc_quota account)
                        end in
    if negb (storageQuota =? -1)
       && num_gt (num_add currentUsage (toNumber (att_size att)))
                 (num_mul (toNumber storageQuota) (toNumber 1000000000))
    then throw (Err QUOTA_EXCEEDED)
    else att_put att ;;; ret att.

Definition getAttachment (ctx : Context) (id vaultId : string) : M Attachment :=
  p <~ _requireAuth ctx ;;
  let account := fst p in
  vault <~ get_vault vaultId ;;
  org <~ orgOf vault ;;
  if negb (readAllowed org vault account) then throw (Err INSUFFICIENT_PERMISSIONS)
  else att_get vaultId id.

Definition deleteAttachment (ctx : Context) (vaultId id : string) : M unit :=
  p <~ _requireAuth ctx ;;
  let account := fst p in
  vault <~ get_vault vaultId ;;
  org <~ orgOf vault ;;
  if negb (writeAllowed org vault account) then throw (Err INSUFFICIENT_PERMISSIONS)
  else att_delete vaultId id.

(** [account.sessions[i] = info] at the index of the session with that id,
    or [push] when there is none *)
Fixpoint upsertSession (s : Session) (l : list Session) : list Session :=
  match l with
  | [] => [s]
  | x :: r => if String.eqb (sess_id x) (sess_id s) then s :: r
              else x :: upsertSession s r
  end.

(** [BaseServer._authenticate]: the context it leaves for the controller. *)
Definition _authenticate (req : Request) (ctx : Context) : M Context :=
  match req_auth req with
  | None => ret ctx
  | Some a =>
      session <~ try_catch (get_session (ar_session a))
                   (fun e => if isNotFound e then throw (Err INVALID_SESSION) else throw e) ;;
      t <~ now ;;
      if match sess_expires session with
         | Some expires => (expires <? t)%nat
         | None => false
         end
      then throw (Err SESSION_EXPIRED)
      else if negb (session_verify env session req) then throw (Err INVALID_REQUEST)
      else
        account <~ get_account (sess_account session) ;;
        lastUsed <~ now ;;
        updated <~ now ;;
        let session :=
          mkSession (sess_id session) (sess_account session) (sess_key session)
                    (ctx_device ctx) (sess_expires session) lastUsed updated in
        let account := set_acc_sessions (upsertSession (info session) (acc_sessions account))
                                        account in
        save_session session ;;;
        save_account account ;;;
        ret (mkContext (Some session) (Some account) (ctx_device ctx))
  end.

End Controller.

(** ** Scenarios *)

Definition set_storage (s : Storage) (w : World) : World :=
  mkWorld s (pendingAuths w) (outbox w) (attachments w) (clock w) (entropy w).

(** A run of [completeEmailVerification] requests for one email, one code
    after the other, with the responses in order. *)
Fixpoint attempts (email : string) (codes : list string) (w : World)
    : list (Result string) * World :=
  match codes with
  | [] => ([], w)
  | code :: rest =>
      let r := completeEmailVerification email code w in
      let rs := attempts email rest (snd r) in
      (fst r :: fst rs, snd rs)
  end.

(** The sessions listed on every stored account are summaries: none of them
    carries a key. *)
Definition summariesOnly (w : World) : Prop :=
  forall id a, st_account (storage w) !! id = Some a ->
               Forall (fun s => sess_key s = None) (acc_sessions a).

(** The membership diff in the words of the specification: a member of the
    update that the stored organisation does not have, a stored member that
    the update no longer has, an invite of the update that is not stored, or
    a member of the update whose role differs from the stored one. *)
Definition specMemberAdded (org upd : Org) : Prop :=
  exists m, In m (org_members upd)
            /\ forall m', In m' (org_members org) -> mem_id m' <> mem_id m.

Definition specMemberRemoved (org upd : Org) : Prop :=
  exists m, In m (org_members org)
            /\ forall m', In m' (org_members upd) -> mem_id m' <> mem_id m.

Definition specInviteAdded (org upd : Org) : Prop :=
  exists i, In i (org_invites upd)
            /\ forall i', In i' (org_invites org) -> inv_id i' <> inv_id i.

Definition specRoleChanged (org upd : Org) : Prop :=
  exists m member, In m (org_members upd)
                   /\ getMember org (mem_id m) = Some member
                   /\ mem_role member <> mem_role m.

Definition specMembershipDiff (org upd : Org) : Prop :=
  specMemberAdded org upd \/ specMemberRemoved org upd
  \/ specInviteAdded org upd \/ specRoleChanged org upd.

(** [w] keeps the organisations of [w0] as they are and every account and
    vault that [w0] stores (possibly with new contents). *)
Definition extends (w0 w : World) : Prop :=
  st_org (storage w) = st_org (storage w0)
  /\ (forall id, is_Some (st_account (storage w0) !! id) ->
                 is_Some (st_account (storage w) !! id))
  /\ (forall id, is_Some (st_vault (storage w0) !! id) ->
                 is_Some (st_vault (storage w) !! id)).

(** The caller may apply the update: it owns the organisation, or it is an
    admin and the update leaves the membership alone. *)
Definition mayUpdate (env : Env) (account : Account) (org upd : Org) : Prop :=
  org_owner org = acc_id account
  \/ isOwner env org (acc_id account) = true
  \/ (isAdmin env org (acc_id account) = true /\ membershipChanged org upd = false).

(** A count is within a limit when the limit is [-1] or at least the count. *)
Definition within (count : nat) (limit : Z) : Prop :=
  limit = -1 \/ Z.of_nat count <= limit.


(** Every organisation is stored under its own id, as [save] does it. *)
Definition orgsKeyed (w : World) : Prop :=
  forall id o, st_org (storage w) !! id = Some o -> org_id o = id.


(** Every stored vault has an owner. *)
Definition vaultsOwned (w : World) : Prop :=
  forall id v, st_vault (storage w) !! id = Some v -> vault_owner v <> None.

(** A computation that keeps a property of the world, whether it returns or
    throws. *)
Definition preserves {A} (P : World -> Prop) (m : M A) : Prop :=
  forall w, P w -> P (snd (m w)).

(** The controller methods covered here, with their parameters; every method
    of the controller that saves a vault is among them. *)
Inductive Call : Type :=
  | RequestEmailVerification (email purpose : string)
  | CompleteEmailVerification (email code : string)
  | InitAuth (email : string) (verify : option string)
  | CreateSession (account : string) (A M1 : bytes)
  | CreateAccount (account : Account) (auth : Auth) (verify : string)
  | UpdateAccount (upd : Account)
  | RecoverAccount (upd : Account) (auth : Auth) (verify : string)
  | GetOrg (id : string)
  | UpdateOrg (upd : Org)
  | GetVault (id : string)
  | UpdateVault (upd : Vault)
  | CreateVault (vault : Vault)
  | CreateAttachment (att : Attachment)
  | GetAttachment (id vault : string)
  | DeleteAttachment (vault id : string).

(** The world that a call leaves behind, whether it returns or throws. *)
Definition after (env : Env) (ctx : Context) (call : Call) (w : World) : World :=
  match call with
  | RequestEmailVerification email purpose => snd (requestEmailVerification env email purpose w)
  | CompleteEmailVerification email code => snd (completeEmailVerification email code w)
  | InitAuth email verify => snd (initAuth env ctx email verify w)
  | CreateSession account A M1 => snd (createSession env ctx account A M1 w)
  | CreateAccount account auth verify => snd (createAccount env ctx account auth verify w)
  | UpdateAccount upd => snd (updateAccount env ctx upd w)
  | RecoverAccount upd auth verify => snd (recoverAccount env ctx upd auth verify w)
  | GetOrg id => snd (getOrg ctx id w)
  | UpdateOrg upd => snd (updateOrg env ctx upd w)
  | GetVault id => snd (getVault env ctx id w)
  | UpdateVault upd => snd (updateVault env ctx upd w)
  | CreateVault vault => snd (createVault env ctx vault w)
  | CreateAttachment att => snd (createAttachment env ctx att w)
  | GetAttachment id vault => snd (getAttachment env ctx id vault w)
  | DeleteAttachment vault id => snd (deleteAttachment env ctx vault id w)
  end.

(** ** The rest of the controller *)

(** [Array.prototype.findIndex]: the index of the first element that
    satisfies the test, or [-1]. *)
Fixpoint findIndex {A} (f : A -> bool) (l : list A) : Z :=
  match l with
  | [] => -1
  | x :: r => if f x then 0
              else let i := findIndex f r in if i <? 0 then -1 else i + 1
  end.

(** [Array.prototype.splice(start, 1)]: a negative [start] counts from the
    end of the array, and nothing is removed past the end. *)
Definition splice1 {A} (start : Z) (l : list A) : list A :=
  let len := Z.of_nat (length l) in
  let actualStart := if start <? 0 then Z.max (len + start) 0 else Z.min start len in
  firstn (Z.to_nat actualStart) l ++ skipn (S (Z.to_nat actualStart)) l.

(** [Promise.all(ids.map(id => get(id)))] *)
Fixpoint get_all {A} (get : string -> M A) (ids : list string) : M (list A) :=
  match ids with
  | [] => ret []
  | id :: r => a <~ get id ;; rest <~ get_all get r ;; ret (a :: rest)
  end.

Definition delete_vault (v : Vault) : M unit :=
  modify_storage (with_vault (delete (vault_id v))).

(** Modelled from the spec: [AttachmentStorage.deleteAll], which removes
    every attachment stored for a vault. *)
Definition att_deleteAll (vault : string) : M unit :=
  fun w => put_attachments
             (List.filter (fun x => negb (String.eqb (att_vault x) vault)) (attachments w)) w.

(** [vaults.some(v => v.id === vault.id)] on an assignment list *)
Definition holdsVault (vault : string) (l : list Assignment) : bool :=
  existsb (fun a => String.eqb (as_id a) vault) l.

(** [each.vaults.filter(v => v.id !== vault.id)] *)
Definition unassign (vault : string) (l : list Assignment) : list Assignment :=
  List.filter (fun a => negb (String.eqb (as_id a) vault)) l.

(** Modelled from the spec: [Org.getGroupsForVault] and
    [Org.getMembersForVault] of org.ts return the groups and the members
    that hold an assignment to the vault; [deleteVault] filters the
    assignment list of each of them where it stands. *)
Definition unassignGroups (vault : string) (l : list Group) : list Group :=
  map (fun g => if holdsVault vault (grp_vaults g)
                then mkGroup (grp_name g) (unassign vault (grp_vaults g)) else g) l.

Definition unassignMembers (vault : string) (l : list OrgMember) : list OrgMember :=
  map (fun m => if holdsVault vault (mem_vaults m)
                then mkOrgMember (mem_id m) (mem_name m) (mem_email m) (mem_role m)
                                 (unassign vault (mem_vaults m))
                else m) l.

Definition set_org_invites (invs : list Invite) (o : Org) : Org :=
  mkOrg (org_id o) (org_name o) (org_owner o) (org_revision o) (org_publicKey o)
        (org_keyParams o) (org_encryptionParams o) (org_encryptedData o)
        (org_signingParams o) (org_accessors o) (org_members o) (org_groups o)
        (org_vaults o) invs (org_quota o).

(** [invites[invites.indexOf(existing)] = invite], where [existing] is the
    invite that [getInvite] found: the first one with that id. *)
Fixpoint replaceInvite (id : string) (invite : Invite) (l : list Invite) : list Invite :=
  match l with
  | [] => []
  | i :: r => if String.eqb (inv_id i) id then invite :: r
              else i :: replaceInvite id invite r
  end.

(** The parameters of [updateBilling] that the controller looks at
    (billing.ts). *)
Record UpdateBillingParams := mkUpdateBillingParams {
  ubp_account : option string;
  ubp_org : option string;
  ubp_details : string }.

(** The optional billing provider (billing.ts). *)
Record BillingProvider := mkBillingProvider {
  bp_updateBilling : UpdateBillingParams -> M unit;
  bp_getPlans : M (list string) }.

Section ControllerRest.

Variable env : Env.

Definition updateAuth (ctx : Context) (auth : Auth) : M unit :=
  p <~ _requireAuth ctx ;;
  let account := fst p in
  if negb (String.eqb (acc_email account) (auth_email auth))
  then throw (Err INSUFFICIENT_PERMISSIONS)
  else save_auth auth.

Definition revokeSession (ctx : Context) (id : string) : M unit :=
  p <~ _requireAuth ctx ;;
  let account := fst p in
  session <~ get_session id ;;
  if negb (String.eqb (sess_account session) (acc_id account))
  then throw (Err INSUFFICIENT_PERMISSIONS)
  else
    let i := findIndex (fun s => String.eqb (sess_id s) id) (acc_sessions account) in
    let account := set_acc_sessions (splice1 i (acc_sessions account)) account in
    delete_session session ;;;
    save_account account.

Definition getAccount (ctx : Context) : M Account :=
  p <~ _requireAuth ctx ;;
  ret (fst p).

Definition createOrg (ctx : Context) (org : Org) : M Org :=
  p <~ _requireAuth ctx ;;
  let account := fst p in
  if String.eqb (org_name org) "" then throw (Err BAD_REQUEST)
  else
    existingOrgs <~ get_all get_org (acc_orgs account) ;;
    let ownedOrgs :=
      List.filter (fun o => String.eqb (org_owner o) (acc_id account)) existingOrgs in
    if negb (aq_orgs (acc_quota account) =? -1)
       && (Z.of_nat (length ownedOrgs) >=? aq_orgs (acc_quota account))
    then throw (Err QUOTA_EXCEEDED)
    else
      id <~ uuid env ;;
      revision <~ uuid env ;;
      let org :=
        mkOrg id (org_name org) (acc_id account) revision (org_publicKey org)
              (org_keyParams org) (org_encryptionParams org) (org_encryptedData org)
              (org_signingParams org) (org_accessors org) (org_members org)
              (org_groups org) (org_vaults org) (org_invites org) (org_quota org) in
      save_org org ;;;
      ret org.

Definition deleteVault (ctx : Context) (id : string) : M unit :=
  p <~ _requireAuth ctx ;;
  let account := fst p in
  vault <~ get_vault id ;;
  match vault_org vault with
  | None => throw (Err INSUFFICIENT_PERMISSIONS)
  | Some ref =>
      org <~ get_org (vr_id ref) ;;
      if negb (isAdmin env org (acc_id account)) then throw (Err INSUFFICIENT_PERMISSIONS)
      else
        delete_vault vault ;;;
        att_deleteAll (vault_id vault) ;;;
        let org :=
          mkOrg (org_id org) (org_name org) (org_owner org) (org_revision org)
                (org_publicKey org) (org_keyParams org) (org_encryptionParams org)
                (org_encryptedData org) (org_signingParams org) (org_accessors org)
                (unassignMembers (vault_id vault) (org_members org))
                (unassignGroups (vault_id vault) (org_groups org))
                (List.filter (fun v => negb (String.eqb (vr_id v) (vault_id vault)))
                             (org_vaults org))
                (org_invites org) (org_quota org) in
        save_org org
  end.

(** [Controller.getInvite({ org, id })] *)
Definition controller_getInvite (ctx : Context) (orgId id : string) : M Invite :=
  p <~ _requireAuth ctx ;;
  let account := fst p in
  org <~ get_org orgId ;;
  match getInvite org id with
  | None => throw (Err NOT_FOUND)
  | Some invite =>
      if negb (isOwner env org (acc_id account))
         && negb (String.eqb (inv_email invite) (acc_email account))
      then throw (Err NOT_FOUND)
      else ret invite
  end.

(** [acceptInvite(invite)]; [orgId] is [invite.org.id], and the [invitedBy]
    of an invite is the email address of the inviter. *)
Definition acceptInvite (ctx : Context) (orgId : string) (invite : Invite) : M unit :=
  if negb (inv_accepted invite) then throw (Err BAD_REQUEST)
  else
    p <~ _requireAuth ctx ;;
    let account := fst p in
    org <~ get_org orgId ;;
    match getInvite org (inv_id invite) with
    | None => throw (Err NOT_FOUND)
    | Some existing =>
        if negb (String.eqb (inv_email existing) (acc_email account))
        then throw (Err INSUFFICIENT_PERMISSIONS)
        else
          (match inv_invitedBy invite with
           | Some inviter =>
               if negb (inv_accepted existing) then
                 send inviter (InviteAcceptedMessage invite (inviteLink env org invite))
               else ret tt
           | None => ret tt
           end) ;;;
          save_org (set_org_invites (replaceInvite (inv_id invite) invite (org_invites org))
                                    org)
    end.

Variable billingProvider : option BillingProvider.

Definition updateBilling (ctx : Context) (params : UpdateBillingParams) : M unit :=
  match billingProvider with
  | None => throw (Err NOT_SUPPORTED)
  | Some provider =>
      p <~ _requireAuth ctx ;;
      let account := fst p in
      let params :=
        mkUpdateBillingParams
          (if truthy (ubp_account params) then ubp_account params else Some (acc_id account))
          (ubp_org params) (ubp_details params) in
      (if truthy (ubp_org params) then
         match ubp_org params with
         | Some orgId =>
             org <~ get_org orgId ;;
             if negb (isOwner env org (acc_id account))
             then throw (Err INSUFFICIENT_PERMISSIONS) else ret tt
         | None => ret tt
         end
       else
         match ubp_account params with
         | Some accId =>
             if truthy (Some accId) && negb (String.eqb accId (acc_id account))
             then throw (Err INSUFFICIENT_PERMISSIONS) else ret tt
         | None => ret tt
         end) ;;;
      bp_updateBilling provider params
  end.

Definition getPlans : M (list string) :=
  match billingProvider with
  | None => throw (Err NOT_SUPPORTED)
  | Some provider => bp_getPlans provider
  end.

End ControllerRest.

(** ** The server: dispatch and error handling *)

(** What [_process] puts into [res.result]. *)
Inductive Reply : Type :=
  | NoReply
  | TokenReply (token : string)
  | InitAuthReply (r : InitAuthResponse)
  | SessionReply (s : Session)
  | AccountReply (a : Account)
  | OrgReply (o : Org)
  | VaultReply (v : Vault)
  | InviteReply (i : Invite)
  | AttachmentIdReply (id : string)
  | AttachmentReply (a : Attachment)
  | PlansReply (plans : list string).

(** The method of a request with its first parameter as [_process] reads it;
    where [_process] insists on a string, [None] is a parameter that is not
    one. *)
Inductive Method : Type :=
  | MRequestEmailVerification (email purpose : string)
  | MCompleteEmailVerification (email code : string)
  | MInitAuth (email : string) (verify : option string)
  | MUpdateAuth (auth : Auth)
  | MCreateSession (account : string) (A M1 : bytes)
  | MRevokeSession (id : option string)
  | MGetAccount
  | MCreateAccount (account : Account) (auth : Auth) (verify : string)
  | MUpdateAccount (upd : Account)
  | MRecoverAccount (upd : Account) (auth : Auth) (verify : string)
  | MCreateOrg (org : Org)
  | MGetOrg (id : option string)
  | MUpdateOrg (upd : Org)
  | MGetVault (id : option string)
  | MUpdateVault (upd : Vault)
  | MCreateVault (vault : Vault)
  | MDeleteVault (id : option string)
  | MGetInvite (org id : string)
  | MAcceptInvite (org : string) (invite : Invite)
  | MCreateAttachment (att : Attachment)
  | MGetAttachment (id vault : string)
  | MDeleteAttachment (vault id : string)
  | MUpdateBilling (params : UpdateBillingParams)
  | MGetPlans
  | MUnknown (name : string).

Record Response := mkResponse {
  res_result : Reply;
  res_error : option ErrorCode;
  res_auth : option string }.

(** [new Response()] *)
Definition newResponse : Response := mkResponse NoReply None None.

(** What [handle] leaves: the response, the error report handed to the
    messenger for the [reportErrors] address, if any, and the world. *)
Record Handled := mkHandled {
  h_response : Response;
  h_report : option (string * string);
  h_world : World }.

Section Server.

Variable env : Env.
Variable billingProvider : option BillingProvider.

(** [Server._process]: the switch over the method. *)
Definition _process (m : Method) (ctx : Context) : M Reply :=
  match m with
  | MRequestEmailVerification email purpose =>
      requestEmailVerification env email purpose ;;; ret NoReply
  | MCompleteEmailVerification email code =>
      token <~ completeEmailVerification email code ;; ret (TokenReply token)
  | MInitAuth email verify =>
      r <~ initAuth env ctx email verify ;; ret (InitAuthReply r)
  | MUpdateAuth auth => updateAuth ctx auth ;;; ret NoReply
  | MCreateSession account A M1 =>
      s <~ createSession env ctx account A M1 ;; ret (SessionReply s)
  | MRevokeSession None => throw (Err BAD_REQUEST)
  | MRevokeSession (Some id) => revokeSession ctx id ;;; ret NoReply
  | MGetAccount => a <~ getAccount ctx ;; ret (AccountReply a)
  | MCreateAccount account auth verify =>
      a <~ createAccount env ctx account auth verify ;; ret (AccountReply a)
  | MUpdateAccount upd => a <~ updateAccount env ctx upd ;; ret (AccountReply a)
  | MRecoverAccount upd auth verify =>
      a <~ recoverAccount env ctx upd auth verify ;; ret (AccountReply a)
  | MCreateOrg org => o <~ createOrg env ctx org ;; ret (OrgReply o)
  | MGetOrg None => throw (Err BAD_REQUEST)
  | MGetOrg (Some id) => o <~ getOrg ctx id ;; ret (OrgReply o)
  | MUpdateOrg upd => o <~ updateOrg env ctx upd ;; ret (OrgReply o)
  | MGetVault None => throw (Err BAD_REQUEST)
  | MGetVault (Some id) => v <~ getVault env ctx id ;; ret (VaultReply v)
  | MUpdateVault upd => v <~ updateVault env ctx upd ;; ret (VaultReply v)
  | MCreateVault vault => v <~ createVault env ctx vault ;; ret (VaultReply v)
  | MDeleteVault None => throw (Err BAD_REQUEST)
  | MDeleteVault (Some id) => deleteVault env ctx id ;;; ret NoReply
  | MGetInvite org id => i <~ controller_getInvite env ctx org id ;; ret (InviteReply i)
  | MAcceptInvite org invite => acceptInvite env ctx org invite ;;; ret NoReply
  | MCreateAttachment att =>
      a <~ createAttachment env ctx att ;; ret (AttachmentIdReply (att_id a))
  | MGetAttachment id vault =>
      a <~ getAttachment env ctx id vault ;; ret (AttachmentReply a)
  | MDeleteAttachment vault id => deleteAttachment env ctx vault id ;;; ret NoReply
  | MUpdateBilling params => updateBilling env billingProvider ctx params ;;; ret NoReply
  | MGetPlans => plans <~ getPlans billingProvider ;; ret (PlansReply plans)
  | MUnknown _ => throw (Err INVALID_REQUEST)
  end.

Variable reportErrors : string.

(** [Session.authenticate(res)] of session.ts, which signs the response. *)
Variable authenticateResponse : Session -> Response -> Result Response.

(** [BaseServer._handleError]: an [Err] reaches the response with its code;
    anything else is reported to the [reportErrors] address, when one is
    configured, and answered as a SERVER_ERROR. *)
Definition _handleError (e : Thrown) (res : Response) : Response * option (string * string) :=
  match e with
  | Err code => (mkResponse (res_result res) (Some code) (res_auth res), None)
  | TypeError =>
      (mkResponse (res_result res) (Some SERVER_ERROR) (res_auth res),
       if String.eqb reportErrors "" then None
       else Some (reportErrors, "Padloc Error Notification"))
  end.

(** [BaseServer.handle], for any [_process]. *)
Definition handle (process : Request -> Context -> M Reply) (req : Request) (w : World)
    : Handled :=
  let res := newResponse in
  let context := mkContext None None (req_device req) in
  match _authenticate env req context w with
  | (Throw e, w) => let r := _handleError e res in mkHandled (fst r) (snd r) w
  | (Ok context, w) =>
      match process req context w with
      | (Throw e, w) => let r := _handleError e res in mkHandled (fst r) (snd r) w
      | (Ok reply, w) =>
          let res := mkResponse reply (res_error res) (res_auth res) in
          match ctx_session context with
          | Some session =>
              match authenticateResponse session res with
              | Ok res => mkHandled res None w
              | Throw e => let r := _handleError e res in mkHandled (fst r) (snd r) w
              end
          | None => mkHandled res None w
          end
      end
  end.

End Server.

(** The list without the first element that satisfies the test. *)
Fixpoint removeFirst {A} (f : A -> bool) (l : list A) : list A :=
  match l with
  | [] => []
  | x :: r => if f x then r else x :: removeFirst f r
  end.

(** None of the listed sessions is stored. *)
Definition sessionsGone (l : list Session) (w : World) : Prop :=
  forall s, In s l -> st_session (storage w) !! sess_id s = None.

(** The bytes stored for a vault in a list of attachments, the value
    [att_getUsage] returns, and their exact total over a list of vaults. *)
Definition usageIn (atts : list Attachment) (vault : string) : Z :=
  fold_right (fun a sum => if String.eqb (att_vault a) vault then att_size a + sum else sum)
             0 atts.

Definition usagesIn (atts : list Attachment) (vaults : list VaultRef) : list Z :=
  map (fun v => usageIn atts (vr_id v)) vaults.

Definition totalUsage (atts : list Attachment) (vaults : list VaultRef) : Z :=
  fold_right Z.add 0 (usagesIn atts vaults).

(** The storage quota and the usage [createAttachment] compares: those of the
    organisation for a vault that has one, those of the account and of the
    vault itself otherwise.  [currentUsageFor] is the number the code
    computes, [usageFor] the exact amount of bytes. *)
Definition storageQuotaFor (org : option Org) (account : Account) : Z :=
  match org with
  | Some org => oq_storage (org_quota org)
  | None => aq_storage (acc_quota account)
  end.

Definition currentUsageFor (org : option Org) (vault : Vault) (atts : list Attachment)
    : JsNumber :=
  match org with
  | Some org => sumUsage (usagesIn atts (org_vaults org))
  | None => toNumber (usageIn atts (vault_id vault))
  end.

Definition usageFor (org : option Org) (vault : Vault) (atts : list Attachment) : Z :=
  match org with
  | Some org => totalUsage atts (org_vaults org)
  | None => usageIn atts (vault_id vault)
  end.

(** No stored attachment has a negative size. *)
Definition sizesNonNegative (atts : list Attachment) : Prop :=
  Forall (fun a => 0 <= att_size a) atts.

(** The calls that begin with [_requireAuth]: every method but the ones of
    sign-up, login and recovery and [getPlans], once [_process] has accepted
    the parameter; [acceptInvite] checks the invite and [updateBilling] the
    billing provider before that. *)
Definition requiresSession (billing : bool) (m : Method) : bool :=
  match m with
  | MUpdateAuth _ | MRevokeSession (Some _) | MGetAccount | MUpdateAccount _
  | MCreateOrg _ | MGetOrg (Some _) | MUpdateOrg _
  | MGetVault (Some _) | MUpdateVault _ | MCreateVault _ | MDeleteVault (Some _)
  | MGetInvite _ _
  | MCreateAttachment _ | MGetAttachment _ _ | MDeleteAttachment _ _ => true
  | MAcceptInvite _ invite => inv_accepted invite
  | MUpdateBilling _ => billing
  | _ => false
  end.

(** [!!this.billingProvider] *)
Definition configured (billingProvider : option BillingProvider) : bool :=
  match billingProvider with
  | Some _ => true
  | None => false
  end.

(** A context without a session or without an account. *)
Definition unauthenticated (ctx : Context) : Prop :=
  ctx_session ctx = None \/ ctx_account ctx = None.

(** The organisation stored under [id] lists the account as a member, and
    lists it under the given name. *)
Definition memberAt (w : World) (account id : string) : Prop :=
  exists o, st_org (storage w) !! id = Some o /\ isMember o account = true.

Definition namedAt (w : World) (account name id : string) : Prop :=
  exists o m, st_org (storage w) !! id = Some o
              /\ getMember o account = Some m /\ mem_name m = name.

(** Every account is stored under its own id, as [save] does it. *)
Definition accountsKeyed (w : World) : Prop :=
  forall id a, st_account (storage w) !! id = Some a -> acc_id a = id.

(** The account stored under [id] lists, or does not list, the
    organisation. *)
Definition listsOrg (w : World) (id org : string) : Prop :=
  exists a, st_account (storage w) !! id = Some a /\ In org (acc_orgs a).

Definition omitsOrg (w : World) (id org : string) : Prop :=
  exists a, st_account (storage w) !! id = Some a /\ ~ In org (acc_orgs a).

(** The generator does not return [id] at the current draw or a later one:
    an identifier that is in use is not generated again. *)
Definition notDrawnAgain (env : Env) (w : World) (id : string) : Prop :=
  forall n, (entropy w <= n)%nat -> uuid_gen env n <> id.

(** ** Concrete collaborators and worlds

    A concrete environment (role-based capabilities, deterministic
    identifiers) and small worlds on which the theorems below are
    instantiated. *)

Module Sample.

Definition roleOf (o : Org) (id : string) : option OrgRole :=
  match getMember o id with Some m => Some (mem_role m) | None => None end.

Definition assigned (o : Org) (vault id : string) (needWrite : bool) : bool :=
  match getMember o id with
  | Some m =>
      match mem_role m with
      | Suspended => false
      | Owner | Admin => true
      | Member =>
          existsb (fun a => String.eqb (as_id a) vault && (negb needWrite || negb (as_readonly a)))
                  (mem_vaults m)
      end
  | None => false
  end.

Definition env : Env :=
  mkEnv "https://padloc.test"
        (fun n => "id-" +:+ pretty n)
        (fun n => "code-" +:+ pretty n)
        (fun n => "token-" +:+ pretty n)
        (fun v b => (v ++ [Byte.x01])%list)
        (fun v b A => (v ++ A)%list)
        (fun v b A => (A ++ v)%list)
        (fun s r => true)
        (fun o id => match roleOf o id with Some Owner => true | _ => false end)
        (fun o id => match roleOf o id with Some Owner | Some Admin => true | _ => false end)
        (fun o vault id => assigned o vault id false)
        (fun o vault id => assigned o vault id true).

Definition laptop : DeviceInfo := mkDevice "dev-1" "laptop".
Definition phone : DeviceInfo := mkDevice "dev-2" "phone".

Definition alice : Account :=
  mkAccount "acc-alice" "alice@example.com" "Alice" "pk-a" "kp-a" "ep-a" "data-a" "rev-a1"
            [] ["org-1"] (mkAccountQuota 1 1) "vault-alice" 0.

Definition bob : Account :=
  mkAccount "acc-bob" "bob@example.com" "Bob" "pk-b" "kp-b" "ep-b" "data-b" "rev-b1"
            [] ["org-1"] (mkAccountQuota 1 1) "vault-bob" 0.

Definition carol : Account :=
  mkAccount "acc-carol" "carol@example.com" "Carol" "pk-c" "kp-c" "ep-c" "data-c" "rev-c1"
            [] [] (mkAccountQuota 1 1) "vault-carol" 0.

Definition aliceAuth : Auth :=
  mkAuth "alice@example.com" "acc-alice" (Some [Byte.x0a; Byte.x0b]) "kp-a" [phone].

Definition bobAuth : Auth :=
  mkAuth "bob@example.com" "acc-bob" (Some [Byte.x0c]) "kp-b" [].

(** An organisation owned by Alice with Bob as a plain member and room for
    two members, one group and two vaults. *)
Definition org1 : Org :=
  mkOrg "org-1" "Org One" "acc-alice" "rev-o1" "pk-o" "kp-o" "ep-o" "data-o" "sp-o" "acs-o"
        [mkOrgMember "acc-alice" "Alice" "alice@example.com" Owner [];
         mkOrgMember "acc-bob" "Bob" "bob@example.com" Member
                     [mkAssignment "vault-shared" true]]
        []
        [mkVaultRef "vault-shared" "Shared"]
        []
        (mkOrgQuota 2 1 2 1).

Definition aliceVault : Vault :=
  mkVault "vault-alice" "My Vault" (Some "acc-alice") None "rev-v1" "" "" "" "" 0 0.

Definition sharedVault : Vault :=
  mkVault "vault-shared" "Shared" (Some "acc-alice") (Some (mkVaultRef "org-1" "Org One"))
          "rev-v2" "" "" "" "" 0 0.

(** A pending verification for [alice@example.com]. *)
Definition aliceVerification : EmailVerification :=
  mkEmailVerification "alice@example.com" "" "abc123" "tok-alice" 0.

(** A pending verification for an address without an account. *)
Definition daveVerification : EmailVerification :=
  mkEmailVerification "dave@example.com" "" "fedcba" "tok-dave" 0.

Definition populated : Storage :=
  mkStorage {["alice@example.com" := aliceAuth; "bob@example.com" := bobAuth]}
            {["acc-alice" := alice; "acc-bob" := bob; "acc-carol" := carol]}
            ∅
            {["org-1" := org1]}
            {["vault-alice" := aliceVault; "vault-shared" := sharedVault]}
            {["alice@example.com" := aliceVerification;
              "dave@example.com" := daveVerification]}.

Definition world : World := mkWorld populated ∅ [] [] 100%nat 0%nat.

Definition aliceSession : Session :=
  mkSession "sess-a" "acc-alice" (Some [Byte.x01]) (Some phone) None 0 0.
Definition bobSession : Session :=
  mkSession "sess-b" "acc-bob" (Some [Byte.x02]) (Some laptop) None 0 0.
Definition carolSession : Session :=
  mkSession "sess-c" "acc-carol" (Some [Byte.x03]) (Some laptop) None 0 0.

Definition anonymous : Context := mkContext None None (Some laptop).
Definition asAlice : Context := mkContext (Some aliceSession) (Some alice) (Some phone).
Definition asBob : Context := mkContext (Some bobSession) (Some bob) (Some laptop).
Definition asCarol : Context := mkContext (Some carolSession) (Some carol) (Some laptop).

Definition fromPhone : Context := mkContext None None (Some phone).

(** The world once Alice's trusted phone has called [initAuth]. *)
Definition loggingIn : World :=
  snd (initAuth env fromPhone "alice@example.com" None world).

Definition clientA : bytes := [Byte.x05].
Definition clientM : bytes := [Byte.x05; Byte.x0a; Byte.x0b].

(** The vault Alice asks to have created in her organisation. *)
Definition newSharedVault : Vault :=
  mkVault "" "Second" None (Some (mkVaultRef "org-1" "Org One")) "" "kp" "ep" "acs" "data" 0 0.

Definition newAccount : Account :=
  mkAccount "" "dave@example.com" "Dave" "pk-d" "kp-d" "ep-d" "data-d" ""
            [] [] (mkAccountQuota 1 1) "" 0.

Definition newAuth : Auth :=
  mkAuth "dave@example.com" "" (Some [Byte.x0d]) "kp-d" [].

(** The same organisation with Bob as an admin, and the world storing it. *)
Definition org1WithAdmin : Org :=
  set_org_members
    [mkOrgMember "acc-alice" "Alice" "alice@example.com" Owner [];
     mkOrgMember "acc-bob" "Bob" "bob@example.com" Admin []]
    org1.

Definition worldWithAdmin : World :=
  set_storage (with_org <["org-1" := org1WithAdmin]> populated) world.

(** Bob's update making himself an owner. *)
Definition promoteBob : Org :=
  set_org_members
    [mkOrgMember "acc-alice" "Alice" "alice@example.com" Owner [];
     mkOrgMember "acc-bob" "Bob" "bob@example.com" Owner []]
    org1WithAdmin.

(** Alice's update of her organisation: Bob is dropped, Carol and Dave are
    added (one member more than the quota allows), Frank is invited and the
    shared vault is renamed. *)
Definition oversizedUpdate : Org :=
  mkOrg "org-1" "Org One" "acc-alice" "rev-o1" "pk-o" "kp-o" "ep-o" "data-o" "sp-o" "acs-o"
        [mkOrgMember "acc-alice" "Alice" "alice@example.com" Owner [];
         mkOrgMember "acc-carol" "Carol" "carol@example.com" Member [];
         mkOrgMember "acc-dave" "Dave" "dave@example.com" Member []]
        []
        [mkVaultRef "vault-shared" "Renamed"]
        [mkInvite "inv-1" "frank@example.com" false (Some "acc-alice")]
        (mkOrgQuota 2 1 2 1).

(** Alice's update of her own account, under a new name. *)
Definition renamedAlice : Account :=
  mkAccount "acc-alice" "alice@example.com" "Alicia" "pk-a" "kp-a" "ep-a" "data-a" "rev-a1"
            [] ["org-1"] (mkAccountQuota 1 1) "vault-alice" 0.

(** Alice's update of her organisation, under a new name. *)
Definition renamedOrg : Org :=
  mkOrg "org-1" "Org Uno" "acc-alice" "rev-o1" "pk-o" "kp-o" "ep-o" "data-o" "sp-o" "acs-o"
        (org_members org1) [] (org_vaults org1) [] (mkOrgQuota 2 1 2 1).

(** Alice's update of her private vault. *)
Definition refilledVault : Vault :=
  mkVault "vault-alice" "My Vault" (Some "acc-alice") None "rev-v1" "kp" "ep" "acs" "data" 0 0.

(** The same update based on an older revision. *)
Definition staleVault : Vault :=
  mkVault "vault-alice" "My Vault" (Some "acc-alice") None "rev-v0" "kp" "ep" "acs" "data" 0 0.

(** A world in which Bob, with one session, belongs to Alice's organisation
    and owns a second one, and has verified his email for a recovery. *)
Definition bobRecovering : Account :=
  mkAccount "acc-bob" "bob@example.com" "Bob" "pk-b" "kp-b" "ep-b" "data-b" "rev-b1"
            [info bobSession] ["org-1"; "org-2"] (mkAccountQuota 1 1) "vault-bob" 0.

Definition org2 : Org :=
  mkOrg "org-2" "Org Two" "acc-bob" "rev-o2" "pk-o" "kp-o" "ep-o" "data-o" "sp-o" "acs-o"
        [mkOrgMember "acc-bob" "Bob" "bob@example.com" Owner []] [] [] []
        (mkOrgQuota 2 1 2 1).

Definition bobVerification : EmailVerification :=
  mkEmailVerification "bob@example.com" "" "b0b0b0" "tok-bob" 0.

Definition recovering : World :=
  mkWorld
    (mkStorage {["alice@example.com" := aliceAuth; "bob@example.com" := bobAuth]}
               {["acc-alice" := alice; "acc-bob" := bobRecovering]}
               {["sess-b" := bobSession]}
               {["org-1" := org1; "org-2" := org2]}
               {["vault-alice" := aliceVault; "vault-shared" := sharedVault]}
               {["bob@example.com" := bobVerification]})
    ∅ [] [] 100%nat 0%nat.

Definition recoveredBob : Account :=
  mkAccount "" "bob@example.com" "Bob" "pk-b2" "kp-b2" "ep-b2" "data-b2" ""
            [] [] (mkAccountQuota 1 1) "" 0.

Definition recoveredAuth : Auth :=
  mkAuth "bob@example.com" "" (Some [Byte.x0e]) "kp-b2" [].

Definition wrongCodes : list string := ["000000"; "111111"; "222222"; "333333"; "444444"].

(** The world after five wrong codes for Alice's verification. *)
Definition afterFiveWrong : World := snd (attempts "alice@example.com" wrongCodes world).

End Sample.

(** ** Further scenarios *)

Module Scenario.

(** The first code that [Sample.env] generates, typed in upper case. *)
Definition upperCode : string := "CODE-0".

(** A request signed with Bob's session. *)
Definition bobRequest : Request :=
  mkRequest "getAccount" (Some (mkAuthRef "sess-b" "signature")) (Some Sample.laptop).

(** A request that names a session which is not stored. *)
Definition strayRequest : Request :=
  mkRequest "getAccount" (Some (mkAuthRef "sess-x" "signature")) (Some Sample.laptop).

(** Bob's context in the world where he has one session. *)
Definition asBobRecovering : Context :=
  mkContext (Some Sample.bobSession) (Some Sample.bobRecovering) (Some Sample.laptop).

(** Alice's update of her own account that replaces its email; the Auth
    record stays under the old one. *)
Definition movedAlice : Account :=
  mkAccount "acc-alice" "alice@new.example" "Alice" "pk-a" "kp-a" "ep-a" "data-a" "rev-a1"
            [] ["org-1"] (mkAccountQuota 1 1) "vault-alice" 0.

(** Alice after the update that renamed her, the world that update leaves,
    and a further update of hers based on the revision the server gave. *)
Definition aliceRenamed : Account :=
  mkAccount "acc-alice" "alice@example.com" "Alicia" "pk-a" "kp-a" "ep-a" "data-a" "id-0"
            [] ["org-1"] (mkAccountQuota 1 1) "vault-alice" 100.

Definition worldRenamed : World :=
  snd (updateAccount Sample.env Sample.asAlice Sample.renamedAlice Sample.world).

Definition asAliceRenamed : Context :=
  mkContext (Some Sample.aliceSession) (Some aliceRenamed) (Some Sample.phone).

Definition secondUpdate : Account :=
  mkAccount "acc-alice" "alice@example.com" "Alicia" "pk-a" "kp-a" "ep-a" "data-a2" "id-0"
            [] ["org-1"] (mkAccountQuota 1 1) "vault-alice" 0.

(** An update of the shared vault based on an older revision. *)
Definition staleShared : Vault :=
  mkVault "vault-shared" "Shared" (Some "acc-alice") (Some (mkVaultRef "org-1" "Org One"))
          "rev-v0" "kp" "ep" "acs" "data" 0 0.

(** Alice's organisation with a pending invite for Carol, and the world
    that stores it. *)
Definition carolInvite : Invite :=
  mkInvite "inv-1" "carol@example.com" false (Some "alice@example.com").

Definition orgInviting : Org := set_org_invites [carolInvite] Sample.org1.

Definition inviting : World :=
  set_storage (with_org <["org-1" := orgInviting]> Sample.populated) Sample.world.

(** The invite as Carol returns it. *)
Definition acceptedInvite : Invite :=
  mkInvite "inv-1" "carol@example.com" true (Some "alice@example.com").

(** Dave lists Alice's organisation, which has no member entry for him. *)
Definition dave : Account :=
  mkAccount "acc-dave" "dave@example.com" "Dave" "pk-d" "kp-d" "ep-d" "data-d" "rev-d1"
            [] ["org-1"] (mkAccountQuota 1 1) "vault-dave" 0.

Definition daveSession : Session :=
  mkSession "sess-d" "acc-dave" (Some [Byte.x04]) (Some Sample.laptop) None 0 0.

Definition asDave : Context :=
  mkContext (Some daveSession) (Some dave) (Some Sample.laptop).

Definition renamedDave : Account :=
  mkAccount "acc-dave" "dave@example.com" "David" "pk-d" "kp-d" "ep-d" "data-d" "rev-d1"
            [] ["org-1"] (mkAccountQuota 1 1) "vault-dave" 0.

(** The world in which Dave's account and a session of his are stored, and a
    request signed with that session. *)
Definition daveWorld : World :=
  set_storage (with_session <["sess-d" := daveSession]>
                 (with_account <["acc-dave" := dave]> Sample.populated))
              Sample.world.

Definition daveRequest : Request :=
  mkRequest "updateAccount" (Some (mkAuthRef "sess-d" "signature")) (Some Sample.laptop).

(** Alice's update of her organisation that drops Bob from the members. *)
Definition withoutBob : Org :=
  set_org_members [mkOrgMember "acc-alice" "Alice" "alice@example.com" Owner []] Sample.org1.

(** A billing provider that accepts every update and offers one plan. *)
Definition provider : BillingProvider :=
  mkBillingProvider (fun _ => ret tt) (ret ["free"]).

End Scenario.

(** * Properties *)

(** ** Running the monad *)

Lemma bind_ok {A B} (m : M A) (k : A -> M B) w a w' :
  m w = (Ok a, w') -> bind m k w = k a w'.
Proof. intros H. unfold bind. now rewrite H. Qed.

Lemma bind_throw {A B} (m : M A) (k : A -> M B) w e w' :
  m w = (Throw e, w') -> bind m k w = (Throw e, w').
Proof. intros H. unfold bind. now rewrite H. Qed.

Lemma storage_get_some {A} (proj : Storage -> gmap string A) id a w :
  proj (storage w) !! id = Some a -> storage_get proj id w = (Ok a, w).
Proof. intros H. unfold storage_get. now rewrite H. Qed.

Lemma storage_get_none {A} (proj : Storage -> gmap string A) id w :
  proj (storage w) !! id = None -> storage_get proj id w = (Throw (Err NOT_FOUND), w).
Proof. intros H. unfold storage_get. now rewrite H. Qed.

Lemma eqb_false_of_neq (a b : string) : a <> b -> String.eqb a b = false.
Proof. intros H. now apply String.eqb_neq. Qed.

Lemma eqb_true_of_eq (a b : string) : a = b -> String.eqb a b = true.
Proof. intros H. now apply String.eqb_eq. Qed.

(** ** Email verification *)

Section EmailVerificationFacts.

Variables (w : World) (email : string) (ev : EmailVerification).
Hypothesis Hev : st_ev (storage w) !! email = Some ev.

Lemma checkCode_match code :
  ev_code ev = toLowerCase code ->
  _checkEmailVerificationCode email code w = (Ok (ev_token ev), w).
Proof.
  intros Hc. unfold _checkEmailVerificationCode, bind, try_catch, get_ev.
  rewrite (storage_get_some _ _ _ _ Hev).
  rewrite (eqb_true_of_eq _ _ Hc). reflexivity.
Qed.

Lemma checkCode_mismatch_within code :
  ev_code ev <> toLowerCase code -> (ev_tries ev < 5)%nat ->
  _checkEmailVerificationCode email code w
  = (Throw (Err EMAIL_VERIFICATION_FAILED),
     set_storage (with_ev <[ev_email ev := set_ev_tries (S (ev_tries ev)) ev]> (storage w)) w).
Proof.
  intros Hc Ht. unfold _checkEmailVerificationCode, bind, try_catch, get_ev.
  rewrite (storage_get_some _ _ _ _ Hev).
  rewrite (eqb_false_of_neq _ _ Hc). cbn [negb set_ev_tries ev_tries].
  destruct (Nat.ltb_spec 5 (S (ev_tries ev))) as [Hlt | _]; [lia |].
  reflexivity.
Qed.

Lemma checkCode_mismatch_beyond code :
  ev_code ev <> toLowerCase code -> (5 <= ev_tries ev)%nat ->
  _checkEmailVerificationCode email code w
  = (Throw (Err EMAIL_VERIFICATION_TRIES_EXCEEDED),
     set_storage (with_ev (delete (ev_email ev)) (storage w)) w).
Proof.
  intros Hc Ht. unfold _checkEmailVerificationCode, bind, try_catch, get_ev.
  rewrite (storage_get_some _ _ _ _ Hev).
  rewrite (eqb_false_of_neq _ _ Hc). cbn [negb set_ev_tries ev_tries].
  destruct (Nat.ltb_spec 5 (S (ev_tries ev))) as [_ | Hge]; [| lia].
  reflexivity.
Qed.

End EmailVerificationFacts.

Lemma checkCode_missing w email code :
  st_ev (storage w) !! email = None ->
  _checkEmailVerificationCode email code w
  = (Throw (Err EMAIL_VERIFICATION_REQUIRED), w).
Proof.
  intros Hn. unfold _checkEmailVerificationCode, bind, try_catch, get_ev.
  now rewrite (storage_get_none _ _ _ Hn).
Qed.

Lemma attempts_wrong_within email codes :
  forall w ev,
    st_ev (storage w) !! email = Some ev -> ev_email ev = email ->
    Forall (fun code => ev_code ev <> toLowerCase code) codes ->
    (ev_tries ev + length codes <= 5)%nat ->
    fst (attempts email codes w)
    = map (fun _ => Throw (Err EMAIL_VERIFICATION_FAILED)) codes
    /\ st_ev (storage (snd (attempts email codes w))) !! email
       = Some (set_ev_tries (ev_tries ev + length codes) ev).
Proof.
  induction codes as [| code rest IH]; intros w ev Hev Hkey Hwrong Hlen.
  - cbn. split; [reflexivity |]. rewrite Hev, Nat.add_0_r. now destruct ev.
  - inversion Hwrong as [| ? ? Hc Hrest]; subst. cbn [length] in Hlen.
    cbn [attempts]. unfold completeEmailVerification.
    rewrite !(checkCode_mismatch_within w _ ev Hev code Hc) by lia.
    cbn [fst snd map].
    destruct (IH (set_storage (with_ev <[ev_email ev := set_ev_tries (S (ev_tries ev)) ev]>
                                       (storage w)) w)
                 (set_ev_tries (S (ev_tries ev)) ev)) as [IH1 IH2].
    + cbn. apply lookup_insert_eq.
    + reflexivity.
    + exact Hrest.
    + cbn. lia.
    + split.
      * now rewrite IH1.
      * rewrite IH2. unfold set_ev_tries. cbn. do 2 f_equal. lia.
Qed.

(** C8 (amended).  For an email with a stored verification record: a wrong
    code increments [tries] and fails EMAIL_VERIFICATION_FAILED as long as
    the incremented count is at most 5, so that up to five wrong codes in a
    row leave the record in place; the wrong code that takes [tries] past 5
    deletes the record and fails EMAIL_VERIFICATION_TRIES_EXCEEDED, after
    which every attempt, the correct code included, fails
    EMAIL_VERIFICATION_REQUIRED; a correct code submitted while the record
    exists returns the stored token and leaves the record as it is. *)
Theorem completeEmailVerification_tries (w : World) (email : string) (ev : EmailVerification) :
  st_ev (storage w) !! email = Some ev ->
  ev_email ev = email ->
  (forall code, ev_code ev <> toLowerCase code -> (ev_tries ev < 5)%nat ->
     completeEmailVerification email code w
     = (Throw (Err EMAIL_VERIFICATION_FAILED),
        set_storage (with_ev <[email := set_ev_tries (S (ev_tries ev)) ev]> (storage w)) w))
  /\ (forall codes, Forall (fun code => ev_code ev <> toLowerCase code) codes ->
        (ev_tries ev + length codes <= 5)%nat ->
        fst (attempts email codes w)
        = map (fun _ => Throw (Err EMAIL_VERIFICATION_FAILED)) codes
        /\ st_ev (storage (snd (attempts email codes w))) !! email
           = Some (set_ev_tries (ev_tries ev + length codes) ev))
  /\ (forall code, ev_code ev <> toLowerCase code -> (5 <= ev_tries ev)%nat ->
        let w' := set_storage (with_ev (delete email) (storage w)) w in
        completeEmailVerification email code w
        = (Throw (Err EMAIL_VERIFICATION_TRIES_EXCEEDED), w')
        /\ st_ev (storage w') !! email = None
        /\ forall code', completeEmailVerification email code' w'
                         = (Throw (Err EMAIL_VERIFICATION_REQUIRED), w'))
  /\ (forall code, ev_code ev = toLowerCase code ->
        completeEmailVerification email code w = (Ok (ev_token ev), w)).
Proof.
  intros Hev Hkey. unfold completeEmailVerification.
  split; [| split; [| split]].
  - intros code Hc Ht. rewrite <- Hkey at 2.
    now apply checkCode_mismatch_within.
  - intros codes Hwrong Hlen. now apply attempts_wrong_within.
  - intros code Hc Ht. cbv zeta. split; [| split].
    + rewrite <- Hkey at 2. now apply checkCode_mismatch_beyond.
    + cbn. apply lookup_delete_eq.
    + intros code'. apply checkCode_missing. cbn. apply lookup_delete_eq.
  - intros code Hc. now apply checkCode_match.
Qed.

Lemma completeEmailVerification_tries_witness :
  completeEmailVerification "alice@example.com" "ABC123" Sample.world
  = (Ok "tok-alice", Sample.world)
  /\ fst (attempts "alice@example.com" Sample.wrongCodes Sample.world)
     = map (fun _ => Throw (Err EMAIL_VERIFICATION_FAILED)) Sample.wrongCodes
  /\ fst (completeEmailVerification "alice@example.com" "555555" Sample.afterFiveWrong)
     = Throw (Err EMAIL_VERIFICATION_TRIES_EXCEEDED).
Proof.
  destruct (completeEmailVerification_tries Sample.world "alice@example.com"
              Sample.aliceVerification eq_refl eq_refl) as (_ & Hrun & _ & Hok).
  destruct (completeEmailVerification_tries Sample.afterFiveWrong "alice@example.com"
              (set_ev_tries 5 Sample.aliceVerification) eq_refl eq_refl)
    as (_ & _ & Hlast & _).
  split; [| split].
  - apply (Hok "ABC123"). reflexivity.
  - apply (Hrun Sample.wrongCodes).
    + repeat constructor; discriminate.
    + vm_compute. lia.
  - destruct (Hlast "555555") as [E _].
    + discriminate.
    + vm_compute. lia.
    + now rewrite E.
Defined.

(** C8 as stated fails: after five wrong codes in a row on a fresh record
    the record is still stored (with [tries] = 5), the correct code then
    returns the token instead of failing
    EMAIL_VERIFICATION_TRIES_EXCEEDED, and returning the token does not
    delete the record. *)
Lemma five_wrong_codes_keep_the_record :
  fst (attempts "alice@example.com" Sample.wrongCodes Sample.world)
  = [Throw (Err EMAIL_VERIFICATION_FAILED); Throw (Err EMAIL_VERIFICATION_FAILED);
     Throw (Err EMAIL_VERIFICATION_FAILED); Throw (Err EMAIL_VERIFICATION_FAILED);
     Throw (Err EMAIL_VERIFICATION_FAILED)]
  /\ st_ev (storage Sample.afterFiveWrong) !! "alice@example.com"
     = Some (set_ev_tries 5 Sample.aliceVerification)
  /\ completeEmailVerification "alice@example.com" "abc123" Sample.afterFiveWrong
     = (Ok "tok-alice", Sample.afterFiveWrong)
  /\ fst (attempts "alice@example.com" ["555555"; "abc123"] Sample.afterFiveWrong)
     = [Throw (Err EMAIL_VERIFICATION_TRIES_EXCEEDED);
        Throw (Err EMAIL_VERIFICATION_REQUIRED)].
Proof. vm_compute. repeat split; reflexivity. Qed.

(** ** initAuth *)

Section InitAuthFacts.

Variable env : Env.

Lemma try_get_auth w email :
  try_catch (a <~ get_auth email ;; ret (Some a))
            (fun e => if isNotFound e then ret None else throw e) w
  = (Ok (st_auth (storage w) !! email), w).
Proof.
  unfold try_catch, bind, get_auth, storage_get, ret.
  now destruct (st_auth (storage w) !! email).
Qed.

(** Without a token an untrusted device is turned away. *)
Lemma initAuth_token_required ctx email verify w :
  deviceTrusted (st_auth (storage w) !! email) ctx = false ->
  truthy verify = false ->
  initAuth env ctx email verify w = (Throw (Err EMAIL_VERIFICATION_REQUIRED), w).
Proof.
  intros Hd Hv. unfold initAuth.
  rewrite (bind_ok _ _ _ _ _ (try_get_auth w email)). rewrite Hd. cbn [negb].
  destruct verify as [token |]; [rewrite Hv |]; reflexivity.
Qed.

(** With a token, whatever it is, the outcome of the token check is not
    looked at: an unknown email is reported as such. *)
Lemma initAuth_unknown_email ctx email token w :
  st_auth (storage w) !! email = None ->
  token <> "" ->
  fst (initAuth env ctx email (Some token) w) = Throw (Err NOT_FOUND).
Proof.
  intros Hn Ht. unfold initAuth.
  rewrite (bind_ok _ _ _ _ _ (try_get_auth w email)). rewrite Hn.
  cbn [deviceTrusted negb truthy]. rewrite (eqb_false_of_neq _ _ Ht). cbn [negb].
  unfold bind, floating, throw. reflexivity.
Qed.

(** The token check touches nothing but the verification records. *)
Lemma checkToken_frame email token w :
  exists evs,
    snd (_checkEmailVerificationToken email token w)
    = set_storage (with_ev (fun _ => evs) (storage w)) w.
Proof.
  unfold _checkEmailVerificationToken, bind, try_catch, get_ev, storage_get, throw.
  destruct w as [[a b c d e evs] p o at_ cl en]. cbn.
  destruct (evs !! email) as [ev |]; cbn.
  - destruct (String.eqb (ev_token ev) token); cbn; eexists; reflexivity.
  - eexists; reflexivity.
Qed.

(** With a token, whatever it is, a known email gets its SRP exchange. *)
Lemma initAuth_known_email ctx email token w auth v :
  st_auth (storage w) !! email = Some auth ->
  auth_verifier auth = Some v ->
  token <> "" ->
  deviceTrusted (Some auth) ctx = false ->
  exists w',
    initAuth env ctx email (Some token) w
    = (Ok (mkInitAuthResponse auth (srp_public env v (entropy w))), w')
    /\ pendingAuths w' !! auth_account auth
       = Some (mkSRP v (entropy w) (srp_public env v (entropy w)) None None None).
Proof.
  intros Ha Hv Ht Hd. unfold initAuth.
  rewrite (bind_ok _ _ _ _ _ (try_get_auth w email)). rewrite Ha, Hd, Hv.
  cbn [negb truthy]. rewrite (eqb_false_of_neq _ _ Ht). cbn [negb].
  unfold bind, floating, srp_initialize, draw, get_world, put_pendingAuths, ret, bind.
  cbn. destruct (checkToken_frame email token w) as [evs ->]. cbn.
  eexists. split; [reflexivity |]. cbn. apply lookup_insert_eq.
Qed.

End InitAuthFacts.

(** C1.  An untrusted device calls [initAuth] with a token that does not
    match the stored verification record: the token check on its own fails
    EMAIL_VERIFICATION_FAILED, yet [initAuth] goes on, answers NOT_FOUND
    for an email without an Auth record and starts the SRP exchange for an
    email that has one. *)
Theorem initAuth_ignores_failed_verification :
  fst (_checkEmailVerificationToken "dave@example.com" "wrong" Sample.world)
  = Throw (Err EMAIL_VERIFICATION_FAILED)
  /\ st_auth (storage Sample.world) !! "dave@example.com" = None
  /\ fst (initAuth Sample.env Sample.anonymous "dave@example.com" (Some "wrong") Sample.world)
     = Throw (Err NOT_FOUND)
  /\ fst (_checkEmailVerificationToken "alice@example.com" "wrong" Sample.world)
     = Throw (Err EMAIL_VERIFICATION_FAILED)
  /\ deviceTrusted (st_auth (storage Sample.world) !! "alice@example.com") Sample.anonymous
     = false
  /\ fst (initAuth Sample.env Sample.anonymous "alice@example.com" (Some "wrong") Sample.world)
     = Ok (mkInitAuthResponse Sample.aliceAuth
             (srp_public Sample.env [Byte.x0a; Byte.x0b] 0%nat)).
Proof. vm_compute. repeat split; reflexivity. Qed.

(** ** Hex encoding *)

Lemma byteOfHex_hexDigit (b : Byte.byte) :
  byteOfHex (hexDigit (Byte.to_N b / 16)) (hexDigit (Byte.to_N b mod 16)) = Some b.
Proof. destruct b; reflexivity. Qed.

Lemma bytesToHex_inj (a b : bytes) : bytesToHex a = bytesToHex b -> a = b.
Proof.
  revert b. induction a as [| x a IH]; intros [| y b] H; cbn in H; try discriminate.
  - reflexivity.
  - injection H as H1 H2 H3.
    assert (E : Some x = Some y).
    { rewrite <- (byteOfHex_hexDigit x), <- (byteOfHex_hexDigit y). now rewrite H1, H2. }
    injection E as ->. f_equal. now apply IH.
Qed.

Lemma hex_eqb_true (a b : bytes) :
  String.eqb (bytesToHex a) (bytesToHex b) = true <-> a = b.
Proof.
  rewrite String.eqb_eq. split; [apply bytesToHex_inj | now intros ->].
Qed.

(** ** createSession *)

Section CreateSessionFacts.

Variable env : Env.
Variables (ctx : Context) (account : string) (A M1 : bytes).

Lemma createSession_no_pending w :
  pendingAuths w !! account = None ->
  createSession env ctx account A M1 w = (Throw (Err INVALID_CREDENTIALS), w).
Proof.
  intros H. unfold createSession, bind, get_world. now rewrite H.
Qed.

Lemma createSession_bad_proof w srp :
  pendingAuths w !! account = Some srp ->
  M1 <> expectedProof env srp A ->
  fst (createSession env ctx account A M1 w) = Throw (Err INVALID_CREDENTIALS).
Proof.
  intros H Hne. unfold createSession, bind, get_world, put_pendingAuths. rewrite H. cbn.
  destruct (String.eqb (bytesToHex M1) _) eqn:E; [| reflexivity].
  apply hex_eqb_true in E. contradiction.
Qed.

(** What a successful [createSession] leaves behind. *)
Lemma createSession_good_proof w srp acc auth :
  pendingAuths w !! account = Some srp ->
  M1 = expectedProof env srp A ->
  st_account (storage w) !! account = Some acc ->
  st_auth (storage w) !! acc_email acc = Some auth ->
  let id := uuid_gen env (entropy w) in
  let session :=
    mkSession id account (Some (sessionKey env srp A)) (ctx_device ctx) None 0%nat 0%nat in
  exists w',
    createSession env ctx account A M1 w = (Ok (set_sess_key None session), w')
    /\ pendingAuths w' !! account = None
    /\ st_session (storage w') !! id = Some session
    /\ st_account (storage w') !! acc_id acc
       = Some (set_acc_sessions (acc_sessions acc ++ [session]) acc).
Proof.
  intros H HM Hacc Hauth. cbv zeta.
  unfold createSession, bind, get_world, put_pendingAuths. rewrite H. cbn.
  assert (E : String.eqb (bytesToHex M1) (bytesToHex (expectedProof env srp A)) = true)
    by now apply hex_eqb_true.
  rewrite E. cbn.
  unfold get_account, get_auth, storage_get. cbn. rewrite Hacc. cbn.
  rewrite Hauth. cbn.
  eexists. split; [reflexivity |]. cbn. split; [apply lookup_delete_eq |].
  split; apply lookup_insert_eq.
Qed.

(** A call that succeeds has found the exchange, the proof, the account and
    the Auth record of the account's email. *)
Lemma createSession_ok_inv w s :
  fst (createSession env ctx account A M1 w) = Ok s ->
  exists srp acc auth,
    pendingAuths w !! account = Some srp
    /\ M1 = expectedProof env srp A
    /\ st_account (storage w) !! account = Some acc
    /\ st_auth (storage w) !! acc_email acc = Some auth.
Proof.
  intros Hs. destruct (pendingAuths w !! account) as [srp |] eqn:Hp.
  - destruct (List.list_eq_dec Byte.byte_eq_dec M1 (expectedProof env srp A)) as [HM | Hne].
    + revert Hs. unfold createSession, bind, get_world, put_pendingAuths. rewrite Hp. cbn.
      assert (E : String.eqb (bytesToHex M1) (bytesToHex (expectedProof env srp A)) = true)
        by now apply hex_eqb_true.
      rewrite E. cbn. unfold get_account, get_auth, storage_get. cbn.
      destruct (st_account (storage w) !! account) as [acc |] eqn:Hacc; [| discriminate].
      cbn.
      destruct (st_auth (storage w) !! acc_email acc) as [auth |] eqn:Hauth;
        [| discriminate].
      intros _. now exists srp, acc, auth.
    + rewrite (createSession_bad_proof w srp Hp Hne) in Hs. discriminate.
  - rewrite createSession_no_pending in Hs by exact Hp. discriminate.
Qed.

End CreateSessionFacts.

(** C2 (amended).  [createSession] succeeds exactly when a pending SRP exchange
    exists for the account id, the supplied proof equals the proof the
    exchange derives, and the account is stored together with the Auth
    record of its email.  Without a pending exchange, or with any other
    proof, it fails INVALID_CREDENTIALS.  The session returned on success
    carries no key, and success removes the pending exchange, so that any
    further call for the account fails INVALID_CREDENTIALS as well. *)
Theorem createSession_succeeds_iff_proof_matches
    (env : Env) (ctx : Context) (account : string) (A M1 : bytes) (w : World) :
  let r := createSession env ctx account A M1 w in
  let matching := exists srp, pendingAuths w !! account = Some srp
                              /\ M1 = expectedProof env srp A in
  let provisioned := exists acc auth, st_account (storage w) !! account = Some acc
                                      /\ st_auth (storage w) !! acc_email acc = Some auth in
  ((exists s, fst r = Ok s) <-> matching /\ provisioned)
  /\ (~ matching -> fst r = Throw (Err INVALID_CREDENTIALS))
  /\ (pendingAuths w !! account = None -> r = (Throw (Err INVALID_CREDENTIALS), w))
  /\ (forall s, fst r = Ok s ->
        sess_key s = None
        /\ pendingAuths (snd r) !! account = None
        /\ forall ctx' A' M', createSession env ctx' account A' M' (snd r)
                              = (Throw (Err INVALID_CREDENTIALS), snd r)).
Proof.
  intros r matching provisioned.
  assert (Hfail : ~ matching -> fst r = Throw (Err INVALID_CREDENTIALS)).
  { intros Hn. subst r. destruct (pendingAuths w !! account) as [srp |] eqn:Hp.
    - apply (createSession_bad_proof env ctx account A M1 w srp Hp).
      intros HM. apply Hn. now exists srp.
    - now rewrite createSession_no_pending. }
  assert (Hgood : matching -> provisioned ->
            exists s, fst r = Ok s /\ sess_key s = None
                      /\ pendingAuths (snd r) !! account = None).
  { intros (srp & Hp & HM) (acc & auth & Hacc & Hauth). subst r.
    destruct (createSession_good_proof env ctx account A M1 w srp acc auth Hp HM Hacc Hauth)
      as (w' & E & Hdel & _).
    rewrite E. eexists. split; [reflexivity |]. split; [reflexivity | exact Hdel]. }
  assert (Honly : forall s, fst r = Ok s -> matching /\ provisioned).
  { intros s Hs. subst r.
    destruct (createSession_ok_inv env ctx account A M1 w s Hs)
      as (srp & acc & auth & Hp & HM & Hacc & Hauth).
    split; [now exists srp | now exists acc, auth]. }
  split; [| split; [| split]].
  - split; [intros [s Hs]; now apply (Honly s) |].
    intros [Hm Hprov]. destruct (Hgood Hm Hprov) as (s & Hs & _). now exists s.
  - exact Hfail.
  - intros Hp. subst r. now apply createSession_no_pending.
  - intros s Hs. destruct (Honly s Hs) as [Hm Hprov].
    destruct (Hgood Hm Hprov) as (s' & Hs' & Hk & Hdel).
    rewrite Hs in Hs'. injection Hs' as ->.
    split; [exact Hk |]. split; [exact Hdel |].
    intros ctx' A' M'. now apply createSession_no_pending.
Qed.

Lemma createSession_succeeds_iff_proof_matches_witness :
  (exists s, fst (createSession Sample.env Sample.fromPhone "acc-alice" Sample.clientA
                                Sample.clientM Sample.loggingIn) = Ok s)
  /\ fst (createSession Sample.env Sample.fromPhone "acc-alice" Sample.clientA
                        [Byte.x00] Sample.loggingIn) = Throw (Err INVALID_CREDENTIALS).
Proof.
  split.
  - apply (createSession_succeeds_iff_proof_matches Sample.env Sample.fromPhone "acc-alice"
             Sample.clientA Sample.clientM Sample.loggingIn).
    split.
    + eexists. split; reflexivity.
    + exists Sample.alice, Sample.aliceAuth. split; reflexivity.
  - apply (createSession_succeeds_iff_proof_matches Sample.env Sample.fromPhone "acc-alice"
             Sample.clientA [Byte.x00] Sample.loggingIn).
    intros (srp & Hp & HM). vm_compute in Hp. injection Hp as <-. discriminate HM.
Defined.

(** C2 as stated fails: Alice replaces the email
    of her account, which leaves her Auth record under the old address, and
    logs in again from her trusted phone.  The exchange is pending and the
    proof is the one it derives, yet [createSession] fails NOT_FOUND. *)
Lemma createSession_right_proof_not_found :
  let w1 := snd (updateAccount Sample.env Sample.asAlice Scenario.movedAlice Sample.world) in
  let w2 := snd (initAuth Sample.env Sample.fromPhone "alice@example.com" None w1) in
  (exists srp, pendingAuths w2 !! "acc-alice" = Some srp
               /\ Sample.clientM = expectedProof Sample.env srp Sample.clientA)
  /\ fst (createSession Sample.env Sample.fromPhone "acc-alice" Sample.clientA
                        Sample.clientM w2) = Throw (Err NOT_FOUND)
  /\ ~ (exists s, fst (createSession Sample.env Sample.fromPhone "acc-alice" Sample.clientA
                                     Sample.clientM w2) = Ok s).
Proof.
  cbv zeta.
  assert (E : fst (createSession Sample.env Sample.fromPhone "acc-alice" Sample.clientA
                                 Sample.clientM
                                 (snd (initAuth Sample.env Sample.fromPhone "alice@example.com"
                                         None
                                         (snd (updateAccount Sample.env Sample.asAlice
                                                 Scenario.movedAlice Sample.world)))))
              = Throw (Err NOT_FOUND))
    by (vm_compute; reflexivity).
  split; [| split].
  - eexists. split; vm_compute; reflexivity.
  - exact E.
  - intros [s Hs]. rewrite E in Hs. discriminate.
Qed.


(** ** Session summaries on accounts *)

Lemma upsertSession_summaries (s : Session) (l : list Session) :
  sess_key s = None ->
  Forall (fun x => sess_key x = None) l ->
  Forall (fun x => sess_key x = None) (upsertSession s l).
Proof.
  intros Hs. induction 1 as [| x l Hx Hl IH]; cbn.
  - now constructor.
  - destruct (String.eqb (sess_id x) (sess_id s)); now constructor.
Qed.

(** The per-request authentication lists [session.info], so it keeps the
    stored accounts free of keys. *)
Lemma authenticate_keeps_summaries (env : Env) (req : Request) (ctx : Context) (w : World) :
  summariesOnly w -> summariesOnly (snd (_authenticate env req ctx w)).
Proof.
  intros Hinv. unfold _authenticate.
  destruct (req_auth req) as [a |]; [| exact Hinv].
  unfold bind, try_catch, get_session, get_account, storage_get, now, throw, ret.
  destruct (st_session (storage w) !! ar_session a) as [session |]; [| exact Hinv].
  cbn. destruct (match sess_expires session with Some _ => _ | None => _ end); [exact Hinv |].
  destruct (session_verify env session req); [| exact Hinv]. cbn.
  destruct (st_account (storage w) !! sess_account session) as [account |] eqn:Hacc;
    [| exact Hinv].
  cbn. intros id acc. cbn. destruct (decide (acc_id account = id)) as [<- | Hne].
  - rewrite lookup_insert_eq. intros [= <-]. cbn.
    apply upsertSession_summaries; [reflexivity |]. now apply (Hinv _ _ Hacc).
  - rewrite lookup_insert_ne by exact Hne. apply Hinv.
Qed.

(** C3.  Before Alice logs in no stored account lists a session key; the
    successful [createSession] stores her account with the new session, key
    included, in its [sessions] list, although the session it returns has
    the key removed. *)
Theorem createSession_stores_key_on_account :
  summariesOnly Sample.loggingIn
  /\ let r := createSession Sample.env Sample.fromPhone "acc-alice" Sample.clientA
                            Sample.clientM Sample.loggingIn in
     let stored := mkSession "id-1" "acc-alice" (Some [Byte.x0a; Byte.x0b; Byte.x05])
                             (Some Sample.phone) None 0 0 in
     fst r = Ok (set_sess_key None stored)
     /\ st_account (storage (snd r)) !! "acc-alice"
        = Some (set_acc_sessions [stored] Sample.alice)
     /\ ~ summariesOnly (snd r).
Proof.
  split.
  - intros id a H.
    assert (E : st_account (storage Sample.loggingIn) = st_account Sample.populated)
      by (vm_compute; reflexivity).
    rewrite E in H. cbn in H.
    apply lookup_insert_Some in H as [[_ <-] | [_ H]]; [constructor |].
    apply lookup_insert_Some in H as [[_ <-] | [_ H]]; [constructor |].
    apply lookup_singleton_Some in H as [_ <-]. constructor.
  - cbv zeta. split; [vm_compute; reflexivity |]. split; [vm_compute; reflexivity |].
    intros Hinv. specialize (Hinv "acc-alice" _ ltac:(vm_compute; reflexivity)).
    inversion Hinv as [| ? ? Hk _]. discriminate Hk.
Qed.

(** ** Access to vaults and attachments *)

Section AccessFacts.

Variable env : Env.
Variables (ctx : Context) (session : Session) (account : Account).
Hypothesis Hsession : ctx_session ctx = Some session.
Hypothesis Haccount : ctx_account ctx = Some account.

Lemma requireAuth_ok w : _requireAuth ctx w = (Ok (account, session), w).
Proof. unfold _requireAuth. now rewrite Hsession, Haccount. Qed.

Lemma readDenied_readAllowed org vault :
  readDenied env org vault account = negb (readAllowed env org vault account).
Proof.
  unfold readDenied, readAllowed, ownsVault.
  destruct org; [reflexivity |]. now destruct (vault_owner vault).
Qed.

Variables (w : World) (vaultId : string) (vault : Vault) (org : option Org).
Hypothesis Hvault : st_vault (storage w) !! vaultId = Some vault.
Hypothesis Horg : orgOf vault w = (Ok org, w).

Lemma createAttachment_denied att :
  att_vault att = vaultId ->
  writeAllowed env org vault account = false ->
  createAttachment env ctx att w = (Throw (Err INSUFFICIENT_PERMISSIONS), w).
Proof.
  intros <- Hw. unfold createAttachment.
  rewrite (bind_ok _ _ _ _ _ (requireAuth_ok w)). cbn [fst].
  rewrite (bind_ok _ _ _ _ _ (storage_get_some st_vault _ _ _ Hvault)).
  rewrite (bind_ok _ _ _ _ _ Horg). now rewrite Hw.
Qed.

Lemma getAttachment_denied id :
  readAllowed env org vault account = false ->
  getAttachment env ctx id vaultId w = (Throw (Err INSUFFICIENT_PERMISSIONS), w).
Proof.
  intros Hr. unfold getAttachment.
  rewrite (bind_ok _ _ _ _ _ (requireAuth_ok w)). cbn [fst].
  rewrite (bind_ok _ _ _ _ _ (storage_get_some st_vault _ _ _ Hvault)).
  rewrite (bind_ok _ _ _ _ _ Horg). now rewrite Hr.
Qed.

Lemma deleteAttachment_denied id :
  writeAllowed env org vault account = false ->
  deleteAttachment env ctx vaultId id w = (Throw (Err INSUFFICIENT_PERMISSIONS), w).
Proof.
  intros Hw. unfold deleteAttachment.
  rewrite (bind_ok _ _ _ _ _ (requireAuth_ok w)). cbn [fst].
  rewrite (bind_ok _ _ _ _ _ (storage_get_some st_vault _ _ _ Hvault)).
  rewrite (bind_ok _ _ _ _ _ Horg). now rewrite Hw.
Qed.

Lemma getVault_denied :
  readAllowed env org vault account = false ->
  getVault env ctx vaultId w = (Throw (Err NOT_FOUND), w).
Proof.
  intros Hr. unfold getVault.
  rewrite (bind_ok _ _ _ _ _ (requireAuth_ok w)). cbn [fst].
  rewrite (bind_ok _ _ _ _ _ (storage_get_some st_vault _ _ _ Hvault)).
  rewrite (bind_ok _ _ _ _ _ Horg). now rewrite readDenied_readAllowed, Hr.
Qed.

Lemma getOrg_denied id o :
  st_org (storage w) !! id = Some o ->
  org_owner o <> acc_id account ->
  isMember o (acc_id account) = false ->
  getOrg ctx id w = (Throw (Err NOT_FOUND), w).
Proof.
  intros Ho Hown Hmem. unfold getOrg.
  rewrite (bind_ok _ _ _ _ _ (requireAuth_ok w)). cbn [fst].
  rewrite (bind_ok _ _ _ _ _ (storage_get_some st_org _ _ _ Ho)).
  now rewrite (eqb_false_of_neq _ _ Hown), Hmem.
Qed.

End AccessFacts.

(** C10.  An authenticated account addresses a stored vault (whose
    organisation, if it has one, is stored too).  Without the write
    capability on it, [createAttachment] and [deleteAttachment] fail
    INSUFFICIENT_PERMISSIONS; without the read capability, [getAttachment]
    fails INSUFFICIENT_PERMISSIONS, whereas [getVault] on the same vault
    fails NOT_FOUND, as [getOrg] does for an organisation the account
    neither owns nor belongs to.  None of these calls changes the world. *)
Theorem attachment_calls_fail_insufficient_permissions
    (env : Env) (ctx : Context) (session : Session) (account : Account)
    (w : World) (vaultId : string) (vault : Vault) (org : option Org) :
  ctx_session ctx = Some session ->
  ctx_account ctx = Some account ->
  st_vault (storage w) !! vaultId = Some vault ->
  orgOf vault w = (Ok org, w) ->
  (writeAllowed env org vault account = false ->
     (forall att, att_vault att = vaultId ->
        createAttachment env ctx att w = (Throw (Err INSUFFICIENT_PERMISSIONS), w))
     /\ (forall id,
           deleteAttachment env ctx vaultId id w = (Throw (Err INSUFFICIENT_PERMISSIONS), w)))
  /\ (readAllowed env org vault account = false ->
        (forall id,
           getAttachment env ctx id vaultId w = (Throw (Err INSUFFICIENT_PERMISSIONS), w))
        /\ getVault env ctx vaultId w = (Throw (Err NOT_FOUND), w))
  /\ (forall id o,
        st_org (storage w) !! id = Some o ->
        org_owner o <> acc_id account ->
        isMember o (acc_id account) = false ->
        getOrg ctx id w = (Throw (Err NOT_FOUND), w)).
Proof.
  intros Hs Ha Hv Ho. split; [| split].
  - intros Hw. split.
    + intros att Hatt. now apply (createAttachment_denied env ctx session account Hs Ha
                                    w vaultId vault org).
    + intros id. now apply (deleteAttachment_denied env ctx session account Hs Ha
                              w vaultId vault org).
  - intros Hr. split.
    + intros id. now apply (getAttachment_denied env ctx session account Hs Ha
                              w vaultId vault org).
    + now apply (getVault_denied env ctx session account Hs Ha w vaultId vault org).
  - intros id o. now apply (getOrg_denied ctx session account Hs Ha).
Qed.

Lemma attachment_calls_fail_insufficient_permissions_witness :
  createAttachment Sample.env Sample.asBob (mkAttachment "" "vault-shared" 10) Sample.world
  = (Throw (Err INSUFFICIENT_PERMISSIONS), Sample.world)
  /\ deleteAttachment Sample.env Sample.asBob "vault-shared" "att-1" Sample.world
     = (Throw (Err INSUFFICIENT_PERMISSIONS), Sample.world)
  /\ getAttachment Sample.env Sample.asCarol "att-1" "vault-shared" Sample.world
     = (Throw (Err INSUFFICIENT_PERMISSIONS), Sample.world)
  /\ getVault Sample.env Sample.asCarol "vault-shared" Sample.world
     = (Throw (Err NOT_FOUND), Sample.world)
  /\ getOrg Sample.asCarol "org-1" Sample.world = (Throw (Err NOT_FOUND), Sample.world).
Proof.
  destruct (attachment_calls_fail_insufficient_permissions Sample.env Sample.asBob
              Sample.bobSession Sample.bob Sample.world "vault-shared" Sample.sharedVault
              (Some Sample.org1) eq_refl eq_refl eq_refl eq_refl) as (Hw & _ & _).
  destruct (attachment_calls_fail_insufficient_permissions Sample.env Sample.asCarol
              Sample.carolSession Sample.carol Sample.world "vault-shared" Sample.sharedVault
              (Some Sample.org1) eq_refl eq_refl eq_refl eq_refl) as (_ & Hr & Ho).
  destruct (Hw eq_refl) as [Hc Hd]. destruct (Hr eq_refl) as [Hg Hv].
  split; [apply Hc; reflexivity |]. split; [apply Hd |]. split; [apply Hg |].
  split; [exact Hv |]. apply (Ho "org-1" Sample.org1); [reflexivity | discriminate | reflexivity].
Defined.

(** ** Ownership of persisted vaults *)

Lemma createVault_inv (env : Env) (ctx : Context) (vault : Vault) (w : World) (v : Vault) :
  fst (createVault env ctx vault w) = Ok v ->
  exists account ref,
    ctx_account ctx = Some account
    /\ vault_org vault = Some ref
    /\ vault_owner v = Some (acc_id account)
    /\ vault_org v = Some ref
    /\ st_vault (storage (snd (createVault env ctx vault w))) !! vault_id v = Some v.
Proof.
  unfold createVault, _requireAuth, bind, get_org, storage_get, uuid, draw, now, ret, throw.
  destruct (ctx_session ctx) as [session |]; [| discriminate].
  destruct (ctx_account ctx) as [account |]; [| discriminate].
  destruct (vault_org vault) as [ref |] eqn:Href; [| discriminate]. cbn.
  destruct (st_org (storage w) !! vr_id ref) as [org |]; [| discriminate]. cbn.
  destruct (isAdmin env org (acc_id account)); [| discriminate]. cbn.
  destruct (exceeds _ _); [discriminate |]. cbn.
  intros [= <-]. exists account, ref. cbn.
  repeat split; try reflexivity. apply lookup_insert_eq.
Qed.

Lemma createAccount_inv (env : Env) (ctx : Context) (account : Account) (auth : Auth)
    (verify : string) (w : World) (a : Account) :
  fst (createAccount env ctx account auth verify w) = Ok a ->
  exists v,
    st_vault (storage (snd (createAccount env ctx account auth verify w))) !! acc_mainVault a
    = Some v
    /\ vault_id v = acc_mainVault a
    /\ vault_owner v = Some (acc_id a)
    /\ vault_org v = None.
Proof.
  unfold createAccount, bind.
  destruct (_checkEmailVerificationToken (acc_email account) verify w) as [[[] | e] w1];
    [| discriminate].
  unfold try_catch, bind, get_auth, storage_get, throw.
  destruct (st_auth (storage w1) !! auth_email auth); [discriminate |]. cbn.
  intros [= <-]. cbn. eexists. split; [apply lookup_insert_eq |]. repeat split.
Qed.

(** ** The membership diff of updateOrg *)

Lemma nonEmpty_filter {A} (f : A -> bool) (l : list A) :
  nonEmpty (List.filter f l) = true <-> exists x, In x l /\ f x = true.
Proof.
  split.
  - destruct (List.filter f l) as [| x r] eqn:E; [discriminate |]. intros _.
    exists x. apply filter_In. rewrite E. now left.
  - intros (x & Hx & Hf). assert (H : In x (List.filter f l)) by now apply filter_In.
    now destruct (List.filter f l).
Qed.

Lemma find_id_none {A} (key : A -> string) (l : list A) (id : string) :
  List.find (fun x => String.eqb (key x) id) l = None
  <-> forall x, In x l -> key x <> id.
Proof.
  split.
  - intros H x Hx E. pose proof (find_none _ _ H x Hx) as F. cbn in F.
    now rewrite (eqb_true_of_eq _ _ E) in F.
  - intros H. destruct (List.find _ l) as [x |] eqn:E; [| reflexivity].
    apply find_some in E as [Hx Hk]. apply String.eqb_eq in Hk. now destruct (H x Hx).
Qed.

Lemma isMember_false (org : Org) (id : string) :
  isMember org id = false <-> forall m, In m (org_members org) -> mem_id m <> id.
Proof.
  unfold isMember, getMember. rewrite <- (find_id_none mem_id).
  destruct (List.find _ _); split; congruence.
Qed.

Lemma OrgRole_eqb_eq (a b : OrgRole) : OrgRole_eqb a b = true <-> a = b.
Proof. destruct a, b; cbn; split; congruence. Qed.

Lemma addedMembers_spec (org upd : Org) :
  nonEmpty (addedMembers org upd) = true <-> specMemberAdded org upd.
Proof.
  unfold addedMembers, specMemberAdded. rewrite nonEmpty_filter.
  split; intros (m & Hm & H); exists m; (split; [exact Hm |]).
  - apply isMember_false. now destruct (isMember org (mem_id m)).
  - apply isMember_false in H. now rewrite H.
Qed.

Lemma removedMembers_spec (org upd : Org) :
  nonEmpty (removedMembers org upd) = true <-> specMemberRemoved org upd.
Proof.
  unfold removedMembers, specMemberRemoved. rewrite nonEmpty_filter.
  split; intros (m & Hm & H); exists m; (split; [exact Hm |]).
  - intros m' Hm' E. apply negb_true_iff in H.
    assert (X : existsb (fun m'0 => String.eqb (mem_id m) (mem_id m'0)) (org_members upd) = true).
    { apply existsb_exists. exists m'. split; [exact Hm' |]. now apply String.eqb_eq. }
    congruence.
  - apply negb_true_iff. destruct (existsb _ _) eqn:X; [| reflexivity].
    apply existsb_exists in X as (m' & Hm' & E). apply String.eqb_eq in E.
    now destruct (H m' Hm').
Qed.

Lemma addedInvites_spec (org upd : Org) :
  nonEmpty (addedInvites org upd) = true <-> specInviteAdded org upd.
Proof.
  unfold addedInvites, specInviteAdded, getInvite. rewrite nonEmpty_filter.
  split; intros (i & Hi & H); exists i; (split; [exact Hi |]).
  - apply (find_id_none inv_id). now destruct (List.find _ _).
  - apply (find_id_none inv_id) in H. now rewrite H.
Qed.

Lemma roleChanged_spec (org upd : Org) :
  roleChanged org upd = true <-> specMemberAdded org upd \/ specRoleChanged org upd.
Proof.
  unfold roleChanged. rewrite existsb_exists. split.
  - intros (m & Hm & H). destruct (getMember org (mem_id m)) as [member |] eqn:G.
    + right. exists m, member. repeat split; try assumption.
      intros E. apply OrgRole_eqb_eq in E. now rewrite E in H.
    + left. exists m. split; [exact Hm |]. apply isMember_false.
      unfold isMember. now rewrite G.
  - intros [(m & Hm & H) | (m & member & Hm & G & H)]; exists m; (split; [exact Hm |]).
    + apply isMember_false in H. unfold isMember in H.
      now destruct (getMember org (mem_id m)).
    + rewrite G. apply negb_true_iff. destruct (OrgRole_eqb _ _) eqn:E; [| reflexivity].
      apply OrgRole_eqb_eq in E. contradiction.
Qed.

(** The check of [updateOrg] computes the diff of the specification. *)
Lemma membershipChanged_spec (org upd : Org) :
  membershipChanged org upd = true <-> specMembershipDiff org upd.
Proof.
  unfold membershipChanged, specMembershipDiff.
  rewrite !orb_true_iff, addedMembers_spec, removedMembers_spec, addedInvites_spec,
    roleChanged_spec.
  tauto.
Qed.

Section UpdateOrgPermissions.

Variable env : Env.
Variables (ctx : Context) (session : Session) (account : Account).
Hypothesis Hsession : ctx_session ctx = Some session.
Hypothesis Haccount : ctx_account ctx = Some account.
Variables (w : World) (upd org : Org).
Hypothesis Horg : st_org (storage w) !! org_id upd = Some org.

Lemma updateOrg_outdated :
  org_revision upd <> org_revision org ->
  updateOrg env ctx upd w = (Throw (Err OUTDATED_REVISION), w).
Proof.
  intros Hr. unfold updateOrg.
  rewrite (bind_ok _ _ _ _ _ (requireAuth_ok ctx session account Hsession Haccount w)).
  cbn [fst]. rewrite (bind_ok _ _ _ _ _ (storage_get_some st_org _ _ _ Horg)).
  now rewrite (eqb_false_of_neq _ _ Hr).
Qed.

Hypothesis Hrevision : org_revision upd = org_revision org.

Lemma updateOrg_not_admin :
  org_owner org <> acc_id account ->
  isOwner env org (acc_id account) = false ->
  isAdmin env org (acc_id account) = false ->
  updateOrg env ctx upd w = (Throw (Err INSUFFICIENT_PERMISSIONS), w).
Proof.
  intros Ho Hio Hia. unfold updateOrg.
  rewrite (bind_ok _ _ _ _ _ (requireAuth_ok ctx session account Hsession Haccount w)).
  cbn [fst]. rewrite (bind_ok _ _ _ _ _ (storage_get_some st_org _ _ _ Horg)).
  rewrite (eqb_true_of_eq _ _ Hrevision), (eqb_false_of_neq _ _ Ho), Hio, Hia.
  reflexivity.
Qed.

Lemma updateOrg_admin_diff :
  org_owner org <> acc_id account ->
  isOwner env org (acc_id account) = false ->
  membershipChanged org upd = true ->
  updateOrg env ctx upd w = (Throw (Err INSUFFICIENT_PERMISSIONS), w).
Proof.
  intros Ho Hio Hd. unfold updateOrg.
  rewrite (bind_ok _ _ _ _ _ (requireAuth_ok ctx session account Hsession Haccount w)).
  cbn [fst]. rewrite (bind_ok _ _ _ _ _ (storage_get_some st_org _ _ _ Horg)).
  rewrite (eqb_true_of_eq _ _ Hrevision), (eqb_false_of_neq _ _ Ho), Hio, Hd.
  cbn. now destruct (isAdmin env org (acc_id account)).
Qed.

End UpdateOrgPermissions.

(** C6 (amended).  An authenticated caller submits an update, based on the current
    revision, of a stored organisation of which it is not the owner.  If the
    caller is an admin and the membership diff against the stored
    organisation (an added member, a removed member, an added invite or a
    member whose role differs from the stored one) is not empty, the call
    fails INSUFFICIENT_PERMISSIONS; if the caller is not an admin either,
    the call fails INSUFFICIENT_PERMISSIONS whatever the update.  In both
    cases nothing is changed. *)
Theorem updateOrg_membership_changes_need_owner
    (env : Env) (ctx : Context) (session : Session) (account : Account)
    (w : World) (upd org : Org) :
  ctx_session ctx = Some session ->
  ctx_account ctx = Some account ->
  st_org (storage w) !! org_id upd = Some org ->
  org_revision upd = org_revision org ->
  org_owner org <> acc_id account ->
  isOwner env org (acc_id account) = false ->
  (isAdmin env org (acc_id account) = true ->
   specMembershipDiff org upd ->
   updateOrg env ctx upd w = (Throw (Err INSUFFICIENT_PERMISSIONS), w))
  /\ (isAdmin env org (acc_id account) = false ->
      updateOrg env ctx upd w = (Throw (Err INSUFFICIENT_PERMISSIONS), w)).
Proof.
  intros Hs Ha Ho Hr Hown Hio. split.
  - intros _ Hd. apply membershipChanged_spec in Hd.
    now apply (updateOrg_admin_diff env ctx session account Hs Ha w upd org).
  - intros Hia. now apply (updateOrg_not_admin env ctx session account Hs Ha w upd org).
Qed.

Lemma updateOrg_membership_changes_need_owner_witness :
  updateOrg Sample.env Sample.asBob Sample.promoteBob Sample.worldWithAdmin
  = (Throw (Err INSUFFICIENT_PERMISSIONS), Sample.worldWithAdmin)
  /\ updateOrg Sample.env Sample.asCarol Sample.org1WithAdmin Sample.worldWithAdmin
     = (Throw (Err INSUFFICIENT_PERMISSIONS), Sample.worldWithAdmin).
Proof.
  assert (Hbob : org_owner Sample.org1WithAdmin <> acc_id Sample.bob) by discriminate.
  assert (Hcarol : org_owner Sample.org1WithAdmin <> acc_id Sample.carol) by discriminate.
  destruct (updateOrg_membership_changes_need_owner Sample.env Sample.asBob Sample.bobSession
              Sample.bob Sample.worldWithAdmin Sample.promoteBob Sample.org1WithAdmin
              eq_refl eq_refl eq_refl eq_refl Hbob eq_refl) as [Hadmin _].
  destruct (updateOrg_membership_changes_need_owner Sample.env Sample.asCarol
              Sample.carolSession Sample.carol Sample.worldWithAdmin Sample.org1WithAdmin
              Sample.org1WithAdmin eq_refl eq_refl eq_refl eq_refl Hcarol eq_refl)
    as [_ Hother].
  split.
  - apply Hadmin; [reflexivity |].
    right. right. right.
    exists (mkOrgMember "acc-bob" "Bob" "bob@example.com" Owner []),
           (mkOrgMember "acc-bob" "Bob" "bob@example.com" Admin []).
    split; [right; left; reflexivity |]. split; [reflexivity | discriminate].
  - apply Hother. reflexivity.
Defined.

(** C6 as stated fails: the revision guard
    comes first, so that an update based on an older revision gets
    OUTDATED_REVISION from an admin who changes a role and from an account
    that is neither admin nor owner. *)
Lemma stale_updateOrg_fails_outdated_revision :
  let upd := set_org_revision "rev-o0" Sample.promoteBob in
  isAdmin Sample.env Sample.org1WithAdmin "acc-bob" = true
  /\ isOwner Sample.env Sample.org1WithAdmin "acc-bob" = false
  /\ org_owner Sample.org1WithAdmin <> "acc-bob"
  /\ specMembershipDiff Sample.org1WithAdmin upd
  /\ updateOrg Sample.env Sample.asBob upd Sample.worldWithAdmin
     = (Throw (Err OUTDATED_REVISION), Sample.worldWithAdmin)
  /\ isAdmin Sample.env Sample.org1WithAdmin "acc-carol" = false
  /\ isOwner Sample.env Sample.org1WithAdmin "acc-carol" = false
  /\ updateOrg Sample.env Sample.asCarol upd Sample.worldWithAdmin
     = (Throw (Err OUTDATED_REVISION), Sample.worldWithAdmin).
Proof.
  cbv zeta. split; [reflexivity |]. split; [reflexivity |]. split; [discriminate |].
  split; [apply membershipChanged_spec; reflexivity |].
  split; [vm_compute; reflexivity |]. split; [reflexivity |]. split; [reflexivity |].
  vm_compute. reflexivity.
Qed.

(** ** The quota check of updateOrg *)

(** C7.  Alice, the owner, submits an update of her organisation, based on
    the current revision, that has one member more than the quota allows.
    The call fails QUOTA_EXCEEDED and the stored organisation is left as it
    was, but by then the removed member's account has been saved without the
    organisation, the renamed vault has been saved under its new name and a
    verification record has been stored for the invited address. *)
Theorem updateOrg_quota_exceeded_after_writes :
  let r := updateOrg Sample.env Sample.asAlice Sample.oversizedUpdate Sample.world in
  fst r = Throw (Err QUOTA_EXCEEDED)
  /\ st_org (storage (snd r)) = st_org (storage Sample.world)
  /\ st_account (storage Sample.world) !! "acc-bob" = Some Sample.bob
  /\ st_account (storage (snd r)) !! "acc-bob" = Some (set_acc_orgs [] Sample.bob)
  /\ st_vault (storage Sample.world) !! "vault-shared" = Some Sample.sharedVault
  /\ st_vault (storage (snd r)) !! "vault-shared"
     = Some (set_vault_name "Renamed" Sample.sharedVault)
  /\ st_ev (storage Sample.world) !! "frank@example.com" = None
  /\ st_ev (storage (snd r)) !! "frank@example.com"
     = Some (mkEmailVerification "frank@example.com" "" "code-0" "token-0" 0)
  /\ storage (snd r) <> storage Sample.world.
Proof.
  cbv zeta. repeat split; try (vm_compute; reflexivity).
  intros E.
  assert (H : st_ev (storage (snd (updateOrg Sample.env Sample.asAlice Sample.oversizedUpdate
                                             Sample.world))) !! "frank@example.com" = None)
    by (rewrite E; vm_compute; reflexivity).
  vm_compute in H. discriminate H.
Qed.

(** ** Loops *)

Lemma for_each_invariant {A} (I : World -> Prop) (l : list A) (body : A -> M unit) :
  (forall x w, In x l -> I w -> exists w', body x w = (Ok tt, w') /\ I w') ->
  forall w, I w -> exists w', for_each l body w = (Ok tt, w') /\ I w'.
Proof.
  induction l as [| x l IH]; intros Hbody w Hw.
  - exists w. now split.
  - destruct (Hbody x w (or_introl eq_refl) Hw) as (w1 & E1 & I1).
    destruct (IH (fun y w0 Hy => Hbody y w0 (or_intror Hy)) w1 I1) as (w2 & E2 & I2).
    exists w2. split; [| exact I2]. cbn [for_each]. now rewrite (bind_ok _ _ _ _ _ E1).
Qed.

Lemma extends_refl w : extends w w.
Proof. repeat split; auto. Qed.

Lemma exceeds_false (count : nat) (limit : Z) :
  within count limit -> exceeds count limit = false.
Proof.
  unfold within, exceeds. intros [-> | H]; [reflexivity |].
  destruct (limit =? -1); [reflexivity |]. cbn. rewrite Z.gtb_ltb. now apply Z.ltb_ge.
Qed.

(** ** The revision guard *)

Section UpdateOrgSucceeds.

Variable env : Env.
Variables (ctx : Context) (session : Session) (account : Account).
Hypothesis Hsession : ctx_session ctx = Some session.
Hypothesis Haccount : ctx_account ctx = Some account.
Variables (w : World) (upd org : Org).
Hypothesis Horg : st_org (storage w) !! org_id upd = Some org.
Hypothesis Hrevision : org_revision upd = org_revision org.
Hypothesis Hmay : mayUpdate env account org upd.
Hypothesis Haccounts :
  forall m, In m (org_members org) \/ In m (org_members upd) ->
            is_Some (st_account (storage w) !! mem_id m).
Hypothesis Hvaults :
  forall entry, In entry (org_vaults org) -> is_Some (st_vault (storage w) !! vr_id entry).
Hypothesis Hmembers : within (length (org_members upd)) (oq_members (org_quota org)).
Hypothesis Hgroups : within (length (org_groups upd)) (oq_groups (org_quota org)).

Lemma updateOrg_checks_pass :
  let isOwner_ := String.eqb (org_owner org) (acc_id account) || isOwner env org (acc_id account) in
  negb (isOwner_ || isAdmin env org (acc_id account)) = false
  /\ negb isOwner_ && membershipChanged org upd = false.
Proof.
  cbv zeta. destruct Hmay as [Ho | [Ho | [Ha Hd]]].
  - rewrite (eqb_true_of_eq _ _ Ho). now split.
  - rewrite Ho, orb_true_r. now split.
  - rewrite Ha, Hd, orb_true_r, andb_false_r. now split.
Qed.

Lemma invites_loop w0 (l : list Invite) :
  extends w w0 ->
  exists w1,
    for_each l (fun invite =>
      link <~ try_catch (get_auth (inv_email invite) ;;; ret (inviteLink env org invite))
                (fun e =>
                   if isNotFound e then
                     v <~ newEmailVerification env (inv_email invite) "" ;;
                     save_ev v ;;;
                     ret (inviteLink env org invite +:+ "?verify=" +:+ ev_token v
                            +:+ "&email=" +:+ inv_email invite)
                   else throw e) ;;
      send (inv_email invite) (InviteCreatedMessage invite link)) w0 = (Ok tt, w1)
    /\ extends w w1.
Proof.
  apply for_each_invariant. clear w0. intros invite w0 _ Hext.
  unfold bind, try_catch, get_auth, storage_get, newEmailVerification, draw, save_ev,
    modify_storage, send, ret, bind.
  destruct (st_auth (storage w0) !! inv_email invite); cbn;
    eexists; (split; [reflexivity | exact Hext]).
Qed.

Lemma removed_loop w0 (l : list OrgMember) :
  (forall m, In m l -> is_Some (st_account (storage w) !! mem_id m)) ->
  extends w w0 ->
  exists w1,
    for_each l (fun m =>
      acc <~ get_account (mem_id m) ;;
      save_account
        (set_acc_orgs (List.filter (fun id => negb (String.eqb id (org_id org))) (acc_orgs acc))
                      acc)) w0 = (Ok tt, w1)
    /\ extends w w1.
Proof.
  intros Hl. apply for_each_invariant. clear w0. intros m w0 Hm Hext.
  destruct Hext as (Eo & Ea & Ev).
  destruct (Ea _ (Hl m Hm)) as [acc Hacc].
  unfold bind, get_account. rewrite (storage_get_some st_account _ _ _ Hacc).
  eexists. split; [reflexivity |]. cbn. split; [exact Eo |]. split; [| exact Ev].
  intros id Hid. cbn. destruct (decide (acc_id acc = id)) as [<- | Hne].
  - rewrite lookup_insert_eq. eauto.
  - rewrite lookup_insert_ne by exact Hne. now apply Ea.
Qed.

Lemma vaults_loop w0 (l : list VaultRef) :
  (forall entry, In entry l -> is_Some (st_vault (storage w) !! vr_id entry)) ->
  extends w w0 ->
  exists w1,
    for_each l (fun entry =>
      match List.find (fun v => String.eqb (vr_id v) (vr_id entry)) (org_vaults upd) with
      | Some newVaultEntry =>
          if negb (String.eqb (vr_name newVaultEntry) (vr_name entry)) then
            vault <~ get_vault (vr_id entry) ;;
            save_vault (set_vault_name (vr_name newVaultEntry) vault)
          else ret tt
      | None => ret tt
      end) w0 = (Ok tt, w1)
    /\ extends w w1.
Proof.
  intros Hl. apply for_each_invariant. clear w0. intros entry w0 Hentry Hext.
  destruct (List.find _ _) as [newVaultEntry |]; [| now exists w0].
  destruct (negb _); [| now exists w0].
  destruct Hext as (Eo & Ea & Ev).
  destruct (Ev _ (Hl entry Hentry)) as [vault Hvault].
  unfold bind, get_vault. rewrite (storage_get_some st_vault _ _ _ Hvault).
  eexists. split; [reflexivity |]. cbn. split; [exact Eo |]. split; [exact Ea |].
  intros id Hid. cbn. destruct (decide (vault_id vault = id)) as [<- | Hne].
  - rewrite lookup_insert_eq. eauto.
  - rewrite lookup_insert_ne by exact Hne. now apply Ev.
Qed.

Lemma added_loop w0 (l : list OrgMember) (org' : Org) :
  (forall m, In m l -> is_Some (st_account (storage w) !! mem_id m)) ->
  extends w w0 ->
  exists w1,
    for_each l (fun member =>
      acc <~ get_account (mem_id member) ;;
      save_account (set_acc_orgs (acc_orgs acc ++ [org_id org']) acc) ;;;
      if negb (String.eqb (mem_id member) (acc_id account)) then
        send (mem_email member)
             (MemberAddedMessage org' (clientUrl env +:+ "/org/" +:+ org_id org'))
      else ret tt) w0 = (Ok tt, w1)
    /\ extends w w1.
Proof.
  intros Hl. apply for_each_invariant. clear w0. intros m w0 Hm Hext.
  destruct Hext as (Eo & Ea & Ev).
  destruct (Ea _ (Hl m Hm)) as [acc Hacc].
  unfold bind, get_account. rewrite (storage_get_some st_account _ _ _ Hacc).
  cbn. assert (Hkeep : forall id, is_Some (st_account (storage w) !! id) ->
                         is_Some (<[acc_id acc := set_acc_orgs (acc_orgs acc ++ [org_id org']) acc]>
                                    (st_account (storage w0)) !! id)).
  { intros id Hid. destruct (decide (acc_id acc = id)) as [<- | Hne].
    - rewrite lookup_insert_eq. eauto.
    - rewrite lookup_insert_ne by exact Hne. now apply Ea. }
  destruct (negb _); cbn; eexists; (split; [reflexivity |]); cbn;
    (split; [exact Eo |]); (split; [exact Hkeep | exact Ev]).
Qed.

Lemma updateOrg_current :
  exists org' w',
    updateOrg env ctx upd w = (Ok org', w')
    /\ st_org (storage w') !! org_id org = Some org'
    /\ exists n, org_revision org' = uuid_gen env n.
Proof.
  unfold updateOrg.
  rewrite (bind_ok _ _ _ _ _ (requireAuth_ok ctx session account Hsession Haccount w)).
  cbn [fst]. rewrite (bind_ok _ _ _ _ _ (storage_get_some st_org _ _ _ Horg)).
  rewrite (eqb_true_of_eq _ _ Hrevision). cbn [negb].
  destruct updateOrg_checks_pass as [-> ->].
  destruct (invites_loop w (addedInvites org upd) (extends_refl w)) as (w1 & E1 & X1).
  rewrite (bind_ok _ _ _ _ _ E1).
  destruct (removed_loop w1 (removedMembers org upd)) as (w2 & E2 & X2); [| exact X1 |].
  { intros m Hm. apply Haccounts. left. now apply filter_In in Hm as [Hm _]. }
  rewrite (bind_ok _ _ _ _ _ E2).
  destruct (vaults_loop w2 (org_vaults org) Hvaults X2) as (w3 & E3 & X3).
  rewrite (bind_ok _ _ _ _ _ E3).
  cbv zeta.
  set (org2 := if String.eqb (org_owner org) (acc_id account) || isOwner env org (acc_id account)
               then assign_owner_fields upd (assign_membership upd org)
               else assign_membership upd org).
  assert (Hq : org_quota org2 = org_quota org)
    by (subst org2; now destruct (String.eqb _ _ || _)).
  assert (Eid : org_id org2 = org_id org)
    by (subst org2; now destruct (String.eqb _ _ || _)).
  rewrite Hq, (exceeds_false _ _ Hmembers), (exceeds_false _ _ Hgroups). cbn [orb].
  destruct (added_loop w3 (addedMembers org upd) org2) as (w4 & E4 & X4); [| exact X3 |].
  { intros m Hm. apply Haccounts. right. now apply filter_In in Hm as [Hm _]. }
  rewrite (bind_ok _ _ _ _ _ E4).
  unfold bind, uuid, draw, save_org, modify_storage, ret. cbn.
  eexists. eexists. split; [reflexivity |]. cbn. split.
  - rewrite Eid. apply lookup_insert_eq.
  - eauto.
Qed.

End UpdateOrgSucceeds.

Lemma find_update_member (id : string) (f : OrgMember -> OrgMember) (l : list OrgMember) :
  (forall m, mem_id (f m) = mem_id m) ->
  List.find (fun m => String.eqb (mem_id m) id) (update_member id f l)
  = option_map f (List.find (fun m => String.eqb (mem_id m) id) l).
Proof.
  intros Hf. induction l as [| m l IH]; [reflexivity |]. cbn.
  destruct (String.eqb (mem_id m) id) eqn:E; cbn.
  - now rewrite Hf, E.
  - now rewrite E.
Qed.

Lemma getMember_update (o : Org) (id : string) (f : OrgMember -> OrgMember) :
  (forall m, mem_id (f m) = mem_id m) ->
  getMember (set_org_members (update_member id f (org_members o)) o) id
  = option_map f (getMember o id).
Proof. intros Hf. unfold getMember. cbn. now apply find_update_member. Qed.

Section UpdateAccountFacts.

Variable env : Env.
Variables (ctx : Context) (session : Session) (account : Account).
Hypothesis Hsession : ctx_session ctx = Some session.
Hypothesis Haccount : ctx_account ctx = Some account.
Variables (w : World) (upd : Account).

Lemma updateAccount_outdated :
  acc_revision upd <> acc_revision account ->
  updateAccount env ctx upd w = (Throw (Err OUTDATED_REVISION), w).
Proof.
  intros Hr. unfold updateAccount.
  rewrite (bind_ok _ _ _ _ _ (requireAuth_ok ctx session account Hsession Haccount w)).
  cbn [fst]. now rewrite (eqb_false_of_neq _ _ Hr).
Qed.

Lemma rename_loop (name : string) (l : list string) w0 :
  (forall id, In id l ->
     exists o, st_org (storage w0) !! id = Some o /\ isMember o (acc_id account) = true) ->
  exists w1,
    for_each l (fun id =>
      org <~ get_org id ;;
      match getMember org (acc_id account) with
      | None => throw TypeError
      | Some _ =>
          save_org (set_org_members
                      (update_member (acc_id account) (set_mem_name name) (org_members org))
                      org)
      end) w0 = (Ok tt, w1)
    /\ st_account (storage w1) = st_account (storage w0).
Proof.
  intros Hl.
  destruct (for_each_invariant
              (fun w1 => st_account (storage w1) = st_account (storage w0)
                         /\ forall id, In id l ->
                              exists o, st_org (storage w1) !! id = Some o
                                        /\ isMember o (acc_id account) = true)
              l
              (fun id =>
                 org <~ get_org id ;;
                 match getMember org (acc_id account) with
                 | None => throw TypeError
                 | Some _ =>
                     save_org (set_org_members
                                 (update_member (acc_id account) (set_mem_name name)
                                                (org_members org)) org)
                 end)) with (w := w0) as (w1 & E & Hacc & _).
  - intros id w1 Hid [Hacc Horgs].
    destruct (Horgs id Hid) as (o & Ho & Hm).
    unfold bind, get_org. rewrite (storage_get_some st_org _ _ _ Ho).
    unfold isMember in Hm. destruct (getMember o (acc_id account)) as [m |] eqn:G;
      [| discriminate].
    eexists. split; [reflexivity |]. cbn. split; [exact Hacc |].
    intros id' Hid'. destruct (decide (org_id o = id')) as [<- | Hne].
    + rewrite lookup_insert_eq. eexists. split; [reflexivity |].
      unfold isMember. rewrite getMember_update by reflexivity. now rewrite G.
    + rewrite lookup_insert_ne by exact Hne. now apply Horgs.
  - now split.
  - now exists w1.
Qed.

Lemma updateAccount_current :
  acc_revision upd = acc_revision account ->
  (acc_name upd <> acc_name account ->
   forall id, In id (acc_orgs account) ->
     exists o, st_org (storage w) !! id = Some o /\ isMember o (acc_id account) = true) ->
  exists account' w',
    updateAccount env ctx upd w = (Ok account', w')
    /\ st_account (storage w') !! acc_id account = Some account'
    /\ acc_revision account' = uuid_gen env (entropy w).
Proof.
  intros Hr Horgs. unfold updateAccount.
  rewrite (bind_ok _ _ _ _ _ (requireAuth_ok ctx session account Hsession Haccount w)).
  cbn [fst]. rewrite (eqb_true_of_eq _ _ Hr). cbn [negb].
  unfold uuid, draw, now, save_account, modify_storage.
  unfold bind at 1 2 3 4. cbn.
  destruct (String.eqb (acc_name account) (acc_name upd)) eqn:En; cbn [negb].
  - unfold bind, ret. cbn. eexists. eexists. split; [reflexivity |]. cbn.
    split; [apply lookup_insert_eq | reflexivity].
  - apply String.eqb_neq in En.
    match goal with
    | |- context [bind (for_each _ _) _ ?w0] =>
        destruct (rename_loop (acc_name upd) (acc_orgs account) w0) as (w1 & E & Hacc)
    end.
    { intros id Hid. cbn. apply Horgs; [congruence | exact Hid]. }
    rewrite (bind_ok _ _ _ _ _ E). unfold ret.
    eexists. eexists. split; [reflexivity |]. rewrite Hacc. cbn.
    split; [apply lookup_insert_eq | reflexivity].
Qed.

End UpdateAccountFacts.

Section UpdateVaultFacts.

Variable env : Env.
Variables (ctx : Context) (session : Session) (account : Account).
Hypothesis Hsession : ctx_session ctx = Some session.
Hypothesis Haccount : ctx_account ctx = Some account.
Variables (w : World) (upd vault : Vault) (org : option Org).
Hypothesis Hvault : st_vault (storage w) !! vault_id upd = Some vault.
Hypothesis Horg : orgOf vault w = (Ok org, w).
Hypothesis Hread : readDenied env org vault account = false.
Hypothesis Hwrite : writeDenied env org vault account = false.

Lemma updateVault_outdated :
  vault_revision upd <> vault_revision vault ->
  updateVault env ctx upd w = (Throw (Err OUTDATED_REVISION), w).
Proof.
  intros Hr. unfold updateVault.
  rewrite (bind_ok _ _ _ _ _ (requireAuth_ok ctx session account Hsession Haccount w)).
  cbn [fst]. rewrite (bind_ok _ _ _ _ _ (storage_get_some st_vault _ _ _ Hvault)).
  rewrite (bind_ok _ _ _ _ _ Horg), Hread, Hwrite.
  now rewrite (eqb_false_of_neq _ _ Hr).
Qed.

Lemma updateVault_current :
  vault_revision upd = vault_revision vault ->
  exists vault' w',
    updateVault env ctx upd w = (Ok vault', w')
    /\ st_vault (storage w') !! vault_id vault = Some vault'
    /\ vault_revision vault' = uuid_gen env (entropy w).
Proof.
  intros Hr. unfold updateVault.
  rewrite (bind_ok _ _ _ _ _ (requireAuth_ok ctx session account Hsession Haccount w)).
  cbn [fst]. rewrite (bind_ok _ _ _ _ _ (storage_get_some st_vault _ _ _ Hvault)).
  rewrite (bind_ok _ _ _ _ _ Horg), Hread, Hwrite.
  rewrite (eqb_true_of_eq _ _ Hr). cbn [negb].
  unfold bind, uuid, draw, now, save_vault, modify_storage, ret, bind. cbn.
  eexists. eexists. split; [reflexivity |]. cbn.
  split; [apply lookup_insert_eq | reflexivity].
Qed.

End UpdateVaultFacts.

(** ** Account recovery *)

Lemma bind_inv {A B} (m : M A) (k : A -> M B) w b w' :
  bind m k w = (Ok b, w') -> exists a w1, m w = (Ok a, w1) /\ k a w1 = (Ok b, w').
Proof.
  unfold bind. destruct (m w) as [[a | e] w1]; [| discriminate].
  intros H. now exists a, w1.
Qed.



Lemma revoke_loop (l : list Session) :
  forall w0,
  exists w1,
    for_each l (fun s => floating (delete_session s)) w0 = (Ok tt, w1)
    /\ st_org (storage w1) = st_org (storage w0)
    /\ st_account (storage w1) = st_account (storage w0)
    /\ (forall id s, st_session (storage w1) !! id = Some s ->
                     st_session (storage w0) !! id = Some s)
    /\ (forall s, In s l -> st_session (storage w1) !! sess_id s = None).
Proof.
  induction l as [| x l IH]; intros w0.
  - exists w0. repeat split; auto. intros s [].
  - destruct (IH (snd (delete_session x w0))) as (w1 & E & Ho & Ha & Hsub & Hgone).
    exists w1. split; [| split; [| split; [| split]]].
    + cbn [for_each]. unfold bind at 1. unfold floating at 1. exact E.
    + rewrite Ho. reflexivity.
    + rewrite Ha. reflexivity.
    + intros id s H. apply Hsub in H. cbn in H.
      apply lookup_delete_Some in H. tauto.
    + intros s [<- | Hs]; [| now apply Hgone].
      destruct (st_session (storage w1) !! sess_id x) as [s |] eqn:G; [| reflexivity].
      apply Hsub in G. cbn in G. now rewrite lookup_delete_eq in G.
Qed.

Section SuspendLoop.

Variable env : Env.
Variable accid : string.



End SuspendLoop.



(** ** Computations that keep a property of the world *)

Section Preservation.

Variable P : World -> Prop.

Lemma preserves_ret {A} (a : A) : preserves P (ret a).
Proof. intros w Hw. exact Hw. Qed.

Lemma preserves_throw {A} (e : Thrown) : preserves P (@throw A e).
Proof. intros w Hw. exact Hw. Qed.

Lemma preserves_bind {A B} (m : M A) (k : A -> M B) :
  preserves P m -> (forall a, preserves P (k a)) -> preserves P (bind m k).
Proof.
  intros Hm Hk w Hw. unfold bind. specialize (Hm w Hw).
  destruct (m w) as [[a | e] w1]; cbn in *; [now apply Hk | exact Hm].
Qed.

(** The continuation may rely on what is known of the value returned. *)
Lemma preserves_bind_value {A B} (Q : A -> Prop) (m : M A) (k : A -> M B) :
  preserves P m ->
  (forall w a, P w -> fst (m w) = Ok a -> Q a) ->
  (forall a, Q a -> preserves P (k a)) ->
  preserves P (bind m k).
Proof.
  intros Hm HQ Hk w Hw. unfold bind. specialize (Hm w Hw). specialize (HQ w).
  destruct (m w) as [[a | e] w1]; cbn in *; [| exact Hm].
  apply Hk; [now apply HQ | exact Hm].
Qed.

Lemma preserves_try_catch {A} (m : M A) (h : Thrown -> M A) :
  preserves P m -> (forall e, preserves P (h e)) -> preserves P (try_catch m h).
Proof.
  intros Hm Hh w Hw. unfold try_catch. specialize (Hm w Hw).
  destruct (m w) as [[a | e] w1]; cbn in *; [exact Hm | now apply Hh].
Qed.

Lemma preserves_floating {A} (m : M A) : preserves P m -> preserves P (floating m).
Proof. intros Hm w Hw. exact (Hm w Hw). Qed.

Lemma preserves_for_each {A} (l : list A) (body : A -> M unit) :
  (forall x, preserves P (body x)) -> preserves P (for_each l body).
Proof.
  intros Hbody. induction l as [| x l IH]; cbn [for_each].
  - apply preserves_ret.
  - apply preserves_bind; [apply Hbody | intros _; exact IH].
Qed.

Lemma preserves_storage_get {A} (proj : Storage -> gmap string A) (id : string) :
  preserves P (storage_get proj id).
Proof.
  intros w Hw. unfold storage_get. now destruct (proj (storage w) !! id).
Qed.

Lemma preserves_att_get (vault id : string) : preserves P (att_get vault id).
Proof.
  intros w Hw. unfold att_get. now destruct (List.find _ _).
Qed.

End Preservation.

(** ** Stored vaults keep an owner *)

Lemma save_vault_owned (v : Vault) :
  vault_owner v <> None -> preserves vaultsOwned (save_vault v).
Proof.
  intros Hv w Hw id v'. cbn. intros H.
  apply lookup_insert_Some in H as [[_ <-] | [_ H]]; [exact Hv | now apply (Hw id)].
Qed.

Lemma get_vault_owned (id : string) (w : World) (v : Vault) :
  vaultsOwned w -> fst (get_vault id w) = Ok v -> vault_owner v <> None.
Proof.
  intros Hw. unfold get_vault, storage_get.
  destruct (st_vault (storage w) !! id) as [v' |] eqn:E; [| discriminate].
  intros [= <-]. now apply (Hw id).
Qed.

(** One step of the walk through a method: the combinators by their rules,
    branches by cases, and the primitives that leave the vaults alone by
    computation. *)
Ltac keeps_vaults :=
  repeat
    match goal with
    | |- preserves _ (ret _) => apply preserves_ret
    | |- preserves _ (throw _) => apply preserves_throw
    | |- preserves _ (bind _ _) => apply preserves_bind; [| intros ?]
    | |- preserves _ (try_catch _ _) => apply preserves_try_catch; [| intros ?]
    | |- preserves _ (floating _) => apply preserves_floating
    | |- preserves _ (for_each _ _) => apply preserves_for_each; intros ?
    | |- preserves _ (storage_get _ _) => apply preserves_storage_get
    | |- preserves _ (att_get _ _) => apply preserves_att_get
    | |- preserves _ (if ?c then _ else _) => destruct c
    | |- preserves _ (match ?x with _ => _ end) => destruct x
    | |- preserves vaultsOwned (save_vault _) => apply save_vault_owned; cbn; try discriminate
    | |- preserves vaultsOwned _ => solve [intros w Hw; exact Hw]
    end.

Section VaultOwners.

Variable env : Env.
Variable ctx : Context.

Lemma checkToken_keeps_vaults email token :
  preserves vaultsOwned (_checkEmailVerificationToken email token).
Proof. unfold _checkEmailVerificationToken, get_ev. keeps_vaults. Qed.

Lemma checkCode_keeps_vaults email code :
  preserves vaultsOwned (_checkEmailVerificationCode email code).
Proof. unfold _checkEmailVerificationCode, get_ev. keeps_vaults. Qed.

Lemma requestEmailVerification_keeps_vaults email purpose :
  preserves vaultsOwned (requestEmailVerification env email purpose).
Proof. unfold requestEmailVerification, newEmailVerification. keeps_vaults. Qed.

Lemma requireAuth_keeps_vaults : preserves vaultsOwned (_requireAuth ctx).
Proof. unfold _requireAuth. keeps_vaults. Qed.

Lemma orgOf_keeps_vaults vault : preserves vaultsOwned (orgOf vault).
Proof. unfold orgOf, get_org. keeps_vaults. Qed.

Lemma usagesOf_keeps_vaults vaults : preserves vaultsOwned (usagesOf vaults).
Proof.
  induction vaults as [| v r IH]; cbn [usagesOf]; keeps_vaults. exact IH.
Qed.

Lemma usageOf_keeps_vaults vaults : preserves vaultsOwned (usageOf vaults).
Proof.
  unfold usageOf. apply preserves_bind; [apply usagesOf_keeps_vaults | intros ?].
  apply preserves_ret.
Qed.

Lemma initAuth_keeps_vaults email verify :
  preserves vaultsOwned (initAuth env ctx email verify).
Proof.
  unfold initAuth, get_auth, srp_initialize. keeps_vaults.
  all: try apply checkToken_keeps_vaults.
Qed.

Lemma createSession_keeps_vaults account A M1 :
  preserves vaultsOwned (createSession env ctx account A M1).
Proof. unfold createSession, get_account, get_auth, uuid. keeps_vaults. Qed.

Lemma createAccount_keeps_vaults account auth verify :
  preserves vaultsOwned (createAccount env ctx account auth verify).
Proof.
  unfold createAccount, get_auth, uuid.
  apply preserves_bind; [apply checkToken_keeps_vaults | intros _]. keeps_vaults.
Qed.

Lemma updateAccount_keeps_vaults upd :
  preserves vaultsOwned (updateAccount env ctx upd).
Proof.
  unfold updateAccount, get_org, uuid.
  apply preserves_bind; [apply requireAuth_keeps_vaults | intros ?]. keeps_vaults.
Qed.

Lemma recoverAccount_keeps_vaults upd auth verify :
  preserves vaultsOwned (recoverAccount env ctx upd auth verify).
Proof.
  unfold recoverAccount, get_auth, get_account, get_org.
  apply preserves_bind; [apply checkToken_keeps_vaults | intros _]. keeps_vaults.
Qed.

Lemma getOrg_keeps_vaults id : preserves vaultsOwned (getOrg ctx id).
Proof.
  unfold getOrg, get_org.
  apply preserves_bind; [apply requireAuth_keeps_vaults | intros ?]. keeps_vaults.
Qed.

Lemma updateOrg_keeps_vaults upd : preserves vaultsOwned (updateOrg env ctx upd).
Proof.
  unfold updateOrg, get_org, get_auth, get_account, newEmailVerification, uuid.
  apply preserves_bind; [apply requireAuth_keeps_vaults | intros ?].
  apply preserves_bind; [keeps_vaults | intros org].
  destruct (negb _); [keeps_vaults |].
  destruct (negb _); [keeps_vaults |].
  destruct (negb _ && _); [keeps_vaults |].
  apply preserves_bind; [keeps_vaults | intros _].
  apply preserves_bind; [keeps_vaults | intros _].
  apply preserves_bind; [| intros _; keeps_vaults].
  apply preserves_for_each. intros entry.
  destruct (List.find _ _) as [newVaultEntry |]; [| keeps_vaults].
  destruct (negb _); [| keeps_vaults].
  apply (preserves_bind_value vaultsOwned (fun v => vault_owner v <> None)).
  - unfold get_vault. keeps_vaults.
  - intros w v. apply get_vault_owned.
  - intros v Hv. now apply save_vault_owned.
Qed.

Lemma getVault_keeps_vaults id : preserves vaultsOwned (getVault env ctx id).
Proof.
  unfold getVault, get_vault.
  apply preserves_bind; [apply requireAuth_keeps_vaults | intros ?].
  apply preserves_bind; [keeps_vaults | intros ?].
  apply preserves_bind; [apply orgOf_keeps_vaults | intros ?]. keeps_vaults.
Qed.

Lemma updateVault_keeps_vaults upd : preserves vaultsOwned (updateVault env ctx upd).
Proof.
  unfold updateVault, uuid.
  apply preserves_bind; [apply requireAuth_keeps_vaults | intros ?].
  apply (preserves_bind_value vaultsOwned (fun v => vault_owner v <> None)).
  - unfold get_vault. keeps_vaults.
  - intros w v. apply get_vault_owned.
  - intros v Hv.
    apply preserves_bind; [apply orgOf_keeps_vaults | intros ?].
    destruct (readDenied _ _ _ _); [keeps_vaults |].
    destruct (writeDenied _ _ _ _); [keeps_vaults |].
    destruct (negb _); [keeps_vaults |].
    apply preserves_bind; [keeps_vaults | intros ?].
    apply preserves_bind; [keeps_vaults | intros ?].
    apply preserves_bind; [now apply save_vault_owned | intros ?]. keeps_vaults.
Qed.

Lemma createVault_keeps_vaults vault : preserves vaultsOwned (createVault env ctx vault).
Proof.
  unfold createVault, get_org, uuid.
  apply preserves_bind; [apply requireAuth_keeps_vaults | intros ?]. keeps_vaults.
Qed.

Lemma createAttachment_keeps_vaults att :
  preserves vaultsOwned (createAttachment env ctx att).
Proof.
  unfold createAttachment, get_vault, uuid.
  apply preserves_bind; [apply requireAuth_keeps_vaults | intros ?].
  apply preserves_bind; [keeps_vaults | intros ?].
  apply preserves_bind; [apply orgOf_keeps_vaults | intros org].
  destruct (negb _); [keeps_vaults |].
  apply preserves_bind; [keeps_vaults | intros ?].
  apply preserves_bind; [| intros ?; keeps_vaults].
  destruct org; [apply usageOf_keeps_vaults | keeps_vaults].
Qed.

Lemma getAttachment_keeps_vaults id vault :
  preserves vaultsOwned (getAttachment env ctx id vault).
Proof.
  unfold getAttachment, get_vault.
  apply preserves_bind; [apply requireAuth_keeps_vaults | intros ?].
  apply preserves_bind; [keeps_vaults | intros ?].
  apply preserves_bind; [apply orgOf_keeps_vaults | intros ?]. keeps_vaults.
Qed.

Lemma deleteAttachment_keeps_vaults vault id :
  preserves vaultsOwned (deleteAttachment env ctx vault id).
Proof.
  unfold deleteAttachment, get_vault.
  apply preserves_bind; [apply requireAuth_keeps_vaults | intros ?].
  apply preserves_bind; [keeps_vaults | intros ?].
  apply preserves_bind; [apply orgOf_keeps_vaults | intros ?]. keeps_vaults.
Qed.

Lemma after_keeps_vaults (call : Call) (w : World) :
  vaultsOwned w -> vaultsOwned (after env ctx call w).
Proof.
  destruct call; cbn [after].
  - apply requestEmailVerification_keeps_vaults.
  - apply checkCode_keeps_vaults.
  - apply initAuth_keeps_vaults.
  - apply createSession_keeps_vaults.
  - apply createAccount_keeps_vaults.
  - apply updateAccount_keeps_vaults.
  - apply recoverAccount_keeps_vaults.
  - apply getOrg_keeps_vaults.
  - apply updateOrg_keeps_vaults.
  - apply getVault_keeps_vaults.
  - apply updateVault_keeps_vaults.
  - apply createVault_keeps_vaults.
  - apply createAttachment_keeps_vaults.
  - apply getAttachment_keeps_vaults.
  - apply deleteAttachment_keeps_vaults.
Qed.

End VaultOwners.

(** C4 (amended).  Every vault that is stored has its [owner] set, and the
    calls of the controller keep it so: no call stores a vault without an
    owner.  The private vault that [createAccount] persists has its [owner]
    set, to the new account, and no [org]; the vault that [createVault]
    persists has its [org] set, to the organisation it was created for, and
    its [owner] set as well, to the account of the admin who created it.  A
    persisted vault is thus never without an owner, and an organisation
    vault carries both fields. *)
Theorem persisted_vault_ownership (env : Env) (ctx : Context) (w : World) :
  (forall call, vaultsOwned w -> vaultsOwned (after env ctx call w))
  /\ (forall account auth verify a,
        fst (createAccount env ctx account auth verify w) = Ok a ->
        exists v,
          st_vault (storage (snd (createAccount env ctx account auth verify w)))
            !! acc_mainVault a = Some v
          /\ vault_owner v = Some (acc_id a)
          /\ vault_org v = None)
  /\ (forall vault v,
        fst (createVault env ctx vault w) = Ok v ->
        st_vault (storage (snd (createVault env ctx vault w))) !! vault_id v = Some v
        /\ (exists caller, ctx_account ctx = Some caller
                           /\ vault_owner v = Some (acc_id caller))
        /\ (exists ref, vault_org vault = Some ref /\ vault_org v = Some ref)).
Proof.
  split; [| split].
  - intros call. apply after_keeps_vaults.
  - intros account auth verify a H.
    destruct (createAccount_inv env ctx account auth verify w a H) as (v & Hv & _ & Ho & Hn).
    now exists v.
  - intros vault v H.
    destruct (createVault_inv env ctx vault w v H) as (caller & ref & Hc & Hr & Ho & Hg & Hs).
    split; [exact Hs |]. split; [now exists caller | now exists ref].
Qed.

Lemma persisted_vault_ownership_witness :
  vaultsOwned (after Sample.env Sample.asAlice (UpdateOrg Sample.oversizedUpdate) Sample.world)
  /\ (exists v,
        st_vault (storage (snd (createAccount Sample.env Sample.anonymous Sample.newAccount
                                              Sample.newAuth "tok-dave" Sample.world)))
          !! "id-2" = Some v
        /\ vault_owner v = Some "id-0"
        /\ vault_org v = None)
  /\ (exists v,
        fst (createVault Sample.env Sample.asAlice Sample.newSharedVault Sample.world) = Ok v
        /\ (exists caller, ctx_account Sample.asAlice = Some caller
                           /\ vault_owner v = Some (acc_id caller))
        /\ (exists ref, vault_org Sample.newSharedVault = Some ref
                        /\ vault_org v = Some ref)).
Proof.
  destruct (persisted_vault_ownership Sample.env Sample.anonymous Sample.world)
    as (_ & Hacc & _).
  destruct (persisted_vault_ownership Sample.env Sample.asAlice Sample.world)
    as (Hinv & _ & Hvault).
  split; [| split].
  - apply Hinv. intros id v H. cbn in H.
    apply lookup_insert_Some in H as [[_ <-] | [_ H]]; [discriminate |].
    apply lookup_singleton_Some in H as [_ <-]. discriminate.
  - apply (Hacc Sample.newAccount Sample.newAuth "tok-dave"
                (mkAccount "id-0" "dave@example.com" "Dave" "pk-d" "kp-d" "ep-d" "data-d"
                           "id-1" [] [] (mkAccountQuota 1 1) "id-2" 0)).
    vm_compute. reflexivity.
  - eexists. split; [vm_compute; reflexivity |].
    apply (Hvault Sample.newSharedVault). vm_compute. reflexivity.
Defined.

(** C4 as stated fails: the vault that [createVault] persists for Alice's
    organisation has both its [owner] and its [org] set. *)
Lemma createVault_sets_owner_and_org :
  let r := createVault Sample.env Sample.asAlice Sample.newSharedVault Sample.world in
  let v := mkVault "id-0" "Second" (Some "acc-alice") (Some (mkVaultRef "org-1" "Org One"))
                   "id-1" "kp" "ep" "acs" "data" 100 100 in
  fst r = Ok v
  /\ st_vault (storage (snd r)) !! "id-0" = Some v
  /\ vault_owner v <> None
  /\ vault_org v <> None.
Proof. vm_compute. repeat split; discriminate. Qed.


(** * Further properties of the controller *)

(** ** Verification tokens *)

(** X1.  A verification token can be used once: checking the stored token
    succeeds and deletes the record, after which every check for that email
    fails EMAIL_VERIFICATION_FAILED; a token other than the stored one fails
    EMAIL_VERIFICATION_FAILED and leaves the record in place. *)
Theorem verification_token_single_use (w : World) (email : string) (ev : EmailVerification) :
  st_ev (storage w) !! email = Some ev ->
  ev_email ev = email ->
  let r := _checkEmailVerificationToken email (ev_token ev) w in
  fst r = Ok tt
  /\ snd r = set_storage (with_ev (delete email) (storage w)) w
  /\ (forall token, _checkEmailVerificationToken email token (snd r)
                    = (Throw (Err EMAIL_VERIFICATION_FAILED), snd r))
  /\ (forall token, token <> ev_token ev ->
        _checkEmailVerificationToken email token w
        = (Throw (Err EMAIL_VERIFICATION_FAILED), w)).
Proof.
  intros Hev Hkey. cbv zeta.
  assert (E : _checkEmailVerificationToken email (ev_token ev) w
              = (Ok tt, set_storage (with_ev (delete email) (storage w)) w)).
  { unfold _checkEmailVerificationToken, bind, try_catch, get_ev.
    rewrite (storage_get_some _ _ _ _ Hev), String.eqb_refl.
    unfold delete_ev, modify_storage. now rewrite Hkey. }
  rewrite E. cbn [fst snd]. split; [reflexivity |]. split; [reflexivity |]. split.
  - intros token. unfold _checkEmailVerificationToken, bind, try_catch, get_ev.
    rewrite storage_get_none; [reflexivity |]. cbn. apply lookup_delete_eq.
  - intros token Hne. unfold _checkEmailVerificationToken, bind, try_catch, get_ev.
    rewrite (storage_get_some _ _ _ _ Hev).
    rewrite eqb_false_of_neq by congruence. reflexivity.
Qed.

Lemma verification_token_single_use_witness :
  fst (_checkEmailVerificationToken "alice@example.com" "tok-alice" Sample.world) = Ok tt
  /\ _checkEmailVerificationToken "alice@example.com" "tok-alice"
       (snd (_checkEmailVerificationToken "alice@example.com" "tok-alice" Sample.world))
     = (Throw (Err EMAIL_VERIFICATION_FAILED),
        snd (_checkEmailVerificationToken "alice@example.com" "tok-alice" Sample.world)).
Proof.
  destruct (verification_token_single_use Sample.world "alice@example.com"
              Sample.aliceVerification eq_refl eq_refl) as (Hok & _ & Hagain & _).
  split; [exact Hok | apply (Hagain "tok-alice")].
Defined.

(** X2.  [requestEmailVerification] stores a fresh record for the email,
    replacing any earlier one and its count of tries, and sends the code to
    that address; the code, in any letter case, is then exchanged by
    [completeEmailVerification] for the token of the record, and that token
    passes the token check. *)
Theorem email_verification_round_trip (env : Env) (w : World) (email purpose : string) :
  let v := mkEmailVerification email purpose (code_gen env (entropy w))
                               (token_gen env (entropy w)) 0 in
  let w1 := snd (requestEmailVerification env email purpose w) in
  fst (requestEmailVerification env email purpose w) = Ok tt
  /\ st_ev (storage w1) !! email = Some v
  /\ outbox w1 = (email, EmailVerificationMessage v) :: outbox w
  /\ forall code,
       toLowerCase code = code_gen env (entropy w) ->
       completeEmailVerification email code w1 = (Ok (token_gen env (entropy w)), w1)
       /\ fst (_checkEmailVerificationToken email (token_gen env (entropy w)) w1) = Ok tt.
Proof.
  cbv zeta.
  unfold requestEmailVerification, newEmailVerification, bind, draw, ret, save_ev,
    modify_storage, send. cbn.
  split; [reflexivity |]. split; [apply lookup_insert_eq |]. split; [reflexivity |].
  intros code Hcode. split.
  - unfold completeEmailVerification.
    apply (checkCode_match _ email
             (mkEmailVerification email purpose (code_gen env (entropy w))
                                  (token_gen env (entropy w)) 0)).
    + cbn. apply lookup_insert_eq.
    + cbn. now rewrite Hcode.
  - unfold _checkEmailVerificationToken, bind, try_catch, get_ev, storage_get. cbn.
    rewrite lookup_insert_eq. cbn. now rewrite String.eqb_refl.
Qed.

Lemma email_verification_round_trip_witness :
  completeEmailVerification "alice@example.com" Scenario.upperCode
    (snd (requestEmailVerification Sample.env "alice@example.com" "login" Sample.world))
  = (Ok "token-0",
     snd (requestEmailVerification Sample.env "alice@example.com" "login" Sample.world)).
Proof.
  destruct (email_verification_round_trip Sample.env Sample.world "alice@example.com" "login")
    as (_ & _ & _ & H).
  destruct (H Scenario.upperCode) as [Hc _]; [reflexivity | exact Hc].
Defined.

(** ** Signing up *)

Lemma checkToken_match w email ev :
  st_ev (storage w) !! email = Some ev ->
  _checkEmailVerificationToken email (ev_token ev) w
  = (Ok tt, set_storage (with_ev (delete (ev_email ev)) (storage w)) w).
Proof.
  intros Hev. unfold _checkEmailVerificationToken, bind, try_catch, get_ev.
  now rewrite (storage_get_some _ _ _ _ Hev), String.eqb_refl.
Qed.

Lemma checkToken_mismatch w email token :
  (forall ev, st_ev (storage w) !! email = Some ev -> ev_token ev <> token) ->
  _checkEmailVerificationToken email token w = (Throw (Err EMAIL_VERIFICATION_FAILED), w).
Proof.
  intros H. unfold _checkEmailVerificationToken, bind, try_catch, get_ev, storage_get.
  destruct (st_ev (storage w) !! email) as [ev |] eqn:E; [| reflexivity].
  cbn. now rewrite (eqb_false_of_neq _ _ (H ev eq_refl)).
Qed.

(** X3.  [createAccount] checks the verification token before it looks for
    an existing account: without the stored token it fails
    EMAIL_VERIFICATION_FAILED and changes nothing, whether or not the email
    has an account; with the stored token and an existing Auth record it
    fails ACCOUNT_EXISTS, and the verification record has been used up by
    then; with the stored token and no Auth record it succeeds, and the
    server chooses the account's id and revision. *)
Theorem createAccount_checks_token_first
    (env : Env) (ctx : Context) (account : Account) (auth : Auth) (verify : string)
    (w : World) :
  ((forall ev, st_ev (storage w) !! acc_email account = Some ev -> ev_token ev <> verify) ->
   createAccount env ctx account auth verify w
   = (Throw (Err EMAIL_VERIFICATION_FAILED), w))
  /\ (forall ev,
        st_ev (storage w) !! acc_email account = Some ev ->
        ev_token ev = verify ->
        let w1 := set_storage (with_ev (delete (ev_email ev)) (storage w)) w in
        (is_Some (st_auth (storage w) !! auth_email auth) ->
         createAccount env ctx account auth verify w = (Throw (Err ACCOUNT_EXISTS), w1))
        /\ (st_auth (storage w) !! auth_email auth = None ->
            exists a,
              fst (createAccount env ctx account auth verify w) = Ok a
              /\ acc_id a = uuid_gen env (entropy w)
              /\ acc_revision a = uuid_gen env (S (entropy w))
              /\ acc_email a = acc_email account)).
Proof.
  split.
  - intros H. unfold createAccount.
    now rewrite (bind_throw _ _ _ _ _ (checkToken_mismatch w _ verify H)).
  - intros ev Hev <-. cbv zeta. unfold createAccount.
    rewrite (bind_ok _ _ _ _ _ (checkToken_match w _ ev Hev)).
    split.
    + intros [existing Hex].
      unfold bind, try_catch, get_auth, storage_get, throw. cbn. now rewrite Hex.
    + intros Hnone.
      unfold bind, try_catch, get_auth, storage_get, throw. cbn. rewrite Hnone. cbn.
      eexists. split; [reflexivity |]. cbn. repeat split.
Qed.

Lemma createAccount_checks_token_first_witness :
  createAccount Sample.env Sample.anonymous Sample.newAccount Sample.newAuth "guess"
                Sample.world
  = (Throw (Err EMAIL_VERIFICATION_FAILED), Sample.world)
  /\ fst (createAccount Sample.env Sample.anonymous Sample.alice Sample.aliceAuth "tok-alice"
                        Sample.world)
     = Throw (Err ACCOUNT_EXISTS)
  /\ (exists a,
        fst (createAccount Sample.env Sample.anonymous Sample.newAccount Sample.newAuth
                           "tok-dave" Sample.world) = Ok a
        /\ acc_id a = "id-0").
Proof.
  destruct (createAccount_checks_token_first Sample.env Sample.anonymous Sample.newAccount
              Sample.newAuth "guess" Sample.world) as [Hbad _].
  destruct (createAccount_checks_token_first Sample.env Sample.anonymous Sample.alice
              Sample.aliceAuth "tok-alice" Sample.world) as [_ Hexists].
  destruct (createAccount_checks_token_first Sample.env Sample.anonymous Sample.newAccount
              Sample.newAuth "tok-dave" Sample.world) as [_ Hnew].
  split; [| split].
  - apply Hbad. intros ev Hev. vm_compute in Hev. injection Hev as <-. discriminate.
  - destruct (Hexists Sample.aliceVerification eq_refl eq_refl) as [H _].
    rewrite H; [reflexivity |]. now exists Sample.aliceAuth.
  - destruct (Hnew Sample.daveVerification eq_refl eq_refl) as [_ H].
    destruct (H eq_refl) as (a & Ha & Hid & _). now exists a.
Defined.

(** X4.  After a successful [createAccount] the new account reads its main
    vault with [getVault], a private vault owned by it, and any account with
    another id gets NOT_FOUND for the same vault. *)
Theorem signup_provisions_readable_vault
    (env : Env) (ctx : Context) (account : Account) (auth : Auth) (verify : string)
    (w : World) (a : Account) :
  fst (createAccount env ctx account auth verify w) = Ok a ->
  let w1 := snd (createAccount env ctx account auth verify w) in
  forall ctx1 session reader,
    ctx_session ctx1 = Some session ->
    ctx_account ctx1 = Some reader ->
    (acc_id reader = acc_id a ->
     exists v, getVault env ctx1 (acc_mainVault a) w1 = (Ok v, w1)
               /\ vault_id v = acc_mainVault a
               /\ vault_owner v = Some (acc_id a)
               /\ vault_org v = None)
    /\ (acc_id reader <> acc_id a ->
        getVault env ctx1 (acc_mainVault a) w1 = (Throw (Err NOT_FOUND), w1)).
Proof.
  intros Hok. cbv zeta. intros ctx1 session reader Hs Ha.
  destruct (createAccount_inv env ctx account auth verify w a Hok) as (v & Hv & Hid & Ho & Hn).
  assert (Horg : orgOf v (snd (createAccount env ctx account auth verify w))
                 = (Ok None, snd (createAccount env ctx account auth verify w))).
  { unfold orgOf. now rewrite Hn. }
  split.
  - intros E. exists v. split; [| now repeat split].
    unfold getVault.
    rewrite (bind_ok _ _ _ _ _ (requireAuth_ok ctx1 session reader Hs Ha _)). cbn [fst].
    rewrite (bind_ok _ _ _ _ _ (storage_get_some st_vault _ _ _ Hv)).
    rewrite (bind_ok _ _ _ _ _ Horg).
    unfold readDenied. rewrite Ho, E, String.eqb_refl. reflexivity.
  - intros Hne.
    apply (getVault_denied env ctx1 session reader Hs Ha _ _ v None Hv Horg).
    unfold readAllowed, ownsVault. rewrite Ho. apply eqb_false_of_neq. congruence.
Qed.

Lemma signup_provisions_readable_vault_witness :
  let w1 := snd (createAccount Sample.env Sample.anonymous Sample.newAccount Sample.newAuth
                               "tok-dave" Sample.world) in
  getVault Sample.env Sample.asCarol "id-2" w1 = (Throw (Err NOT_FOUND), w1).
Proof.
  cbv zeta.
  destruct (signup_provisions_readable_vault Sample.env Sample.anonymous Sample.newAccount
              Sample.newAuth "tok-dave" Sample.world
              (mkAccount "id-0" "dave@example.com" "Dave" "pk-d" "kp-d" "ep-d" "data-d"
                         "id-1" [] [] (mkAccountQuota 1 1) "id-2" 0)
              ltac:(vm_compute; reflexivity)
              Sample.asCarol Sample.carolSession Sample.carol eq_refl eq_refl) as [_ H].
  apply H. discriminate.
Defined.

(** ** Logging in *)

Lemma initAuth_trusted (env : Env) (ctx : Context) (email : string) (verify : option string)
    (w : World) (auth : Auth) (v : bytes) :
  st_auth (storage w) !! email = Some auth ->
  auth_verifier auth = Some v ->
  deviceTrusted (Some auth) ctx = true ->
  let srp := mkSRP v (entropy w) (srp_public env v (entropy w)) None None None in
  initAuth env ctx email verify w
  = (Ok (mkInitAuthResponse auth (srp_public env v (entropy w))),
     mkWorld (storage w) (<[auth_account auth := srp]> (pendingAuths w)) (outbox w)
             (attachments w) (clock w) (S (entropy w))).
Proof.
  intros Ha Hv Hd. cbv zeta. unfold initAuth.
  rewrite (bind_ok _ _ _ _ _ (try_get_auth w email)). rewrite Ha, Hd, Hv. reflexivity.
Qed.

(** X5.  A login from a trusted device, for an email whose Auth record has
    a verifier and names a stored account that carries this very email
    ([createSession] looks the Auth record up under the email of the
    account): [initAuth] needs no token and returns the public value [B] of
    a fresh exchange; [createSession] with the proof derived from that
    exchange for the client's [A] then succeeds, the session it returns has
    no key, and the session stored under the returned id carries the key
    derived from the same exchange. *)
Theorem login_round_trip
    (env : Env) (ctx : Context) (email : string) (w : World)
    (auth : Auth) (v : bytes) (acc : Account) (A : bytes) :
  st_auth (storage w) !! email = Some auth ->
  auth_verifier auth = Some v ->
  deviceTrusted (Some auth) ctx = true ->
  st_account (storage w) !! auth_account auth = Some acc ->
  acc_email acc = email ->
  let b := entropy w in
  let w1 := snd (initAuth env ctx email None w) in
  fst (initAuth env ctx email None w) = Ok (mkInitAuthResponse auth (srp_public env v b))
  /\ exists session w2,
       createSession env ctx (auth_account auth) A (srp_proof env v b A) w1
       = (Ok session, w2)
       /\ sess_key session = None
       /\ sess_account session = auth_account auth
       /\ st_session (storage w2) !! sess_id session
          = Some (set_sess_key (Some (srp_key env v b A)) session)
       /\ pendingAuths w2 !! auth_account auth = None.
Proof.
  intros Ha Hv Hd Hacc Hemail. cbv zeta.
  rewrite (initAuth_trusted env ctx email None w auth v Ha Hv Hd). cbn [fst snd].
  split; [reflexivity |].
  match goal with
  | |- context [createSession _ _ _ _ _ ?w1] =>
      destruct (createSession_good_proof env ctx (auth_account auth) A
                  (srp_proof env v (entropy w) A) w1
                  (mkSRP v (entropy w) (srp_public env v (entropy w)) None None None)
                  acc auth) as (w2 & E & Hdel & Hsess & _)
  end.
  - cbn. apply lookup_insert_eq.
  - reflexivity.
  - cbn. exact Hacc.
  - cbn. rewrite Hemail. exact Ha.
  - eexists. exists w2. split; [exact E |]. cbn. repeat split; assumption.
Qed.

Lemma login_round_trip_witness :
  exists session w2,
    createSession Sample.env Sample.fromPhone "acc-alice" Sample.clientA Sample.clientM
                  (snd (initAuth Sample.env Sample.fromPhone "alice@example.com" None
                                 Sample.world))
    = (Ok session, w2)
    /\ sess_key session = None.
Proof.
  destruct (login_round_trip Sample.env Sample.fromPhone "alice@example.com" Sample.world
              Sample.aliceAuth [Byte.x0a; Byte.x0b] Sample.alice Sample.clientA
              eq_refl eq_refl eq_refl eq_refl eq_refl)
    as (_ & session & w2 & E & Hk & _).
  exists session, w2. split; [exact E | exact Hk].
Defined.

Lemma hasDevice_trustDevice (d : DeviceInfo) (l : list DeviceInfo) :
  hasDevice d (trustDevice (Some d) l) = true.
Proof.
  unfold trustDevice. destruct (hasDevice d l) eqn:E; cbn [negb]; [exact E |].
  unfold hasDevice. rewrite existsb_app. cbn. now rewrite String.eqb_refl, orb_true_r.
Qed.

Lemma createSession_auth (env : Env) (ctx : Context) (account : string) (A M1 : bytes)
    (w : World) (srp : SRPServer) (acc : Account) (auth : Auth) :
  pendingAuths w !! account = Some srp ->
  M1 = expectedProof env srp A ->
  st_account (storage w) !! account = Some acc ->
  st_auth (storage w) !! acc_email acc = Some auth ->
  exists session w',
    createSession env ctx account A M1 w = (Ok session, w')
    /\ st_auth (storage w') !! auth_email auth
       = Some (mkAuth (auth_email auth) (auth_account auth) (auth_verifier auth)
                      (auth_keyParams auth)
                      (trustDevice (ctx_device ctx) (auth_trustedDevices auth)))
    /\ st_ev (storage w') = st_ev (storage w).
Proof.
  intros H HM Hacc Hauth.
  unfold createSession, bind, get_world, put_pendingAuths. rewrite H. cbn.
  assert (E : String.eqb (bytesToHex M1) (bytesToHex (expectedProof env srp A)) = true)
    by now apply hex_eqb_true.
  rewrite E. cbn.
  unfold get_account, get_auth, storage_get. cbn. rewrite Hacc. cbn.
  rewrite Hauth. cbn.
  eexists. eexists. split; [reflexivity |]. cbn. split; [apply lookup_insert_eq | reflexivity].
Qed.

(** X6.  A successful [createSession] leaves the calling device among the
    trusted devices of the account's Auth record (adding it only if it was
    not there yet), so that a later [initAuth] for that email from the same
    device succeeds without a verification token. *)
Theorem createSession_trusts_device
    (env : Env) (ctx : Context) (account : string) (A M1 : bytes) (w : World)
    (srp : SRPServer) (acc : Account) (auth : Auth) (d : DeviceInfo) (v : bytes) :
  pendingAuths w !! account = Some srp ->
  M1 = expectedProof env srp A ->
  st_account (storage w) !! account = Some acc ->
  st_auth (storage w) !! acc_email acc = Some auth ->
  auth_email auth = acc_email acc ->
  auth_verifier auth = Some v ->
  ctx_device ctx = Some d ->
  let w' := snd (createSession env ctx account A M1 w) in
  exists auth',
    st_auth (storage w') !! acc_email acc = Some auth'
    /\ hasDevice d (auth_trustedDevices auth') = true
    /\ (hasDevice d (auth_trustedDevices auth) = true ->
        auth_trustedDevices auth' = auth_trustedDevices auth)
    /\ forall ctx', ctx_device ctx' = Some d ->
         exists r w'', initAuth env ctx' (acc_email acc) None w' = (Ok r, w'').
Proof.
  intros H HM Hacc Hauth Hkey Hv Hd. cbv zeta.
  destruct (createSession_auth env ctx account A M1 w srp acc auth H HM Hacc Hauth)
    as (session & w' & E & Hst & _).
  rewrite E. cbn [snd]. rewrite Hkey, Hd in Hst.
  eexists. split; [exact Hst |]. cbn [auth_trustedDevices]. split; [| split].
  - apply hasDevice_trustDevice.
  - intros Hin. unfold trustDevice. now rewrite Hin.
  - intros ctx' Hd'. eexists. eexists.
    apply (initAuth_trusted env ctx' (acc_email acc) None w' _ v Hst Hv).
    unfold deviceTrusted. rewrite Hd'. cbn [auth_trustedDevices].
    apply hasDevice_trustDevice.
Qed.

Lemma createSession_trusts_device_witness :
  let w' := snd (createSession Sample.env Sample.anonymous "acc-alice" Sample.clientA
                               Sample.clientM Sample.loggingIn) in
  exists r w'', initAuth Sample.env Sample.anonymous "alice@example.com" None w' = (Ok r, w'').
Proof.
  cbv zeta.
  destruct (createSession_trusts_device Sample.env Sample.anonymous "acc-alice" Sample.clientA
              Sample.clientM Sample.loggingIn
              (mkSRP [Byte.x0a; Byte.x0b] 0 [Byte.x0a; Byte.x0b; Byte.x01] None None None)
              Sample.alice Sample.aliceAuth Sample.laptop [Byte.x0a; Byte.x0b]
              eq_refl eq_refl eq_refl eq_refl eq_refl eq_refl eq_refl)
    as (auth' & _ & _ & _ & Hinit).
  apply (Hinit Sample.anonymous). reflexivity.
Defined.

(** X7.  For an account that is stored together with the Auth record of its
    email and has a pending exchange: a [createSession] call with a wrong
    proof fails INVALID_CREDENTIALS without touching the storage and leaves
    the pending exchange usable, so that a following call with the proof
    that the exchange derives for its [A] succeeds. *)
Theorem createSession_retry_after_wrong_proof
    (env : Env) (ctx : Context) (account : string) (A M1 : bytes) (w : World)
    (srp : SRPServer) (acc : Account) (auth : Auth) :
  pendingAuths w !! account = Some srp ->
  M1 <> expectedProof env srp A ->
  st_account (storage w) !! account = Some acc ->
  st_auth (storage w) !! acc_email acc = Some auth ->
  let w1 := snd (createSession env ctx account A M1 w) in
  fst (createSession env ctx account A M1 w) = Throw (Err INVALID_CREDENTIALS)
  /\ storage w1 = storage w
  /\ forall ctx' A',
       exists session w2,
         createSession env ctx' account A' (expectedProof env srp A') w1 = (Ok session, w2)
         /\ sess_key session = None.
Proof.
  intros H Hne Hacc Hauth. cbv zeta.
  assert (E : createSession env ctx account A M1 w
              = (Throw (Err INVALID_CREDENTIALS),
                 mkWorld (storage w) (<[account := srp_setA env srp A]> (pendingAuths w))
                         (outbox w) (attachments w) (clock w) (entropy w))).
  { unfold createSession, bind, get_world, put_pendingAuths. rewrite H. cbn.
    destruct (String.eqb (bytesToHex M1) _) eqn:X; [| reflexivity].
    apply hex_eqb_true in X. contradiction. }
  rewrite E. cbn [fst snd]. split; [reflexivity |]. split; [reflexivity |].
  intros ctx' A'.
  match goal with
  | |- context [createSession _ _ _ _ _ ?w1] =>
      destruct (createSession_good_proof env ctx' account A' (expectedProof env srp A') w1
                  (srp_setA env srp A) acc auth) as (w2 & E2 & _)
  end.
  - cbn. apply lookup_insert_eq.
  - reflexivity.
  - exact Hacc.
  - exact Hauth.
  - eexists. exists w2. split; [exact E2 | reflexivity].
Qed.

Lemma createSession_retry_after_wrong_proof_witness :
  let w1 := snd (createSession Sample.env Sample.fromPhone "acc-alice" Sample.clientA
                               [Byte.x00] Sample.loggingIn) in
  exists session w2,
    createSession Sample.env Sample.fromPhone "acc-alice" Sample.clientA Sample.clientM w1
    = (Ok session, w2)
    /\ sess_key session = None.
Proof.
  cbv zeta.
  destruct (createSession_retry_after_wrong_proof Sample.env Sample.fromPhone "acc-alice"
              Sample.clientA [Byte.x00] Sample.loggingIn
              (mkSRP [Byte.x0a; Byte.x0b] 0 [Byte.x0a; Byte.x0b; Byte.x01] None None None)
              Sample.alice Sample.aliceAuth eq_refl ltac:(discriminate) eq_refl eq_refl)
    as (_ & _ & Hretry).
  apply (Hretry Sample.fromPhone Sample.clientA).
Defined.

(** X8.  For a trusted device and an email whose Auth record has a verifier
    and names a stored account that carries this very email: a second
    [initAuth] without token replaces the pending exchange, and
    [createSession] then accepts the proof derived from the second exchange
    and nothing else, so a proof derived from the first exchange is turned
    down unless the two proofs coincide. *)
Theorem initAuth_last_exchange_wins
    (env : Env) (ctx : Context) (email : string) (w : World)
    (auth : Auth) (v : bytes) (acc : Account) (A M1 : bytes) :
  st_auth (storage w) !! email = Some auth ->
  auth_verifier auth = Some v ->
  deviceTrusted (Some auth) ctx = true ->
  st_account (storage w) !! auth_account auth = Some acc ->
  acc_email acc = email ->
  let w2 := snd (initAuth env ctx email None (snd (initAuth env ctx email None w))) in
  (exists session, fst (createSession env ctx (auth_account auth) A M1 w2) = Ok session)
  <-> M1 = srp_proof env v (S (entropy w)) A.
Proof.
  intros Ha Hv Hd Hacc Hemail. cbv zeta.
  rewrite (initAuth_trusted env ctx email None w auth v Ha Hv Hd). cbn [snd].
  match goal with
  | |- context [initAuth env ctx email None ?w1] =>
      rewrite (initAuth_trusted env ctx email None w1 auth v Ha Hv Hd)
  end.
  cbn [snd entropy storage].
  set (srp := mkSRP v (S (entropy w)) (srp_public env v (S (entropy w))) None None None).
  match goal with
  | |- context [createSession _ _ _ _ _ ?x] => set (w2 := x)
  end.
  assert (Hp : pendingAuths w2 !! auth_account auth = Some srp)
    by (subst w2; cbn; apply lookup_insert_eq).
  split.
  - intros [session Hs].
    destruct (List.list_eq_dec Byte.byte_eq_dec M1 (expectedProof env srp A)) as [E | Hne];
      [exact E |].
    rewrite (createSession_bad_proof env ctx _ A M1 w2 srp Hp Hne) in Hs. discriminate.
  - intros HM.
    destruct (createSession_good_proof env ctx (auth_account auth) A M1 w2 srp acc auth
                Hp HM) as (w3 & E & _).
    + exact Hacc.
    + cbn. rewrite Hemail. exact Ha.
    + rewrite E. eexists. reflexivity.
Qed.

Lemma initAuth_last_exchange_wins_witness :
  let w2 := snd (initAuth Sample.env Sample.fromPhone "alice@example.com" None
                          Sample.loggingIn) in
  exists session,
    fst (createSession Sample.env Sample.fromPhone "acc-alice" Sample.clientA Sample.clientM w2)
    = Ok session.
Proof.
  cbv zeta.
  apply (initAuth_last_exchange_wins Sample.env Sample.fromPhone "alice@example.com"
           Sample.world Sample.aliceAuth [Byte.x0a; Byte.x0b] Sample.alice Sample.clientA
           Sample.clientM eq_refl eq_refl eq_refl eq_refl eq_refl).
  reflexivity.
Defined.

(** ** Authenticating a request *)

(** X9.  [_authenticate] lets a request without an auth reference pass as
    it is.  Otherwise it throws, and changes nothing, when the session is
    not stored (INVALID_SESSION), when its expiry lies before the current
    time (SESSION_EXPIRED), when the signature does not verify
    (INVALID_REQUEST), in this order, and when the session's account is not
    stored (NOT_FOUND); a session without an expiry, or expiring at the
    current time, is not expired. *)
Theorem authenticate_rejections (env : Env) (req : Request) (ctx : Context) (w : World) :
  (req_auth req = None -> _authenticate env req ctx w = (Ok ctx, w))
  /\ forall a, req_auth req = Some a ->
       (st_session (storage w) !! ar_session a = None ->
        _authenticate env req ctx w = (Throw (Err INVALID_SESSION), w))
       /\ forall session,
            st_session (storage w) !! ar_session a = Some session ->
            (forall e, sess_expires session = Some e -> (e < clock w)%nat ->
               _authenticate env req ctx w = (Throw (Err SESSION_EXPIRED), w))
            /\ ((forall e, sess_expires session = Some e -> (clock w <= e)%nat) ->
                (session_verify env session req = false ->
                 _authenticate env req ctx w = (Throw (Err INVALID_REQUEST), w))
                /\ (session_verify env session req = true ->
                    st_account (storage w) !! sess_account session = None ->
                    _authenticate env req ctx w = (Throw (Err NOT_FOUND), w))).
Proof.
  split.
  - intros H. unfold _authenticate. now rewrite H.
  - intros a Ha. unfold _authenticate. rewrite Ha. split.
    + intros Hn. unfold bind, try_catch, get_session.
      now rewrite (storage_get_none _ _ _ Hn).
    + intros session Hs.
      unfold bind, try_catch, get_session, get_account, now, storage_get, throw.
      rewrite Hs. cbn -[Nat.ltb]. split.
      * intros e He Hlt. rewrite He.
        destruct (Nat.ltb_spec e (clock w)); [reflexivity | lia].
      * intros Hexp.
        assert (E : match sess_expires session with
                    | Some expires => (expires <? clock w)%nat
                    | None => false
                    end = false).
        { destruct (sess_expires session) as [e |]; [| reflexivity].
          apply Nat.ltb_ge. now apply Hexp. }
        rewrite E. split.
        -- intros Hv. now rewrite Hv.
        -- intros Hv Hacc. rewrite Hv. cbn. now rewrite Hacc.
Qed.

Lemma authenticate_rejections_witness :
  _authenticate Sample.env Scenario.strayRequest Sample.anonymous Sample.recovering
  = (Throw (Err INVALID_SESSION), Sample.recovering).
Proof.
  destruct (authenticate_rejections Sample.env Scenario.strayRequest Sample.anonymous
              Sample.recovering) as [_ H].
  destruct (H (mkAuthRef "sess-x" "signature") eq_refl) as [Hmissing _].
  apply Hmissing. reflexivity.
Defined.

Lemma upsertSession_ids (s : Session) (l : list Session) :
  map sess_id (upsertSession s l)
  = if existsb (fun x => String.eqb (sess_id x) (sess_id s)) l
    then map sess_id l else (map sess_id l ++ [sess_id s])%list.
Proof.
  induction l as [| x l IH]; [reflexivity |]. cbn.
  destruct (String.eqb (sess_id x) (sess_id s)) eqn:E; cbn.
  - apply String.eqb_eq in E. now rewrite E.
  - rewrite IH. now destruct (existsb _ l).
Qed.

Lemma upsertSession_In (s : Session) (l : list Session) : In s (upsertSession s l).
Proof.
  induction l as [| x l IH]; cbn; [now left |].
  destruct (String.eqb (sess_id x) (sess_id s)); [now left | now right].
Qed.

Lemma upsertSession_NoDup (s : Session) (l : list Session) :
  NoDup (map sess_id l) -> NoDup (map sess_id (upsertSession s l)).
Proof.
  intros Hl. rewrite upsertSession_ids.
  destruct (existsb _ l) eqn:E; [exact Hl |].
  apply NoDup_app. split; [exact Hl |]. split; [| apply NoDup_singleton].
  intros id Hin Hs. apply list_elem_of_singleton in Hs. subst id.
  apply list_elem_of_In, in_map_iff in Hin as (x & Hx & Hin).
  assert (X : existsb (fun x => String.eqb (sess_id x) (sess_id s)) l = true).
  { apply existsb_exists. exists x. split; [exact Hin | now apply String.eqb_eq]. }
  congruence.
Qed.

(** X10.  A request with a stored, unexpired session, a good signature and
    a stored account is authenticated: the session is saved with the
    request's device and the current time and keeps its key; the account is
    saved with the session's summary, which carries no key, in its list,
    where it takes the place of the entry with the same id or is added at
    the end, so that session ids that were distinct stay distinct. *)
Theorem authenticate_refreshes_session
    (env : Env) (req : Request) (ctx : Context) (w : World)
    (a : AuthRef) (session : Session) (account : Account) :
  req_auth req = Some a ->
  st_session (storage w) !! ar_session a = Some session ->
  (forall e, sess_expires session = Some e -> (clock w <= e)%nat) ->
  session_verify env session req = true ->
  st_account (storage w) !! sess_account session = Some account ->
  let session' :=
    mkSession (sess_id session) (sess_account session) (sess_key session) (ctx_device ctx)
              (sess_expires session) (clock w) (clock w) in
  let account' :=
    set_acc_sessions (upsertSession (info session') (acc_sessions account)) account in
  exists w',
    _authenticate env req ctx w
    = (Ok (mkContext (Some session') (Some account') (ctx_device ctx)), w')
    /\ st_session (storage w') !! sess_id session = Some session'
    /\ st_account (storage w') !! acc_id account = Some account'
    /\ In (info session') (acc_sessions account')
    /\ sess_key (info session') = None
    /\ (NoDup (map sess_id (acc_sessions account)) ->
        NoDup (map sess_id (acc_sessions account'))).
Proof.
  intros Ha Hs Hexp Hv Hacc. cbv zeta.
  unfold _authenticate. rewrite Ha.
  unfold bind, try_catch, get_session, get_account, now, storage_get, throw,
    save_session, save_account, modify_storage, ret.
  rewrite Hs. cbn -[Nat.ltb].
  assert (E : match sess_expires session with
              | Some expires => (expires <? clock w)%nat
              | None => false
              end = false).
  { destruct (sess_expires session) as [e |]; [| reflexivity].
    apply Nat.ltb_ge. now apply Hexp. }
  rewrite E, Hv. cbn. rewrite Hacc. cbn.
  eexists. split; [reflexivity |]. cbn.
  split; [apply lookup_insert_eq |]. split; [apply lookup_insert_eq |].
  split; [apply upsertSession_In |]. split; [reflexivity |].
  apply upsertSession_NoDup.
Qed.

Lemma authenticate_refreshes_session_witness :
  exists ctx' w',
    _authenticate Sample.env Scenario.bobRequest Sample.anonymous Sample.recovering
    = (Ok ctx', w')
    /\ st_account (storage w') !! "acc-bob" = ctx_account ctx'.
Proof.
  destruct (authenticate_refreshes_session Sample.env Scenario.bobRequest Sample.anonymous
              Sample.recovering (mkAuthRef "sess-b" "signature") Sample.bobSession
              Sample.bobRecovering eq_refl eq_refl ltac:(discriminate) eq_refl eq_refl)
    as (w' & E & _ & Hacc & _).
  eexists. exists w'. split; [exact E | exact Hacc].
Defined.

(** ** Revoking a session *)

Lemma authenticate_missing_session (env : Env) (req : Request) (ctx : Context) (w : World)
    (a : AuthRef) :
  req_auth req = Some a ->
  st_session (storage w) !! ar_session a = None ->
  _authenticate env req ctx w = (Throw (Err INVALID_SESSION), w).
Proof.
  intros Ha Hn. unfold _authenticate. rewrite Ha.
  unfold bind, try_catch, get_session. now rewrite (storage_get_none _ _ _ Hn).
Qed.

Lemma findIndex_found {A} (f : A -> bool) (l : list A) :
  existsb f l = true ->
  exists n, findIndex f l = Z.of_nat n
            /\ (n < length l)%nat
            /\ (firstn n l ++ skipn (S n) l)%list = removeFirst f l.
Proof.
  induction l as [| x l IH]; [discriminate |]. cbn [existsb findIndex removeFirst].
  destruct (f x) eqn:E.
  - intros _. exists 0%nat. cbn. split; [reflexivity |]. split; [lia |]. now rewrite drop_0.
  - cbn [orb]. intros H. destruct (IH H) as (n & Hi & Hn & Hl). rewrite Hi.
    destruct (Z.ltb_spec (Z.of_nat n) 0); [lia |].
    exists (S n). split; [lia |]. split; [cbn; lia |]. cbn. now rewrite <- Hl.
Qed.

Lemma findIndex_missing {A} (f : A -> bool) (l : list A) :
  existsb f l = false -> findIndex f l = -1.
Proof.
  induction l as [| x l IH]; [reflexivity |]. cbn.
  destruct (f x); [discriminate |]. cbn. intros H. now rewrite (IH H).
Qed.

(** [l.splice(l.findIndex(f), 1)]: the first element that passes the test
    goes; when there is none, the index is [-1] and the last element goes. *)
Lemma splice1_findIndex {A} (f : A -> bool) (l : list A) :
  splice1 (findIndex f l) l = if existsb f l then removeFirst f l else removelast l.
Proof.
  destruct (existsb f l) eqn:E.
  - destruct (findIndex_found f l E) as (n & Hi & Hn & Hl). rewrite Hi.
    unfold splice1. destruct (Z.ltb_spec (Z.of_nat n) 0); [lia |].
    rewrite Z.min_l by lia. now rewrite Nat2Z.id.
  - rewrite (findIndex_missing f l E). unfold splice1. cbn [Z.ltb Z.compare].
    destruct l as [| x l]; [reflexivity |].
    replace (Z.to_nat (Z.max (Z.of_nat (length (x :: l)) + -1) 0)) with (length l)
      by (cbn [length]; lia).
    replace (skipn (S (length l)) (x :: l)) with (@nil A)
      by (symmetry; apply skipn_all2; cbn; lia).
    rewrite app_nil_r. symmetry. apply (removelast_firstn_len (x :: l)).
Qed.

Section RevokeSession.

Variables (ctx : Context) (session : Session) (account : Account).
Hypothesis Hsession : ctx_session ctx = Some session.
Hypothesis Haccount : ctx_account ctx = Some account.
Variables (w : World) (id : string).

Lemma revokeSession_missing :
  st_session (storage w) !! id = None ->
  revokeSession ctx id w = (Throw (Err NOT_FOUND), w).
Proof.
  intros Hn. unfold revokeSession.
  rewrite (bind_ok _ _ _ _ _ (requireAuth_ok ctx session account Hsession Haccount w)).
  cbn [fst]. unfold get_session.
  now rewrite (bind_throw _ _ _ _ _ (storage_get_none st_session _ _ Hn)).
Qed.

Lemma revokeSession_foreign revoked :
  st_session (storage w) !! id = Some revoked ->
  sess_account revoked <> acc_id account ->
  revokeSession ctx id w = (Throw (Err INSUFFICIENT_PERMISSIONS), w).
Proof.
  intros Hs Hne. unfold revokeSession.
  rewrite (bind_ok _ _ _ _ _ (requireAuth_ok ctx session account Hsession Haccount w)).
  cbn [fst]. unfold get_session.
  rewrite (bind_ok _ _ _ _ _ (storage_get_some st_session _ _ _ Hs)).
  now rewrite (eqb_false_of_neq _ _ Hne).
Qed.

Lemma revokeSession_own revoked :
  st_session (storage w) !! id = Some revoked ->
  sess_account revoked = acc_id account ->
  let listed := fun s => String.eqb (sess_id s) id in
  let account' :=
    set_acc_sessions (if existsb listed (acc_sessions account)
                      then removeFirst listed (acc_sessions account)
                      else removelast (acc_sessions account)) account in
  revokeSession ctx id w
  = (Ok tt,
     set_storage (with_account <[acc_id account := account']>
                    (with_session (delete (sess_id revoked)) (storage w))) w).
Proof.
  intros Hs He. cbv zeta. unfold revokeSession.
  rewrite (bind_ok _ _ _ _ _ (requireAuth_ok ctx session account Hsession Haccount w)).
  cbn [fst]. unfold get_session.
  rewrite (bind_ok _ _ _ _ _ (storage_get_some st_session _ _ _ Hs)).
  rewrite (eqb_true_of_eq _ _ He). cbn [negb]. rewrite splice1_findIndex.
  reflexivity.
Qed.

End RevokeSession.

(** X11.  [revokeSession] by an authenticated account: an id without a
    stored session fails NOT_FOUND and the session of another account fails
    INSUFFICIENT_PERMISSIONS, both without a change.  For a session of the
    caller, stored under its id, the call succeeds, the Session record is
    deleted, and the account is saved with the first list entry of that id
    removed; when the account lists no entry of that id, its last entry is
    removed instead.  A request signed with the revoked session is then
    rejected as INVALID_SESSION. *)
Theorem revokeSession_effects
    (env : Env) (ctx : Context) (session : Session) (account : Account)
    (w : World) (id : string) :
  ctx_session ctx = Some session ->
  ctx_account ctx = Some account ->
  (st_session (storage w) !! id = None ->
   revokeSession ctx id w = (Throw (Err NOT_FOUND), w))
  /\ forall revoked,
       st_session (storage w) !! id = Some revoked ->
       (sess_account revoked <> acc_id account ->
        revokeSession ctx id w = (Throw (Err INSUFFICIENT_PERMISSIONS), w))
       /\ (sess_account revoked = acc_id account ->
           sess_id revoked = id ->
           let w' := snd (revokeSession ctx id w) in
           let listed := fun s => String.eqb (sess_id s) id in
           fst (revokeSession ctx id w) = Ok tt
           /\ st_session (storage w') !! id = None
           /\ st_account (storage w') !! acc_id account
              = Some (set_acc_sessions
                        (if existsb listed (acc_sessions account)
                         then removeFirst listed (acc_sessions account)
                         else removelast (acc_sessions account)) account)
           /\ forall req ctx' signature,
                req_auth req = Some (mkAuthRef id signature) ->
                _authenticate env req ctx' w' = (Throw (Err INVALID_SESSION), w')).
Proof.
  intros Hs Ha. split.
  - now apply (revokeSession_missing ctx session account Hs Ha).
  - intros revoked Hr. split.
    + now apply (revokeSession_foreign ctx session account Hs Ha).
    + intros Hown Hid. cbv zeta.
      rewrite (revokeSession_own ctx session account Hs Ha w id revoked Hr Hown).
      cbn [fst snd]. split; [reflexivity |].
      assert (Hgone : st_session
                        (storage
                           (set_storage
                              (with_account
                                 <[acc_id account :=
                                     set_acc_sessions
                                       (if existsb (fun s => String.eqb (sess_id s) id)
                                                   (acc_sessions account)
                                        then removeFirst (fun s => String.eqb (sess_id s) id)
                                                         (acc_sessions account)
                                        else removelast (acc_sessions account)) account]>
                                 (with_session (delete (sess_id revoked)) (storage w))) w))
                      !! id = None).
      { cbn. rewrite Hid. apply lookup_delete_eq. }
      split; [exact Hgone |]. split; [cbn; apply lookup_insert_eq |].
      intros req ctx' signature Hreq.
      now apply (authenticate_missing_session env req ctx' _ (mkAuthRef id signature)).
Qed.

Lemma revokeSession_effects_witness :
  let w' := snd (revokeSession Scenario.asBobRecovering "sess-b" Sample.recovering) in
  fst (revokeSession Scenario.asBobRecovering "sess-b" Sample.recovering) = Ok tt
  /\ st_session (storage w') !! "sess-b" = None
  /\ _authenticate Sample.env Scenario.bobRequest Sample.anonymous w'
     = (Throw (Err INVALID_SESSION), w').
Proof.
  destruct (revokeSession_effects Sample.env Scenario.asBobRecovering Sample.bobSession
              Sample.bobRecovering Sample.recovering "sess-b" eq_refl eq_refl) as [_ H].
  destruct (H Sample.bobSession eq_refl) as [_ Hown].
  destruct (Hown eq_refl eq_refl) as (Hok & Hgone & _ & Hauth).
  cbv zeta. split; [exact Hok |]. split; [exact Hgone |].
  apply (Hauth Scenario.bobRequest Sample.anonymous "signature"). reflexivity.
Defined.

(** ** Sessions after a recovery *)

(** The walk through a method for a property that the primitives met on the
    way keep by computation. *)
Ltac keeps_frame :=
  repeat
    match goal with
    | |- preserves _ (ret _) => apply preserves_ret
    | |- preserves _ (throw _) => apply preserves_throw
    | |- preserves _ (bind _ _) => apply preserves_bind; [| intros ?]
    | |- preserves _ (try_catch _ _) => apply preserves_try_catch; [| intros ?]
    | |- preserves _ (floating _) => apply preserves_floating
    | |- preserves _ (for_each _ _) => apply preserves_for_each; intros ?
    | |- preserves _ (storage_get _ _) => apply preserves_storage_get
    | |- preserves _ (att_get _ _) => apply preserves_att_get
    | |- preserves _ (if ?c then _ else _) => destruct c
    | |- preserves _ (match ?x with _ => _ end) => destruct x
    | |- preserves _ _ => solve [let H := fresh in intros ? H; exact H]
    end.

Lemma suspend_loop_keeps_sessions (env : Env) (accid : string) (l : list Session)
    (ids : list string) :
  preserves (sessionsGone l)
    (for_each ids (fun id =>
       org <~ get_org id ;;
       if negb (isOwner env org accid) then
         match getMember org accid with
         | None => throw TypeError
         | Some _ =>
             save_org (set_org_members
                         (update_member accid (set_mem_role Suspended) (org_members org))
                         org)
         end
       else ret tt)).
Proof. unfold get_org. keeps_frame. Qed.

Lemma recoverAccount_run
    (env : Env) (ctx : Context) (upd : Account) (auth : Auth) (verify : string)
    (w : World) (existing : Auth) (account result : Account) :
  st_auth (storage w) !! auth_email auth = Some existing ->
  st_account (storage w) !! auth_account existing = Some account ->
  fst (recoverAccount env ctx upd auth verify w) = Ok result ->
  let w' := snd (recoverAccount env ctx upd auth verify w) in
  sessionsGone (acc_sessions account) w'
  /\ st_account (storage w') !! acc_id account = Some result
  /\ result = mkAccount (acc_id account) (acc_email upd) (acc_name account)
                        (acc_publicKey upd) (acc_keyParams upd) (acc_encryptionParams upd)
                        (acc_encryptedData upd) (acc_revision account)
                        (acc_sessions account) (acc_orgs account) (acc_quota account)
                        (acc_mainVault account) (acc_updated account).
Proof.
  intros Hauth Hacc Hok.
  destruct (recoverAccount env ctx upd auth verify w) as [res w'] eqn:Hr.
  cbn in Hok. subst res. cbn [snd].
  unfold recoverAccount in Hr.
  apply bind_inv in Hr as ([] & w1 & Hcheck & Hr).
  destruct (checkToken_frame (auth_email auth) verify w) as [evs Hf].
  rewrite Hcheck in Hf. cbn [snd] in Hf. subst w1.
  apply bind_inv in Hr as (existing' & w1 & Hget & Hr).
  unfold get_auth, storage_get in Hget. cbn in Hget. rewrite Hauth in Hget.
  injection Hget as E1 E2. subst existing' w1.
  apply bind_inv in Hr as (account' & w1 & Hget & Hr).
  unfold get_account, storage_get in Hget. cbn in Hget. rewrite Hacc in Hget.
  injection Hget as E1 E2. subst account' w1.
  apply bind_inv in Hr as (created & w1 & Hnow & Hr).
  unfold now in Hnow. injection Hnow as E1 E2. subst created w1.
  apply bind_inv in Hr as (updated & w1 & Hnow & Hr).
  unfold now in Hnow. injection Hnow as E1 E2. subst updated w1.
  apply bind_inv in Hr as ([] & w2 & Hrevoke & Hr).
  cbn [acc_sessions acc_orgs acc_id] in Hrevoke, Hr.
  destruct (revoke_loop (acc_sessions account)
              (set_storage (with_ev (fun _ => evs) (storage w)) w))
    as (w2' & E & _ & _ & _ & Hgone).
  rewrite Hrevoke in E. injection E as <-.
  apply bind_inv in Hr as ([] & w3 & Hloop & Hr).
  assert (Hgone3 : sessionsGone (acc_sessions account) w3).
  { pose proof (suspend_loop_keeps_sessions env (acc_id account) (acc_sessions account)
                  (acc_orgs account) w2 Hgone) as H.
    now rewrite Hloop in H. }
  unfold bind, save_account, save_auth, save_vault, modify_storage, ret in Hr.
  cbn in Hr. injection Hr as <- <-. cbn.
  split; [exact Hgone3 |]. split; [apply lookup_insert_eq | reflexivity].
Qed.

(** X12.  After a successful [recoverAccount] for a stored account, a
    request signed with any session that was listed on the account is
    rejected as INVALID_SESSION.  The account itself is saved with the keys
    and data of the request and otherwise as it was: its id, name, revision,
    quota, organisations and main vault are kept, and so is its list of
    sessions, which goes on naming the deleted sessions. *)
Theorem recoverAccount_invalidates_sessions
    (env : Env) (ctx : Context) (upd : Account) (auth : Auth) (verify : string)
    (w : World) (existing : Auth) (account result : Account) :
  st_auth (storage w) !! auth_email auth = Some existing ->
  st_account (storage w) !! auth_account existing = Some account ->
  fst (recoverAccount env ctx upd auth verify w) = Ok result ->
  let w' := snd (recoverAccount env ctx upd auth verify w) in
  (forall req ctx' a s,
     req_auth req = Some a -> In s (acc_sessions account) -> sess_id s = ar_session a ->
     _authenticate env req ctx' w' = (Throw (Err INVALID_SESSION), w'))
  /\ st_account (storage w') !! acc_id account = Some result
  /\ acc_sessions result = acc_sessions account
  /\ acc_id result = acc_id account
  /\ acc_name result = acc_name account
  /\ acc_revision result = acc_revision account
  /\ acc_quota result = acc_quota account
  /\ acc_orgs result = acc_orgs account
  /\ acc_mainVault result = acc_mainVault account
  /\ acc_publicKey result = acc_publicKey upd
  /\ acc_encryptedData result = acc_encryptedData upd.
Proof.
  intros Hauth Hacc Hok. cbv zeta.
  destruct (recoverAccount_run env ctx upd auth verify w existing account result
              Hauth Hacc Hok) as (Hgone & Hst & ->).
  split.
  - intros req ctx' a s Hreq Hs Hid.
    apply (authenticate_missing_session env req ctx' _ a Hreq).
    rewrite <- Hid. now apply Hgone.
  - split; [exact Hst |]. cbn. repeat split.
Qed.

Lemma recoverAccount_invalidates_sessions_witness :
  let w' := snd (recoverAccount Sample.env Sample.anonymous Sample.recoveredBob
                                Sample.recoveredAuth "tok-bob" Sample.recovering) in
  _authenticate Sample.env Scenario.bobRequest Sample.anonymous w'
  = (Throw (Err INVALID_SESSION), w').
Proof.
  assert (Hok : exists result,
             fst (recoverAccount Sample.env Sample.anonymous Sample.recoveredBob
                                 Sample.recoveredAuth "tok-bob" Sample.recovering)
             = Ok result)
    by (eexists; vm_compute; reflexivity).
  destruct Hok as [result Hok].
  destruct (recoverAccount_invalidates_sessions Sample.env Sample.anonymous
              Sample.recoveredBob Sample.recoveredAuth "tok-bob" Sample.recovering
              Sample.bobAuth Sample.bobRecovering result eq_refl eq_refl Hok) as [H _].
  cbv zeta.
  apply (H Scenario.bobRequest Sample.anonymous (mkAuthRef "sess-b" "signature")
           (info Sample.bobSession)); [reflexivity | now left | reflexivity].
Defined.

(** ** Auth records *)

(** X13.  [updateAuth] writes the Auth record of the caller's own email and
    no other: with a session and an account whose email is that of the
    supplied record it stores the record as supplied under that email; with
    another email it fails INSUFFICIENT_PERMISSIONS and without a session or
    account INVALID_SESSION, changing nothing; whatever the outcome, the
    record stored under any email other than the caller's stays as it is. *)
Theorem updateAuth_only_own_record (ctx : Context) (auth : Auth) (w : World) :
  (forall session account,
     ctx_session ctx = Some session -> ctx_account ctx = Some account ->
     (auth_email auth = acc_email account ->
      updateAuth ctx auth w
      = (Ok tt, set_storage (with_auth <[acc_email account := auth]> (storage w)) w))
     /\ (auth_email auth <> acc_email account ->
         updateAuth ctx auth w = (Throw (Err INSUFFICIENT_PERMISSIONS), w)))
  /\ (ctx_session ctx = None \/ ctx_account ctx = None ->
      updateAuth ctx auth w = (Throw (Err INVALID_SESSION), w))
  /\ (forall email,
        (forall account, ctx_account ctx = Some account -> acc_email account <> email) ->
        st_auth (storage (snd (updateAuth ctx auth w))) !! email
        = st_auth (storage w) !! email).
Proof.
  split; [| split].
  - intros session account Hs Ha. unfold updateAuth.
    rewrite (bind_ok _ _ _ _ _ (requireAuth_ok ctx session account Hs Ha w)). cbn [fst].
    split.
    + intros E. rewrite <- E, String.eqb_refl. reflexivity.
    + intros Hne. rewrite eqb_false_of_neq by congruence. reflexivity.
  - intros H. unfold updateAuth, _requireAuth, bind.
    destruct H as [-> | ->]; [reflexivity |]. now destruct (ctx_session ctx).
  - intros email Hne. unfold updateAuth, _requireAuth, bind.
    destruct (ctx_session ctx) as [session |]; [| reflexivity].
    destruct (ctx_account ctx) as [account |]; [| reflexivity]. cbn.
    destruct (String.eqb (acc_email account) (auth_email auth)) eqn:E; [| reflexivity].
    apply String.eqb_eq in E. cbn. rewrite lookup_insert_ne; [reflexivity |].
    rewrite <- E. now apply Hne.
Qed.

Lemma updateAuth_only_own_record_witness :
  updateAuth Sample.asBob Sample.aliceAuth Sample.world
  = (Throw (Err INSUFFICIENT_PERMISSIONS), Sample.world)
  /\ st_auth (storage (snd (updateAuth Sample.asBob Sample.bobAuth Sample.world)))
       !! "alice@example.com" = Some Sample.aliceAuth.
Proof.
  destruct (updateAuth_only_own_record Sample.asBob Sample.aliceAuth Sample.world)
    as (Hown & _ & _).
  destruct (updateAuth_only_own_record Sample.asBob Sample.bobAuth Sample.world)
    as (_ & _ & Hother).
  destruct (Hown Sample.bobSession Sample.bob eq_refl eq_refl) as [_ Hne].
  split.
  - apply Hne. discriminate.
  - rewrite (Hother "alice@example.com"); [reflexivity |].
    intros account [= <-]. discriminate.
Defined.

(** ** Creating an organisation *)

Lemma get_all_orgs (ids : list string) (orgs : list Org) (w : World) :
  Forall2 (fun id o => st_org (storage w) !! id = Some o) ids orgs ->
  get_all get_org ids w = (Ok orgs, w).
Proof.
  induction 1 as [| id o ids orgs Ho _ IH]; [reflexivity |]. cbn [get_all].
  unfold get_org at 1. rewrite (bind_ok _ _ _ _ _ (storage_get_some st_org _ _ _ Ho)).
  now rewrite (bind_ok _ _ _ _ _ IH).
Qed.

(** X14.  [createOrg] by an authenticated account whose listed
    organisations are stored: an empty name fails BAD_REQUEST; when the
    account's quota of organisations is not [-1] and the number of listed
    organisations that it owns has reached the quota, the call fails
    QUOTA_EXCEEDED; both change nothing.  Otherwise the organisation is
    stored under a new id with a new revision and the caller as its owner,
    and no account is changed: the new organisation is not added to the
    caller's list. *)
Theorem createOrg_quota
    (env : Env) (ctx : Context) (session : Session) (account : Account)
    (org : Org) (orgs : list Org) (w : World) :
  ctx_session ctx = Some session ->
  ctx_account ctx = Some account ->
  Forall2 (fun id o => st_org (storage w) !! id = Some o) (acc_orgs account) orgs ->
  let owned := length (List.filter (fun o => String.eqb (org_owner o) (acc_id account)) orgs) in
  let quota := aq_orgs (acc_quota account) in
  (org_name org = "" -> createOrg env ctx org w = (Throw (Err BAD_REQUEST), w))
  /\ (org_name org <> "" -> quota <> -1 -> quota <= Z.of_nat owned ->
      createOrg env ctx org w = (Throw (Err QUOTA_EXCEEDED), w))
  /\ (org_name org <> "" -> quota = -1 \/ Z.of_nat owned < quota ->
      exists org' w',
        createOrg env ctx org w = (Ok org', w')
        /\ org_id org' = uuid_gen env (entropy w)
        /\ org_revision org' = uuid_gen env (S (entropy w))
        /\ org_owner org' = acc_id account
        /\ org_name org' = org_name org
        /\ org_members org' = org_members org
        /\ st_org (storage w') = <[org_id org' := org']> (st_org (storage w))
        /\ st_account (storage w') = st_account (storage w)).
Proof.
  intros Hs Ha Horgs. cbv zeta. unfold createOrg.
  rewrite (bind_ok _ _ _ _ _ (requireAuth_ok ctx session account Hs Ha w)). cbn [fst].
  split; [| split].
  - intros ->. reflexivity.
  - intros Hn Hq Hle. rewrite (eqb_false_of_neq _ _ Hn).
    rewrite (bind_ok _ _ _ _ _ (get_all_orgs _ _ _ Horgs)).
    destruct (Z.eqb_spec (aq_orgs (acc_quota account)) (-1)) as [E | _]; [contradiction |].
    cbn [negb andb]. rewrite (proj2 (Z.geb_le _ _)) by exact Hle. reflexivity.
  - intros Hn Hq. rewrite (eqb_false_of_neq _ _ Hn).
    rewrite (bind_ok _ _ _ _ _ (get_all_orgs _ _ _ Horgs)).
    assert (E : negb (aq_orgs (acc_quota account) =? -1)
                && (Z.of_nat (length (List.filter
                                        (fun o => String.eqb (org_owner o) (acc_id account))
                                        orgs)) >=? aq_orgs (acc_quota account)) = false).
    { destruct Hq as [-> | Hlt]; [reflexivity |].
      apply andb_false_iff. right. rewrite Z.geb_leb. apply Z.leb_gt. exact Hlt. }
    rewrite E. unfold bind, uuid, draw, save_org, modify_storage, ret, bind. cbn.
    eexists. eexists. split; [reflexivity |]. cbn. repeat split.
Qed.

Lemma createOrg_quota_witness :
  createOrg Sample.env Sample.asAlice Sample.org2 Sample.world
  = (Throw (Err QUOTA_EXCEEDED), Sample.world)
  /\ exists org' w',
       createOrg Sample.env Sample.asBob Sample.org2 Sample.world = (Ok org', w')
       /\ org_owner org' = "acc-bob"
       /\ st_account (storage w') = st_account (storage Sample.world).
Proof.
  assert (Horgs : forall a, acc_orgs a = ["org-1"] ->
            Forall2 (fun id o => st_org (storage Sample.world) !! id = Some o)
                    (acc_orgs a) [Sample.org1]).
  { intros a ->. repeat constructor. }
  destruct (createOrg_quota Sample.env Sample.asAlice Sample.aliceSession Sample.alice
              Sample.org2 [Sample.org1] Sample.world eq_refl eq_refl
              (Horgs Sample.alice eq_refl)) as (_ & Hfull & _).
  destruct (createOrg_quota Sample.env Sample.asBob Sample.bobSession Sample.bob
              Sample.org2 [Sample.org1] Sample.world eq_refl eq_refl
              (Horgs Sample.bob eq_refl)) as (_ & _ & Hroom).
  split.
  - apply Hfull; [discriminate | discriminate | cbn; lia].
  - destruct Hroom as (org' & w' & E & _ & _ & Ho & _ & _ & _ & Hacc).
    + discriminate.
    + right. cbn. lia.
    + exists org', w'. repeat split; assumption.
Defined.

(** ** Creating and deleting vaults *)

Section CreateVaultFacts.

Variable env : Env.
Variables (ctx : Context) (session : Session) (account : Account).
Hypothesis Hsession : ctx_session ctx = Some session.
Hypothesis Haccount : ctx_account ctx = Some account.
Variables (w : World) (vault : Vault) (ref : VaultRef) (org : Org).
Hypothesis Href : vault_org vault = Some ref.
Hypothesis Horg : st_org (storage w) !! vr_id ref = Some org.

Lemma createVault_not_admin :
  isAdmin env org (acc_id account) = false ->
  createVault env ctx vault w = (Throw (Err INSUFFICIENT_PERMISSIONS), w).
Proof.
  intros Hadm. unfold createVault.
  rewrite (bind_ok _ _ _ _ _ (requireAuth_ok ctx session account Hsession Haccount w)).
  cbn [fst]. rewrite Href. unfold get_org.
  rewrite (bind_ok _ _ _ _ _ (storage_get_some st_org _ _ _ Horg)). now rewrite Hadm.
Qed.

Hypothesis Hadmin : isAdmin env org (acc_id account) = true.

Lemma createVault_full :
  oq_vaults (org_quota org) <> -1 ->
  oq_vaults (org_quota org) < Z.of_nat (S (length (org_vaults org))) ->
  fst (createVault env ctx vault w) = Throw (Err QUOTA_EXCEEDED)
  /\ storage (snd (createVault env ctx vault w)) = storage w.
Proof.
  intros Hq Hlt. unfold createVault.
  rewrite (bind_ok _ _ _ _ _ (requireAuth_ok ctx session account Hsession Haccount w)).
  cbn [fst]. rewrite Href. unfold get_org.
  rewrite (bind_ok _ _ _ _ _ (storage_get_some st_org _ _ _ Horg)). rewrite Hadmin.
  unfold bind, uuid, draw, now, ret, bind. cbn -[Z.of_nat].
  rewrite length_app. cbn [length]. rewrite Nat.add_1_r.
  unfold exceeds. destruct (Z.eqb_spec (oq_vaults (org_quota org)) (-1)); [contradiction |].
  cbn [negb andb]. rewrite (proj2 (Z.gtb_gt _ _)) by lia. now split.
Qed.

Lemma createVault_room :
  within (S (length (org_vaults org))) (oq_vaults (org_quota org)) ->
  let v :=
    mkVault (uuid_gen env (entropy w)) (vault_name vault) (Some (acc_id account))
            (Some ref) (uuid_gen env (S (entropy w))) (vault_keyParams vault)
            (vault_encryptionParams vault) (vault_accessors vault)
            (vault_encryptedData vault) (clock w) (clock w) in
  let org' :=
    set_org_revision (uuid_gen env (S (S (entropy w))))
      (set_org_vaults (org_vaults org ++ [mkVaultRef (vault_id v) (vault_name v)]) org) in
  createVault env ctx vault w
  = (Ok v,
     mkWorld (with_org <[org_id org := org']> (with_vault <[vault_id v := v]> (storage w)))
             (pendingAuths w) (outbox w) (attachments w) (clock w)
             (S (S (S (entropy w))))).
Proof.
  intros Hq. cbv zeta. unfold createVault.
  rewrite (bind_ok _ _ _ _ _ (requireAuth_ok ctx session account Hsession Haccount w)).
  cbn [fst]. rewrite Href. unfold get_org.
  rewrite (bind_ok _ _ _ _ _ (storage_get_some st_org _ _ _ Horg)). rewrite Hadmin.
  unfold bind, uuid, draw, now, ret, bind. cbn -[Z.of_nat exceeds].
  rewrite length_app. cbn [length]. rewrite Nat.add_1_r.
  rewrite (exceeds_false _ _ Hq). reflexivity.
Qed.

End CreateVaultFacts.

(** X15.  [createVault] by an authenticated account for a stored
    organisation: a caller who is not an admin of it fails
    INSUFFICIENT_PERMISSIONS and changes nothing; for an admin, when the
    vault quota is not [-1] and the organisation already lists as many
    vaults as the quota allows, the call fails QUOTA_EXCEEDED and leaves the
    storage as it is; otherwise the vault is stored under a new id with a
    new revision, and the organisation is saved with the vault added at the
    end of its list and a new revision of its own. *)
Theorem createVault_outcomes
    (env : Env) (ctx : Context) (session : Session) (account : Account)
    (w : World) (vault : Vault) (ref : VaultRef) (org : Org) :
  ctx_session ctx = Some session ->
  ctx_account ctx = Some account ->
  vault_org vault = Some ref ->
  st_org (storage w) !! vr_id ref = Some org ->
  let quota := oq_vaults (org_quota org) in
  let w' := snd (createVault env ctx vault w) in
  (isAdmin env org (acc_id account) = false ->
   createVault env ctx vault w = (Throw (Err INSUFFICIENT_PERMISSIONS), w))
  /\ (isAdmin env org (acc_id account) = true ->
      (quota <> -1 -> quota <= Z.of_nat (length (org_vaults org)) ->
       fst (createVault env ctx vault w) = Throw (Err QUOTA_EXCEEDED)
       /\ storage w' = storage w)
      /\ (quota = -1 \/ Z.of_nat (length (org_vaults org)) < quota ->
          exists v org',
            fst (createVault env ctx vault w) = Ok v
            /\ vault_id v = uuid_gen env (entropy w)
            /\ vault_revision v = uuid_gen env (S (entropy w))
            /\ st_vault (storage w') = <[vault_id v := v]> (st_vault (storage w))
            /\ st_org (storage w') = <[org_id org := org']> (st_org (storage w))
            /\ org_vaults org'
               = (org_vaults org ++ [mkVaultRef (vault_id v) (vault_name vault)])%list
            /\ org_revision org' = uuid_gen env (S (S (entropy w)))
            /\ org_members org' = org_members org)).
Proof.
  intros Hs Ha Href Horg. cbv zeta. split.
  - now apply (createVault_not_admin env ctx session account Hs Ha w vault ref org).
  - intros Hadm. split.
    + intros Hq Hle.
      apply (createVault_full env ctx session account Hs Ha w vault ref org Href Horg Hadm Hq).
      lia.
    + intros Hq.
      rewrite (createVault_room env ctx session account Hs Ha w vault ref org Href Horg Hadm).
      * eexists. eexists. cbn. repeat split.
      * unfold within. destruct Hq as [-> | Hlt]; [now left | right; lia].
Qed.

Lemma createVault_outcomes_witness :
  createVault Sample.env Sample.asBob Sample.newSharedVault Sample.world
  = (Throw (Err INSUFFICIENT_PERMISSIONS), Sample.world)
  /\ exists v org',
       fst (createVault Sample.env Sample.asAlice Sample.newSharedVault Sample.world) = Ok v
       /\ vault_id v = "id-0"
       /\ org_vaults org' = [mkVaultRef "vault-shared" "Shared"; mkVaultRef "id-0" "Second"].
Proof.
  destruct (createVault_outcomes Sample.env Sample.asBob Sample.bobSession Sample.bob
              Sample.world Sample.newSharedVault (mkVaultRef "org-1" "Org One") Sample.org1
              eq_refl eq_refl eq_refl eq_refl) as [Hno _].
  destruct (createVault_outcomes Sample.env Sample.asAlice Sample.aliceSession Sample.alice
              Sample.world Sample.newSharedVault (mkVaultRef "org-1" "Org One") Sample.org1
              eq_refl eq_refl eq_refl eq_refl) as [_ Hyes].
  split; [apply Hno; reflexivity |].
  destruct (Hyes eq_refl) as [_ Hroom].
  destruct Hroom as (v & org' & Hok & Hid & _ & _ & _ & Hvs & _); [right; cbn; lia |].
  exists v, org'. rewrite Hid in Hvs. repeat split; assumption.
Defined.

Lemma holdsVault_unassign (vault : string) (l : list Assignment) :
  holdsVault vault (unassign vault l) = false.
Proof.
  unfold holdsVault, unassign. induction l as [| a l IH]; [reflexivity |]. cbn.
  destruct (String.eqb (as_id a) vault) eqn:E; cbn; [exact IH |]. now rewrite E.
Qed.

Lemma unassignMembers_free (vault : string) (l : list OrgMember) :
  forall m, In m (unassignMembers vault l) -> holdsVault vault (mem_vaults m) = false.
Proof.
  intros m Hm. apply in_map_iff in Hm as (m0 & <- & _).
  destruct (holdsVault vault (mem_vaults m0)) eqn:E; [| exact E].
  cbn. apply holdsVault_unassign.
Qed.

Lemma unassignGroups_free (vault : string) (l : list Group) :
  forall g, In g (unassignGroups vault l) -> holdsVault vault (grp_vaults g) = false.
Proof.
  intros g Hg. apply in_map_iff in Hg as (g0 & <- & _).
  destruct (holdsVault vault (grp_vaults g0)) eqn:E; [| exact E].
  cbn. apply holdsVault_unassign.
Qed.

Lemma unassignMembers_none (vault : string) (l : list OrgMember) :
  (forall m, In m l -> holdsVault vault (mem_vaults m) = false) ->
  unassignMembers vault l = l.
Proof.
  intros H. unfold unassignMembers. rewrite <- (map_id l) at 2.
  apply map_ext_in. intros m Hm. now rewrite (H m Hm).
Qed.

Lemma unassignGroups_none (vault : string) (l : list Group) :
  (forall g, In g l -> holdsVault vault (grp_vaults g) = false) ->
  unassignGroups vault l = l.
Proof.
  intros H. unfold unassignGroups. rewrite <- (map_id l) at 2.
  apply map_ext_in. intros g Hg. now rewrite (H g Hg).
Qed.

Lemma filter_other_ids {A} (key : A -> string) (id : string) (l : list A) :
  (forall x, In x l -> key x <> id) ->
  List.filter (fun x => negb (String.eqb (key x) id)) l = l.
Proof.
  induction l as [| x l IH]; [reflexivity |]. intros H. cbn.
  rewrite (eqb_false_of_neq _ _ (H x (or_introl eq_refl))). cbn. f_equal.
  apply IH. intros y Hy. apply H. now right.
Qed.

Section DeleteVaultFacts.

Variable env : Env.
Variables (ctx : Context) (session : Session) (account : Account).
Hypothesis Hsession : ctx_session ctx = Some session.
Hypothesis Haccount : ctx_account ctx = Some account.
Variables (w : World) (id : string) (vault : Vault).
Hypothesis Hvault : st_vault (storage w) !! id = Some vault.

Lemma deleteVault_private :
  vault_org vault = None ->
  deleteVault env ctx id w = (Throw (Err INSUFFICIENT_PERMISSIONS), w).
Proof.
  intros Hn. unfold deleteVault.
  rewrite (bind_ok _ _ _ _ _ (requireAuth_ok ctx session account Hsession Haccount w)).
  cbn [fst]. unfold get_vault.
  rewrite (bind_ok _ _ _ _ _ (storage_get_some st_vault _ _ _ Hvault)). now rewrite Hn.
Qed.

Variables (ref : VaultRef) (org : Org).
Hypothesis Href : vault_org vault = Some ref.
Hypothesis Horg : st_org (storage w) !! vr_id ref = Some org.

Lemma deleteVault_not_admin :
  isAdmin env org (acc_id account) = false ->
  deleteVault env ctx id w = (Throw (Err INSUFFICIENT_PERMISSIONS), w).
Proof.
  intros Hadm. unfold deleteVault.
  rewrite (bind_ok _ _ _ _ _ (requireAuth_ok ctx session account Hsession Haccount w)).
  cbn [fst]. unfold get_vault.
  rewrite (bind_ok _ _ _ _ _ (storage_get_some st_vault _ _ _ Hvault)). rewrite Href.
  unfold get_org. rewrite (bind_ok _ _ _ _ _ (storage_get_some st_org _ _ _ Horg)).
  now rewrite Hadm.
Qed.

Lemma deleteVault_admin :
  isAdmin env org (acc_id account) = true ->
  let org' :=
    mkOrg (org_id org) (org_name org) (org_owner org) (org_revision org)
          (org_publicKey org) (org_keyParams org) (org_encryptionParams org)
          (org_encryptedData org) (org_signingParams org) (org_accessors org)
          (unassignMembers (vault_id vault) (org_members org))
          (unassignGroups (vault_id vault) (org_groups org))
          (List.filter (fun v => negb (String.eqb (vr_id v) (vault_id vault)))
                       (org_vaults org))
          (org_invites org) (org_quota org) in
  deleteVault env ctx id w
  = (Ok tt,
     mkWorld (with_org <[org_id org := org']>
                (with_vault (delete (vault_id vault)) (storage w)))
             (pendingAuths w) (outbox w)
             (List.filter (fun x => negb (String.eqb (att_vault x) (vault_id vault)))
                          (attachments w))
             (clock w) (entropy w)).
Proof.
  intros Hadm. cbv zeta. unfold deleteVault.
  rewrite (bind_ok _ _ _ _ _ (requireAuth_ok ctx session account Hsession Haccount w)).
  cbn [fst]. unfold get_vault.
  rewrite (bind_ok _ _ _ _ _ (storage_get_some st_vault _ _ _ Hvault)). rewrite Href.
  unfold get_org. rewrite (bind_ok _ _ _ _ _ (storage_get_some st_org _ _ _ Horg)).
  rewrite Hadm. reflexivity.
Qed.

End DeleteVaultFacts.

(** X16.  [deleteVault] by an authenticated account on a stored vault: a
    private vault (one without an organisation) fails
    INSUFFICIENT_PERMISSIONS, and so does an organisation vault for a caller
    who is not an admin of the organisation; nothing is changed.  For an
    admin the call succeeds: the vault is no longer stored, no attachment of
    it is left, and the organisation is saved without the vault in its list
    and without any member or group assignment to it; the organisation keeps
    its revision. *)
Theorem deleteVault_effects
    (env : Env) (ctx : Context) (session : Session) (account : Account)
    (w : World) (id : string) (vault : Vault) :
  ctx_session ctx = Some session ->
  ctx_account ctx = Some account ->
  st_vault (storage w) !! id = Some vault ->
  vault_id vault = id ->
  (vault_org vault = None ->
   deleteVault env ctx id w = (Throw (Err INSUFFICIENT_PERMISSIONS), w))
  /\ forall ref org,
       vault_org vault = Some ref ->
       st_org (storage w) !! vr_id ref = Some org ->
       (isAdmin env org (acc_id account) = false ->
        deleteVault env ctx id w = (Throw (Err INSUFFICIENT_PERMISSIONS), w))
       /\ (isAdmin env org (acc_id account) = true ->
           let w' := snd (deleteVault env ctx id w) in
           fst (deleteVault env ctx id w) = Ok tt
           /\ st_vault (storage w') !! id = None
           /\ (forall a, In a (attachments w') -> att_vault a <> id)
           /\ exists org',
                st_org (storage w') !! org_id org = Some org'
                /\ (forall v, In v (org_vaults org') -> vr_id v <> id)
                /\ (forall m, In m (org_members org') ->
                              holdsVault id (mem_vaults m) = false)
                /\ (forall g, In g (org_groups org') ->
                              holdsVault id (grp_vaults g) = false)
                /\ org_revision org' = org_revision org).
Proof.
  intros Hs Ha Hv Hid. split.
  - now apply (deleteVault_private env ctx session account Hs Ha w id vault).
  - intros ref org Href Horg. split.
    + now apply (deleteVault_not_admin env ctx session account Hs Ha w id vault Hv ref org).
    + intros Hadm. cbv zeta.
      rewrite (deleteVault_admin env ctx session account Hs Ha w id vault Hv ref org
                 Href Horg Hadm).
      cbn [fst snd]. rewrite Hid. split; [reflexivity |]. split; [| split].
      * cbn. apply lookup_delete_eq.
      * intros a Hin. cbn in Hin. apply filter_In in Hin as [_ Hne].
        apply negb_true_iff, String.eqb_neq in Hne. exact Hne.
      * eexists. split; [cbn; apply lookup_insert_eq |]. cbn. split; [| split; [| split]].
        -- intros v Hin. apply filter_In in Hin as [_ Hne].
           apply negb_true_iff, String.eqb_neq in Hne. exact Hne.
        -- apply unassignMembers_free.
        -- apply unassignGroups_free.
        -- reflexivity.
Qed.

Lemma deleteVault_effects_witness :
  deleteVault Sample.env Sample.asAlice "vault-alice" Sample.world
  = (Throw (Err INSUFFICIENT_PERMISSIONS), Sample.world)
  /\ deleteVault Sample.env Sample.asBob "vault-shared" Sample.world
     = (Throw (Err INSUFFICIENT_PERMISSIONS), Sample.world)
  /\ st_vault (storage (snd (deleteVault Sample.env Sample.asAlice "vault-shared"
                                         Sample.world))) !! "vault-shared" = None.
Proof.
  destruct (deleteVault_effects Sample.env Sample.asAlice Sample.aliceSession Sample.alice
              Sample.world "vault-alice" Sample.aliceVault eq_refl eq_refl eq_refl eq_refl)
    as [Hprivate _].
  destruct (deleteVault_effects Sample.env Sample.asBob Sample.bobSession Sample.bob
              Sample.world "vault-shared" Sample.sharedVault eq_refl eq_refl eq_refl eq_refl)
    as [_ Hbob].
  destruct (deleteVault_effects Sample.env Sample.asAlice Sample.aliceSession Sample.alice
              Sample.world "vault-shared" Sample.sharedVault eq_refl eq_refl eq_refl eq_refl)
    as [_ Halice].
  split; [apply Hprivate; reflexivity |]. split.
  - destruct (Hbob (mkVaultRef "org-1" "Org One") Sample.org1 eq_refl eq_refl) as [H _].
    apply H. reflexivity.
  - destruct (Halice (mkVaultRef "org-1" "Org One") Sample.org1 eq_refl eq_refl) as [_ H].
    destruct (H eq_refl) as (_ & Hgone & _). exact Hgone.
Defined.

(** X17.  Creating a vault and deleting it again: when [createVault] has
    succeeded with an id that neither a stored vault nor an entry of the
    organisation's list had, and the caller is still an admin of the
    organisation as saved, [deleteVault] of the new id succeeds and the
    stored vaults and the organisation's list of vaults are as they were
    before the two calls. *)
Theorem createVault_deleteVault_round_trip
    (env : Env) (ctx : Context) (session : Session) (account : Account)
    (w : World) (vault : Vault) (ref : VaultRef) (org : Org) (v : Vault) :
  ctx_session ctx = Some session ->
  ctx_account ctx = Some account ->
  vault_org vault = Some ref ->
  st_org (storage w) !! vr_id ref = Some org ->
  org_id org = vr_id ref ->
  fst (createVault env ctx vault w) = Ok v ->
  st_vault (storage w) !! vault_id v = None ->
  (forall entry, In entry (org_vaults org) -> vr_id entry <> vault_id v) ->
  (forall org', st_org (storage (snd (createVault env ctx vault w))) !! org_id org = Some org' ->
                isAdmin env org' (acc_id account) = true) ->
  let w1 := snd (createVault env ctx vault w) in
  let w2 := snd (deleteVault env ctx (vault_id v) w1) in
  fst (deleteVault env ctx (vault_id v) w1) = Ok tt
  /\ st_vault (storage w2) = st_vault (storage w)
  /\ exists org2, st_org (storage w2) !! org_id org = Some org2
                  /\ org_vaults org2 = org_vaults org.
Proof.
  intros Hs Ha Href Horg Hkey Hok Hfresh Hnew Hadm'. cbv zeta.
  assert (Hadm : isAdmin env org (acc_id account) = true).
  { destruct (isAdmin env org (acc_id account)) eqn:E; [reflexivity |].
    rewrite (createVault_not_admin env ctx session account Hs Ha w vault ref org Href Horg E)
      in Hok. discriminate. }
  assert (Hq : within (S (length (org_vaults org))) (oq_vaults (org_quota org))).
  { unfold within.
    destruct (Z.eq_dec (oq_vaults (org_quota org)) (-1)) as [E | Hne]; [now left |].
    right. destruct (Z_le_gt_dec (Z.of_nat (S (length (org_vaults org))))
                                  (oq_vaults (org_quota org))) as [Hle | Hgt]; [exact Hle |].
    destruct (createVault_full env ctx session account Hs Ha w vault ref org Href Horg Hadm Hne)
      as [E _]; [lia |]. rewrite E in Hok. discriminate. }
  pose proof (createVault_room env ctx session account Hs Ha w vault ref org Href Horg Hadm Hq)
    as Hrun. cbv zeta in Hrun. cbn [vault_id vault_name] in Hrun.
  set (vid := uuid_gen env (entropy w)) in *.
  set (v0 := mkVault vid (vault_name vault) (Some (acc_id account)) (Some ref)
                     (uuid_gen env (S (entropy w))) (vault_keyParams vault)
                     (vault_encryptionParams vault) (vault_accessors vault)
                     (vault_encryptedData vault) (clock w) (clock w)) in *.
  set (org1 := set_org_revision (uuid_gen env (S (S (entropy w))))
                 (set_org_vaults (org_vaults org ++ [mkVaultRef vid (vault_name vault)]) org))
    in *.
  rewrite Hrun in Hok, Hadm' |- *. cbn [fst snd] in Hok, Hadm' |- *.
  injection Hok as <-. change (vault_id v0) with vid in *.
  match goal with
  | |- context [deleteVault env ctx vid ?x] => set (w1 := x) in *
  end.
  assert (Hv1 : st_vault (storage w1) !! vid = Some v0)
    by (subst w1; cbn; apply lookup_insert_eq).
  assert (Horg1 : st_org (storage w1) !! vr_id ref = Some org1)
    by (subst w1; cbn; rewrite Hkey; apply lookup_insert_eq).
  assert (Hadm1 : isAdmin env org1 (acc_id account) = true)
    by (apply Hadm'; rewrite Hkey; exact Horg1).
  pose proof (deleteVault_admin env ctx session account Hs Ha w1 vid v0 Hv1 ref org1
                eq_refl Horg1 Hadm1) as Hdel.
  cbv zeta in Hdel. rewrite Hdel. cbn [fst snd]. split; [reflexivity |].
  subst w1 org1 v0. cbn. split.
  - apply delete_insert_id. exact Hfresh.
  - eexists. split; [apply lookup_insert_eq |]. cbn.
    rewrite List.filter_app. cbn. rewrite String.eqb_refl. cbn. rewrite app_nil_r.
    now apply filter_other_ids.
Qed.

Lemma createVault_deleteVault_round_trip_witness :
  let w1 := snd (createVault Sample.env Sample.asAlice Sample.newSharedVault Sample.world) in
  let w2 := snd (deleteVault Sample.env Sample.asAlice "id-0" w1) in
  st_vault (storage w2) = st_vault (storage Sample.world)
  /\ exists org2, st_org (storage w2) !! "org-1" = Some org2
                  /\ org_vaults org2 = org_vaults Sample.org1.
Proof.
  cbv zeta.
  destruct (createVault_deleteVault_round_trip Sample.env Sample.asAlice Sample.aliceSession
              Sample.alice Sample.world Sample.newSharedVault (mkVaultRef "org-1" "Org One")
              Sample.org1
              (mkVault "id-0" "Second" (Some "acc-alice") (Some (mkVaultRef "org-1" "Org One"))
                       "id-1" "kp" "ep" "acs" "data" 100 100)
              eq_refl eq_refl eq_refl eq_refl eq_refl) as (_ & Hvaults & Horg).
  - vm_compute. reflexivity.
  - reflexivity.
  - intros entry [<- | []]. discriminate.
  - intros org' H. vm_compute in H. injection H as <-. reflexivity.
  - split; [exact Hvaults | exact Horg].
Defined.

(** ** Invites *)

(** X18.  [getInvite] by an authenticated account on a stored organisation
    returns an invite only to an owner of the organisation and to the
    account whose email the invite names; for anyone else it fails
    NOT_FOUND, as it does for an id that no invite of the organisation has.
    Nothing is changed. *)
Theorem getInvite_visibility
    (env : Env) (ctx : Context) (session : Session) (account : Account)
    (w : World) (orgId id : string) (org : Org) :
  ctx_session ctx = Some session ->
  ctx_account ctx = Some account ->
  st_org (storage w) !! orgId = Some org ->
  (getInvite org id = None ->
   controller_getInvite env ctx orgId id w = (Throw (Err NOT_FOUND), w))
  /\ forall invite,
       getInvite org id = Some invite ->
       (isOwner env org (acc_id account) = true \/ inv_email invite = acc_email account ->
        controller_getInvite env ctx orgId id w = (Ok invite, w))
       /\ (isOwner env org (acc_id account) = false ->
           inv_email invite <> acc_email account ->
           controller_getInvite env ctx orgId id w = (Throw (Err NOT_FOUND), w)).
Proof.
  intros Hs Ha Ho. unfold controller_getInvite.
  rewrite (bind_ok _ _ _ _ _ (requireAuth_ok ctx session account Hs Ha w)). cbn [fst].
  unfold get_org. rewrite (bind_ok _ _ _ _ _ (storage_get_some st_org _ _ _ Ho)).
  split.
  - intros ->. reflexivity.
  - intros invite ->. split.
    + intros [-> | E]; [reflexivity |].
      rewrite (eqb_true_of_eq _ _ E). now rewrite andb_false_r.
    + intros -> Hne. now rewrite (eqb_false_of_neq _ _ Hne).
Qed.

Lemma getInvite_visibility_witness :
  controller_getInvite Sample.env Sample.asCarol "org-1" "inv-1" Scenario.inviting
  = (Ok Scenario.carolInvite, Scenario.inviting)
  /\ controller_getInvite Sample.env Sample.asBob "org-1" "inv-1" Scenario.inviting
     = (Throw (Err NOT_FOUND), Scenario.inviting).
Proof.
  destruct (getInvite_visibility Sample.env Sample.asCarol Sample.carolSession Sample.carol
              Scenario.inviting "org-1" "inv-1" Scenario.orgInviting eq_refl eq_refl eq_refl)
    as [_ Hcarol].
  destruct (getInvite_visibility Sample.env Sample.asBob Sample.bobSession Sample.bob
              Scenario.inviting "org-1" "inv-1" Scenario.orgInviting eq_refl eq_refl eq_refl)
    as [_ Hbob].
  split.
  - destruct (Hcarol Scenario.carolInvite eq_refl) as [H _]. apply H. now right.
  - destruct (Hbob Scenario.carolInvite eq_refl) as [_ H]. apply H; [reflexivity | discriminate].
Defined.

Lemma replaceInvite_length (id : string) (invite : Invite) (l : list Invite) :
  length (replaceInvite id invite l) = length l.
Proof.
  induction l as [| i l IH]; [reflexivity |]. cbn.
  destruct (String.eqb (inv_id i) id); cbn; congruence.
Qed.

Lemma find_replaceInvite_same (invite : Invite) (l : list Invite) :
  List.find (fun i => String.eqb (inv_id i) (inv_id invite)) l <> None ->
  List.find (fun i => String.eqb (inv_id i) (inv_id invite))
            (replaceInvite (inv_id invite) invite l) = Some invite.
Proof.
  induction l as [| i l IH]; [intros H; now destruct H |]. cbn.
  destruct (String.eqb (inv_id i) (inv_id invite)) eqn:E; cbn.
  - intros _. now rewrite String.eqb_refl.
  - intros H. rewrite E. now apply IH.
Qed.

Lemma find_replaceInvite_other (invite : Invite) (id : string) (l : list Invite) :
  id <> inv_id invite ->
  List.find (fun i => String.eqb (inv_id i) id) (replaceInvite (inv_id invite) invite l)
  = List.find (fun i => String.eqb (inv_id i) id) l.
Proof.
  intros Hne. induction l as [| i l IH]; [reflexivity |]. cbn.
  destruct (String.eqb (inv_id i) (inv_id invite)) eqn:E; cbn.
  - apply String.eqb_eq in E. rewrite E.
    now rewrite (eqb_false_of_neq (inv_id invite) id) by congruence.
  - now rewrite IH.
Qed.

(** X19.  [acceptInvite] rejects an invite that is not marked accepted with
    BAD_REQUEST before it looks at the caller.  For an accepted invite, an
    authenticated caller and a stored organisation: an id that no invite of
    the organisation has fails NOT_FOUND, and a caller whose email is not
    the one of the stored invite fails INSUFFICIENT_PERMISSIONS, without a
    change.  Otherwise the call succeeds and the organisation is saved with
    the supplied invite in the place of the stored one, every other invite,
    the members and the revision being as they were; the inviter named by
    the supplied invite is notified exactly when the stored invite was not
    accepted before. *)
Theorem acceptInvite_effects
    (env : Env) (ctx : Context) (orgId : string) (invite : Invite) (w : World) :
  (inv_accepted invite = false ->
   acceptInvite env ctx orgId invite w = (Throw (Err BAD_REQUEST), w))
  /\ forall session account org,
       inv_accepted invite = true ->
       ctx_session ctx = Some session ->
       ctx_account ctx = Some account ->
       st_org (storage w) !! orgId = Some org ->
       (getInvite org (inv_id invite) = None ->
        acceptInvite env ctx orgId invite w = (Throw (Err NOT_FOUND), w))
       /\ forall existing,
            getInvite org (inv_id invite) = Some existing ->
            (inv_email existing <> acc_email account ->
             acceptInvite env ctx orgId invite w = (Throw (Err INSUFFICIENT_PERMISSIONS), w))
            /\ (inv_email existing = acc_email account ->
                let w' := snd (acceptInvite env ctx orgId invite w) in
                let org' :=
                  set_org_invites (replaceInvite (inv_id invite) invite (org_invites org)) org in
                fst (acceptInvite env ctx orgId invite w) = Ok tt
                /\ st_org (storage w') = <[org_id org := org']> (st_org (storage w))
                /\ getInvite org' (inv_id invite) = Some invite
                /\ (forall id, id <> inv_id invite -> getInvite org' id = getInvite org id)
                /\ length (org_invites org') = length (org_invites org)
                /\ org_members org' = org_members org
                /\ org_revision org' = org_revision org
                /\ outbox w'
                   = match inv_invitedBy invite with
                     | Some inviter =>
                         if inv_accepted existing then outbox w
                         else (inviter, InviteAcceptedMessage invite (inviteLink env org invite))
                              :: outbox w
                     | None => outbox w
                     end).
Proof.
  split.
  - intros H. unfold acceptInvite. now rewrite H.
  - intros session account org Hacc Hs Ha Ho. unfold acceptInvite. rewrite Hacc. cbn [negb].
    rewrite (bind_ok _ _ _ _ _ (requireAuth_ok ctx session account Hs Ha w)). cbn [fst].
    unfold get_org. rewrite (bind_ok _ _ _ _ _ (storage_get_some st_org _ _ _ Ho)).
    split.
    + intros ->. reflexivity.
    + intros existing Hex. rewrite Hex. split.
      * intros Hne. now rewrite (eqb_false_of_neq _ _ Hne).
      * intros E. cbv zeta. rewrite (eqb_true_of_eq _ _ E). cbn [negb].
        assert (Hfound : List.find (fun i => String.eqb (inv_id i) (inv_id invite))
                                   (org_invites org) <> None)
          by (unfold getInvite in Hex; congruence).
        unfold getInvite at 1 2. cbn [org_invites set_org_invites].
        destruct (inv_invitedBy invite) as [inviter |];
          [destruct (inv_accepted existing) |];
          unfold bind, send, save_org, modify_storage, ret; cbn;
          (split; [reflexivity |]); (split; [reflexivity |]);
          (split; [now apply find_replaceInvite_same |]);
          (split; [intros id Hid; unfold getInvite; cbn;
                   now apply find_replaceInvite_other |]);
          (split; [apply replaceInvite_length |]); repeat split.
Qed.

Lemma acceptInvite_effects_witness :
  acceptInvite Sample.env Sample.anonymous "org-1" Scenario.carolInvite Scenario.inviting
  = (Throw (Err BAD_REQUEST), Scenario.inviting)
  /\ acceptInvite Sample.env Sample.asBob "org-1" Scenario.acceptedInvite Scenario.inviting
     = (Throw (Err INSUFFICIENT_PERMISSIONS), Scenario.inviting)
  /\ fst (acceptInvite Sample.env Sample.asCarol "org-1" Scenario.acceptedInvite
                       Scenario.inviting) = Ok tt.
Proof.
  destruct (acceptInvite_effects Sample.env Sample.anonymous "org-1" Scenario.carolInvite
              Scenario.inviting) as [Hbad _].
  destruct (acceptInvite_effects Sample.env Sample.asBob "org-1" Scenario.acceptedInvite
              Scenario.inviting) as [_ Hbob].
  destruct (acceptInvite_effects Sample.env Sample.asCarol "org-1" Scenario.acceptedInvite
              Scenario.inviting) as [_ Hcarol].
  split; [apply Hbad; reflexivity |]. split.
  - destruct (Hbob Sample.bobSession Sample.bob Scenario.orgInviting
                eq_refl eq_refl eq_refl eq_refl) as [_ H].
    destruct (H Scenario.carolInvite eq_refl) as [Hne _]. apply Hne. discriminate.
  - destruct (Hcarol Sample.carolSession Sample.carol Scenario.orgInviting
                eq_refl eq_refl eq_refl eq_refl) as [_ H].
    destruct (H Scenario.carolInvite eq_refl) as [_ Hyes].
    destruct (Hyes eq_refl) as [Hok _]. exact Hok.
Defined.

(** ** Attachments *)

Lemma att_getUsage_usageIn (vault : string) (w : World) :
  att_getUsage vault w = (Ok (usageIn (attachments w) vault), w).
Proof. reflexivity. Qed.

Lemma usagesOf_usagesIn (vaults : list VaultRef) (w : World) :
  usagesOf vaults w = (Ok (usagesIn (attachments w) vaults), w).
Proof.
  induction vaults as [| v r IH]; [reflexivity |].
  cbn [usagesOf]. rewrite (bind_ok _ _ _ _ _ (att_getUsage_usageIn _ w)).
  now rewrite (bind_ok _ _ _ _ _ IH).
Qed.

Lemma usageOf_sumUsage (vaults : list VaultRef) (w : World) :
  usageOf vaults w = (Ok (sumUsage (usagesIn (attachments w) vaults)), w).
Proof. unfold usageOf. now rewrite (bind_ok _ _ _ _ _ (usagesOf_usagesIn _ w)). Qed.

(** Below 2^53 in magnitude an integer is a double, and the arithmetic on
    numbers is the exact one. *)
Lemma toNumber_exact (x : Z) : Z.abs x < 2 ^ 53 -> toNumber x = Finite x.
Proof.
  intros H. unfold toNumber, round53.
  destruct (Z.ltb_spec (Z.abs x) (2 ^ 53)) as [_ | Hge]; [| lia].
  assert (Hbig : 2 ^ 53 < 2 ^ 1024) by (apply Z.pow_lt_mono_r; lia).
  destruct (Z.leb_spec (2 ^ 1024) x); [lia |].
  destruct (Z.leb_spec x (- 2 ^ 1024)); [lia | reflexivity].
Qed.

Lemma usageIn_nonneg (atts : list Attachment) (vault : string) :
  sizesNonNegative atts -> 0 <= usageIn atts vault.
Proof.
  unfold sizesNonNegative, usageIn.
  induction 1 as [| a atts Ha _ IH]; cbn [fold_right]; [lia |].
  destruct (String.eqb (att_vault a) vault); lia.
Qed.

Lemma sum_from_exact (usages : list Z) :
  forall acc,
    List.Forall (fun u => 0 <= u) usages ->
    0 <= acc ->
    acc + fold_right Z.add 0 usages < 2 ^ 53 ->
    fold_left (fun sum each => num_add sum (toNumber each)) usages (Finite acc)
    = Finite (acc + fold_right Z.add 0 usages).
Proof.
  induction usages as [| u us IH]; intros acc Hpos Hacc Hsum; cbn.
  - now rewrite Z.add_0_r.
  - inversion Hpos as [| ? ? Hu Hus]; subst. cbn in Hsum.
    assert (Hrest : 0 <= fold_right Z.add 0 us).
    { clear -Hus. induction Hus; cbn; lia. }
    rewrite (toNumber_exact u) by lia. cbn [num_add].
    rewrite (toNumber_exact (acc + u)) by lia.
    rewrite IH by (try assumption; lia). f_equal. lia.
Qed.

Lemma sumUsage_exact (atts : list Attachment) (vaults : list VaultRef) :
  sizesNonNegative atts ->
  totalUsage atts vaults < 2 ^ 53 ->
  sumUsage (usagesIn atts vaults) = Finite (totalUsage atts vaults).
Proof.
  intros Hpos Hsum. unfold sumUsage, totalUsage in *.
  rewrite sum_from_exact; [reflexivity | | lia | lia].
  unfold usagesIn. apply List.Forall_forall. intros u Hu.
  apply in_map_iff in Hu as (v & <- & _). now apply usageIn_nonneg.
Qed.

Lemma totalUsage_nonneg (atts : list Attachment) (vaults : list VaultRef) :
  sizesNonNegative atts -> 0 <= totalUsage atts vaults.
Proof.
  intros Hpos. unfold totalUsage, usagesIn.
  induction vaults as [| v r IH]; cbn [map fold_right]; [lia |].
  pose proof (usageIn_nonneg atts (vr_id v) Hpos). lia.
Qed.

Lemma usageFor_nonneg (org : option Org) (vault : Vault) (atts : list Attachment) :
  sizesNonNegative atts -> 0 <= usageFor org vault atts.
Proof.
  intros Hpos. destruct org; cbn [usageFor];
    [now apply totalUsage_nonneg | now apply usageIn_nonneg].
Qed.

Lemma currentUsageFor_exact (org : option Org) (vault : Vault) (atts : list Attachment) :
  sizesNonNegative atts ->
  usageFor org vault atts < 2 ^ 53 ->
  currentUsageFor org vault atts = Finite (usageFor org vault atts).
Proof.
  intros Hpos Hsum. pose proof (usageFor_nonneg org vault atts Hpos) as H0.
  destruct org as [o |]; cbn [usageFor currentUsageFor] in *.
  - now apply sumUsage_exact.
  - apply toNumber_exact. lia.
Qed.

(** The test of [createAttachment] is the exact comparison when the amounts
    are within the range where doubles are exact. *)
Lemma quota_test_exact (org : option Org) (vault : Vault) (account : Account)
    (atts : list Attachment) (size : Z) :
  sizesNonNegative atts ->
  0 <= size ->
  usageFor org vault atts + size < 2 ^ 53 ->
  Z.abs (storageQuotaFor org account * 1000000000) < 2 ^ 53 ->
  num_gt (num_add (currentUsageFor org vault atts) (toNumber size))
         (num_mul (toNumber (storageQuotaFor org account)) (toNumber 1000000000))
  = (usageFor org vault atts + size >? storageQuotaFor org account * 1000000000).
Proof.
  intros Hpos Hsize Hsum Hquota.
  pose proof (usageFor_nonneg org vault atts Hpos) as H0.
  rewrite (currentUsageFor_exact org vault atts Hpos) by lia.
  rewrite (toNumber_exact size) by lia.
  rewrite (toNumber_exact (storageQuotaFor org account)) by lia.
  rewrite (toNumber_exact 1000000000) by (vm_compute; reflexivity).
  cbn [num_add num_mul].
  rewrite (toNumber_exact (usageFor org vault atts + size)) by lia.
  now rewrite (toNumber_exact (storageQuotaFor org account * 1000000000)) by exact Hquota.
Qed.

Lemma orgOf_storage (env : Env) (vault : Vault) (org : option Org) (w w' : World) :
  orgOf vault w = (Ok org, w) ->
  storage w' = storage w ->
  orgOf vault w' = (Ok org, w').
Proof.
  unfold orgOf. intros H E.
  destruct (vault_org vault) as [ref |].
  - unfold bind, get_org, storage_get, ret, throw in *. rewrite E.
    destruct (st_org (storage w) !! vr_id ref); [| discriminate]. congruence.
  - unfold ret in *. congruence.
Qed.

Lemma find_filter_negb {A} (p : A -> bool) (l : list A) :
  List.find p (List.filter (fun x => negb (p x)) l) = None.
Proof.
  induction l as [| x l IH]; [reflexivity |]. cbn.
  destruct (p x) eqn:E; cbn; [exact IH | now rewrite E].
Qed.

Section AttachmentFacts.

Variables (env : Env) (ctx : Context) (session : Session) (account : Account).
Hypothesis Hs : ctx_session ctx = Some session.
Hypothesis Ha : ctx_account ctx = Some account.
Variables (w : World) (vault : Vault) (org : option Org) (att : Attachment).
Hypothesis Hvault : st_vault (storage w) !! att_vault att = Some vault.
Hypothesis Horg : orgOf vault w = (Ok org, w).
Hypothesis Hwrite : writeAllowed env org vault account = true.

Let stored : Attachment :=
  mkAttachment (uuid_gen env (entropy w)) (att_vault att) (att_size att).

Lemma createAttachment_run :
  createAttachment env ctx att w
  = (if negb (storageQuotaFor org account =? -1)
        && num_gt (num_add (currentUsageFor org vault (attachments w))
                           (toNumber (att_size att)))
                  (num_mul (toNumber (storageQuotaFor org account)) (toNumber 1000000000))
     then throw (Err QUOTA_EXCEEDED)
     else att_put stored ;;; ret stored)
      (mkWorld (storage w) (pendingAuths w) (outbox w) (attachments w) (clock w)
               (S (entropy w))).
Proof.
  unfold createAttachment.
  rewrite (bind_ok _ _ _ _ _ (requireAuth_ok ctx session account Hs Ha w)). cbn [fst].
  unfold get_vault. rewrite (bind_ok _ _ _ _ _ (storage_get_some st_vault _ _ _ Hvault)).
  rewrite (bind_ok _ _ _ _ _ Horg). rewrite Hwrite. cbn [negb].
  unfold uuid, draw. unfold bind at 1 2. cbn [ret].
  destruct org as [o |]; cbn [storageQuotaFor currentUsageFor].
  - now rewrite (bind_ok _ _ _ _ _ (usageOf_sumUsage _ _)).
  - match goal with
    | |- bind ?m _ ?x = _ =>
        assert (E : m x = (Ok (toNumber (usageIn (attachments w) (vault_id vault))), x))
          by reflexivity;
        now rewrite (bind_ok _ _ _ _ _ E)
    end.
Qed.

End AttachmentFacts.

Lemma sameAttachment_refl (a : Attachment) :
  sameAttachment (att_vault a) (att_id a) a = true.
Proof. unfold sameAttachment. now rewrite !String.eqb_refl. Qed.

(** X20.  [createAttachment] by an account that may write to the stored
    vault, while the amounts are in the range where the code's double
    arithmetic is exact (no stored attachment of negative size, a size that
    is not negative, usage plus size and the quota in bytes below 2^53):
    the call compares the bytes already stored, those of every vault of the
    organisation for a vault that has one and those of the vault itself
    otherwise, plus the size of the new attachment with the storage quota
    (in units of 10^9 bytes) of the organisation or of the account.  Above a
    quota other than -1 the call fails QUOTA_EXCEEDED and stores nothing;
    with a quota of -1, or up to and including the limit, it succeeds and
    returns the attachment under a freshly generated id, whatever id the
    caller had put in it, and the attachment storage holds it under that
    id. *)
Theorem createAttachment_quota
    (env : Env) (ctx : Context) (session : Session) (account : Account)
    (w : World) (vault : Vault) (org : option Org) (att : Attachment) :
  ctx_session ctx = Some session ->
  ctx_account ctx = Some account ->
  st_vault (storage w) !! att_vault att = Some vault ->
  orgOf vault w = (Ok org, w) ->
  writeAllowed env org vault account = true ->
  let quota := storageQuotaFor org account in
  let used := usageFor org vault (attachments w) in
  let stored := mkAttachment (uuid_gen env (entropy w)) (att_vault att) (att_size att) in
  let w' := snd (createAttachment env ctx att w) in
  sizesNonNegative (attachments w) ->
  0 <= att_size att ->
  used + att_size att < 2 ^ 53 ->
  Z.abs (quota * 1000000000) < 2 ^ 53 ->
  (quota <> -1 -> used + att_size att > quota * 1000000000 ->
   fst (createAttachment env ctx att w) = Throw (Err QUOTA_EXCEEDED)
   /\ attachments w' = attachments w /\ storage w' = storage w)
  /\ (quota = -1 \/ used + att_size att <= quota * 1000000000 ->
      fst (createAttachment env ctx att w) = Ok stored
      /\ storage w' = storage w
      /\ att_get (att_vault att) (att_id stored) w' = (Ok stored, w')).
Proof.
  intros Hs Ha Hv Ho Hw quota used stored w' Hpos Hsize Hsum Hquota. subst w'.
  rewrite (createAttachment_run env ctx session account Hs Ha w vault org att Hv Ho Hw).
  rewrite (quota_test_exact org vault account (attachments w) (att_size att)
             Hpos Hsize Hsum Hquota).
  fold quota used stored. split.
  - intros Hq Hover.
    assert (E1 : (quota =? -1) = false) by now apply Z.eqb_neq.
    assert (E2 : (used + att_size att >? quota * 1000000000) = true)
      by (apply Z.gtb_lt; lia).
    rewrite E1, E2. cbn. repeat split.
  - intros Hroom.
    assert (E : negb (quota =? -1) && (used + att_size att >? quota * 1000000000) = false).
    { destruct Hroom as [-> | Hle]; [reflexivity |].
      apply andb_false_iff. right. rewrite Z.gtb_ltb. apply Z.ltb_ge. lia. }
    rewrite E. split; [reflexivity |]. split; [reflexivity |].
    unfold att_get, bind, att_put, put_attachments, ret.
    cbn [snd fst attachments List.find].
    change (att_vault att) with (att_vault stored) at 1.
    now rewrite sameAttachment_refl.
Qed.

Lemma createAttachment_quota_witness :
  fst (createAttachment Sample.env Sample.asAlice
         (mkAttachment "chosen" "vault-alice" 1000000000) Sample.world)
  = Ok (mkAttachment "id-0" "vault-alice" 1000000000)
  /\ fst (createAttachment Sample.env Sample.asAlice
            (mkAttachment "chosen" "vault-alice" 1000000001) Sample.world)
     = Throw (Err QUOTA_EXCEEDED).
Proof.
  assert (Hempty : sizesNonNegative (attachments Sample.world)) by constructor.
  destruct (createAttachment_quota Sample.env Sample.asAlice Sample.aliceSession Sample.alice
              Sample.world Sample.aliceVault None
              (mkAttachment "chosen" "vault-alice" 1000000000)
              eq_refl eq_refl eq_refl eq_refl eq_refl Hempty) as [_ Hfits];
    [vm_compute; discriminate | vm_compute; reflexivity | vm_compute; reflexivity |].
  destruct (createAttachment_quota Sample.env Sample.asAlice Sample.aliceSession Sample.alice
              Sample.world Sample.aliceVault None
              (mkAttachment "chosen" "vault-alice" 1000000001)
              eq_refl eq_refl eq_refl eq_refl eq_refl Hempty) as [Hover _];
    [vm_compute; discriminate | vm_compute; reflexivity | vm_compute; reflexivity |].
  split.
  - destruct Hfits as [H _]; [right; vm_compute; discriminate | exact H].
  - destruct Hover as [H _]; [vm_compute; discriminate | vm_compute; reflexivity | exact H].
Defined.

(** Beyond that range the test rounds as the code does: with a quota of
    9007200 units and as many bytes stored, one more byte is not over the
    limit, since 9007200000000001 is not a double and the sum rounds to the
    limit itself. *)
Lemma createAttachment_rounds_as_doubles :
  let account := mkAccount "acc-alice" "alice@example.com" "Alice" "pk-a" "kp-a" "ep-a"
                           "data-a" "rev-a1" [] ["org-1"] (mkAccountQuota 1 9007200)
                           "vault-alice" 0 in
  let ctx := mkContext (Some Sample.aliceSession) (Some account) (Some Sample.phone) in
  let w := mkWorld Sample.populated ∅ []
                   [mkAttachment "att-1" "vault-alice" 9007200000000000] 100%nat 0%nat in
  fst (createAttachment Sample.env ctx (mkAttachment "" "vault-alice" 1) w)
  = Ok (mkAttachment "id-0" "vault-alice" 1)
  /\ fst (createAttachment Sample.env ctx (mkAttachment "" "vault-alice" 2) w)
     = Throw (Err QUOTA_EXCEEDED).
Proof. vm_compute. split; reflexivity. Qed.

(** X21.  An attachment that [createAttachment] has stored is returned by
    [getAttachment] under the generated id to an account that may read the
    vault; once [deleteAttachment] has run for that id, [getAttachment]
    fails NOT_FOUND. *)
Theorem attachment_round_trip
    (env : Env) (ctx : Context) (session : Session) (account : Account)
    (w : World) (vault : Vault) (org : option Org) (att stored : Attachment) :
  ctx_session ctx = Some session ->
  ctx_account ctx = Some account ->
  st_vault (storage w) !! att_vault att = Some vault ->
  orgOf vault w = (Ok org, w) ->
  writeAllowed env org vault account = true ->
  readAllowed env org vault account = true ->
  fst (createAttachment env ctx att w) = Ok stored ->
  let w1 := snd (createAttachment env ctx att w) in
  let w2 := snd (deleteAttachment env ctx (att_vault att) (att_id stored) w1) in
  att_vault stored = att_vault att
  /\ att_size stored = att_size att
  /\ getAttachment env ctx (att_id stored) (att_vault att) w1 = (Ok stored, w1)
  /\ fst (deleteAttachment env ctx (att_vault att) (att_id stored) w1) = Ok tt
  /\ getAttachment env ctx (att_id stored) (att_vault att) w2 = (Throw (Err NOT_FOUND), w2).
Proof.
  intros Hs Ha Hv Ho Hw Hr Hok.
  set (fresh := mkAttachment (uuid_gen env (entropy w)) (att_vault att) (att_size att)).
  assert (Hrun : createAttachment env ctx att w
                 = (Ok fresh,
                    mkWorld (storage w) (pendingAuths w) (outbox w)
                      (fresh :: List.filter
                                  (fun x => negb (sameAttachment (att_vault fresh)
                                                                 (att_id fresh) x))
                                  (attachments w))
                      (clock w) (S (entropy w)))).
  { revert Hok.
    rewrite (createAttachment_run env ctx session account Hs Ha w vault org att Hv Ho Hw).
    destruct (negb _ && _); [discriminate |]. reflexivity. }
  rewrite Hrun in Hok. injection Hok as <-. rewrite Hrun. cbn [snd]. cbv zeta.
  match goal with |- context [getAttachment _ _ _ _ ?x] => set (w1 := x) end.
  assert (Hst : storage w1 = storage w) by reflexivity.
  assert (Hv1 : st_vault (storage w1) !! att_vault att = Some vault) by now rewrite Hst.
  assert (Ho1 : orgOf vault w1 = (Ok org, w1)) by now apply (orgOf_storage env vault org w).
  assert (Hget : getAttachment env ctx (att_id fresh) (att_vault att) w1 = (Ok fresh, w1)).
  { unfold getAttachment.
    rewrite (bind_ok _ _ _ _ _ (requireAuth_ok ctx session account Hs Ha w1)). cbn [fst].
    unfold get_vault. rewrite (bind_ok _ _ _ _ _ (storage_get_some st_vault _ _ _ Hv1)).
    rewrite (bind_ok _ _ _ _ _ Ho1). rewrite Hr. cbn [negb].
    unfold att_get. subst w1. cbn [attachments List.find].
    change (att_vault att) with (att_vault fresh) at 1.
    now rewrite sameAttachment_refl. }
  assert (Hdel : deleteAttachment env ctx (att_vault att) (att_id fresh) w1
                 = att_delete (att_vault att) (att_id fresh) w1).
  { unfold deleteAttachment.
    rewrite (bind_ok _ _ _ _ _ (requireAuth_ok ctx session account Hs Ha w1)). cbn [fst].
    unfold get_vault. rewrite (bind_ok _ _ _ _ _ (storage_get_some st_vault _ _ _ Hv1)).
    rewrite (bind_ok _ _ _ _ _ Ho1). now rewrite Hw. }
  split; [reflexivity |]. split; [reflexivity |]. split; [exact Hget |].
  rewrite Hdel. split; [reflexivity |].
  set (w2 := snd (att_delete (att_vault att) (att_id fresh) w1)).
  assert (Hst2 : storage w2 = storage w) by reflexivity.
  assert (Hv2 : st_vault (storage w2) !! att_vault att = Some vault) by now rewrite Hst2.
  assert (Ho2 : orgOf vault w2 = (Ok org, w2)) by now apply (orgOf_storage env vault org w).
  unfold getAttachment.
  rewrite (bind_ok _ _ _ _ _ (requireAuth_ok ctx session account Hs Ha w2)). cbn [fst].
  unfold get_vault. rewrite (bind_ok _ _ _ _ _ (storage_get_some st_vault _ _ _ Hv2)).
  rewrite (bind_ok _ _ _ _ _ Ho2). rewrite Hr. cbn [negb].
  unfold att_get. subst w2. unfold att_delete, put_attachments. cbn [snd attachments].
  now rewrite find_filter_negb.
Qed.

Lemma attachment_round_trip_witness :
  let w1 := snd (createAttachment Sample.env Sample.asAlice
                   (mkAttachment "chosen" "vault-alice" 10) Sample.world) in
  getAttachment Sample.env Sample.asAlice "id-0" "vault-alice" w1
  = (Ok (mkAttachment "id-0" "vault-alice" 10), w1).
Proof.
  cbv zeta.
  destruct (attachment_round_trip Sample.env Sample.asAlice Sample.aliceSession Sample.alice
              Sample.world Sample.aliceVault None
              (mkAttachment "chosen" "vault-alice" 10) (mkAttachment "id-0" "vault-alice" 10)
              eq_refl eq_refl eq_refl eq_refl eq_refl eq_refl eq_refl)
    as (_ & _ & Hget & _).
  exact Hget.
Defined.

(** ** Dispatch *)

Lemma requireAuth_fails (ctx : Context) (w : World) :
  unauthenticated ctx -> _requireAuth ctx w = (Throw (Err INVALID_SESSION), w).
Proof.
  unfold _requireAuth. intros [H | H]; rewrite H; [reflexivity |].
  now destruct (ctx_session ctx).
Qed.

Lemma process_unauthenticated (env : Env) (billingProvider : option BillingProvider)
    (m : Method) (ctx : Context) (w : World) :
  unauthenticated ctx ->
  requiresSession (configured billingProvider) m = true ->
  _process env billingProvider m ctx w = (Throw (Err INVALID_SESSION), w).
Proof.
  intros Hctx Hm.
  pose proof (requireAuth_fails ctx w Hctx) as Hfail.
  destruct m as [| | | | | [id |] | | | | | | [id |] | | [id |] | | | [id |] | | | | | | | | ];
    cbn in Hm; try discriminate; cbn [_process];
    unfold updateAuth, revokeSession, getAccount, updateAccount, createOrg, getOrg,
      updateOrg, getVault, updateVault, createVault, deleteVault, controller_getInvite,
      acceptInvite, createAttachment, getAttachment, deleteAttachment, updateBilling;
    try rewrite Hm; cbn [negb];
    try (destruct billingProvider; [| discriminate]);
    repeat apply bind_throw; exact Hfail.
Qed.

Lemma process_ignores_session (env : Env) (billingProvider : option BillingProvider)
    (m : Method) (ctx : Context) (w : World) :
  requiresSession (configured billingProvider) m = false ->
  _process env billingProvider m ctx w
  = _process env billingProvider m (mkContext None None (ctx_device ctx)) w.
Proof.
  intros Hm.
  destruct m as [| | | | | [id |] | | | | | | [id |] | | [id |] | | | [id |] | | | | | | | | ];
    cbn in Hm; try discriminate; try reflexivity.
  - cbn [_process]. unfold acceptInvite. now rewrite Hm.
  - cbn [_process]. unfold updateBilling. destruct billingProvider; [discriminate | reflexivity].
Qed.

(** X22.  For every method that requires a session ([requiresSession]), a
    call dispatched by [_process] in a context without a session or without
    an account fails INVALID_SESSION and changes nothing.  Every other
    call, that is sign-up, login, recovery, [getPlans], a call rejected for
    its parameter, an invite that is not accepted and billing without a
    provider, runs exactly as it does without a session: it depends on the
    context through the device only. *)
Theorem process_session_requirement
    (env : Env) (billingProvider : option BillingProvider)
    (m : Method) (ctx : Context) (w : World) :
  (requiresSession (configured billingProvider) m = true ->
   unauthenticated ctx ->
   _process env billingProvider m ctx w = (Throw (Err INVALID_SESSION), w))
  /\ (requiresSession (configured billingProvider) m = false ->
      _process env billingProvider m ctx w
      = _process env billingProvider m (mkContext None None (ctx_device ctx)) w).
Proof.
  split.
  - intros Hm Hctx. now apply process_unauthenticated.
  - apply process_ignores_session.
Qed.

Lemma process_session_requirement_witness :
  _process Sample.env None (MGetVault (Some "vault-alice")) Sample.anonymous Sample.world
  = (Throw (Err INVALID_SESSION), Sample.world)
  /\ _process Sample.env None (MInitAuth "alice@example.com" None) Sample.asAlice Sample.world
     = _process Sample.env None (MInitAuth "alice@example.com" None)
         (mkContext None None (Some Sample.phone)) Sample.world.
Proof.
  destruct (process_session_requirement Sample.env None (MGetVault (Some "vault-alice"))
              Sample.anonymous Sample.world) as [Hclosed _].
  destruct (process_session_requirement Sample.env None (MInitAuth "alice@example.com" None)
              Sample.asAlice Sample.world) as [_ Hopen].
  split.
  - apply Hclosed; [reflexivity | now left].
  - apply Hopen. reflexivity.
Defined.

(** ** Handling a request *)

(** X23.  [handle] answers a request that names a session which is not
    stored with INVALID_SESSION, without running [_process] at all, so also
    for the methods that need no session; a request without an auth
    reference for a method that requires a session gets the same answer.
    In both cases the response has no result, nothing is reported and the
    world is unchanged.  For any request that passes [_authenticate], with
    or without a session: when [_process] throws something that is not an
    [Err], the response says SERVER_ERROR and has no result, the error is
    reported to the [reportErrors] address if one is configured, and what
    [_authenticate] and [_process] had written before stays written. *)
Theorem handle_session_gate
    (env : Env) (reportErrors : string)
    (authenticateResponse : Session -> Response -> Result Response)
    (req : Request) (w : World) :
  (forall process a,
     req_auth req = Some a ->
     st_session (storage w) !! ar_session a = None ->
     handle env reportErrors authenticateResponse process req w
     = mkHandled (mkResponse NoReply (Some INVALID_SESSION) None) None w)
  /\ (forall billingProvider m,
        req_auth req = None ->
        requiresSession (configured billingProvider) m = true ->
        handle env reportErrors authenticateResponse
               (fun _ ctx => _process env billingProvider m ctx) req w
        = mkHandled (mkResponse NoReply (Some INVALID_SESSION) None) None w)
  /\ (forall process ctx w1 w',
        _authenticate env req (mkContext None None (req_device req)) w = (Ok ctx, w1) ->
        process req ctx w1 = (Throw TypeError, w') ->
        handle env reportErrors authenticateResponse process req w
        = mkHandled (mkResponse NoReply (Some SERVER_ERROR) None)
                    (if String.eqb reportErrors "" then None
                     else Some (reportErrors, "Padloc Error Notification"))
                    w').
Proof.
  split; [| split].
  - intros process a Ha Hn. unfold handle.
    now rewrite (authenticate_missing_session env req _ w a Ha Hn).
  - intros bp m Ha Hm. unfold handle, _authenticate. rewrite Ha. cbn [ret].
    rewrite (process_unauthenticated env bp m _ w); [reflexivity | now left | exact Hm].
  - intros process ctx w1 w' Hauth Hp. unfold handle. now rewrite Hauth, Hp.
Qed.

Lemma handle_session_gate_witness :
  let renaming := fun (_ : Request) ctx =>
                    _process Sample.env None (MUpdateAccount Scenario.renamedDave) ctx in
  handle Sample.env "ops@example.com" (fun _ res => Ok res)
         (fun _ ctx => _process Sample.env None (MInitAuth "alice@example.com" None) ctx)
         Scenario.strayRequest Sample.recovering
  = mkHandled (mkResponse NoReply (Some INVALID_SESSION) None) None Sample.recovering
  /\ h_response (handle Sample.env "ops@example.com" (fun _ res => Ok res) renaming
                        Scenario.daveRequest Scenario.daveWorld)
     = mkResponse NoReply (Some SERVER_ERROR) None
  /\ h_report (handle Sample.env "ops@example.com" (fun _ res => Ok res) renaming
                      Scenario.daveRequest Scenario.daveWorld)
     = Some ("ops@example.com", "Padloc Error Notification")
  /\ exists saved,
       st_account (storage (h_world (handle Sample.env "ops@example.com"
                                           (fun _ res => Ok res) renaming
                                           Scenario.daveRequest Scenario.daveWorld)))
       !! "acc-dave" = Some saved
       /\ acc_name saved = "David".
Proof.
  cbv zeta.
  destruct (handle_session_gate Sample.env "ops@example.com" (fun _ res => Ok res)
              Scenario.strayRequest Sample.recovering) as [Hstale _].
  destruct (handle_session_gate Sample.env "ops@example.com" (fun _ res => Ok res)
              Scenario.daveRequest Scenario.daveWorld) as (_ & _ & Hcrash).
  assert (Hrun : exists ctx w1 w',
             _authenticate Sample.env Scenario.daveRequest
                           (mkContext None None (req_device Scenario.daveRequest))
                           Scenario.daveWorld = (Ok ctx, w1)
             /\ _process Sample.env None (MUpdateAccount Scenario.renamedDave) ctx w1
                = (Throw TypeError, w')
             /\ exists saved, st_account (storage w') !! "acc-dave" = Some saved
                              /\ acc_name saved = "David").
  { eexists. eexists. eexists. split; [vm_compute; reflexivity |].
    split; [vm_compute; reflexivity |]. eexists. split; vm_compute; reflexivity. }
  destruct Hrun as (ctx & w1 & w' & Hauth & Hp & saved & Hsaved & Hname).
  split; [apply (Hstale _ (mkAuthRef "sess-x" "signature")); reflexivity |].
  rewrite (Hcrash (fun _ ctx => _process Sample.env None
                                  (MUpdateAccount Scenario.renamedDave) ctx)
                  ctx w1 w' Hauth Hp).
  split; [reflexivity |]. split; [reflexivity |]. exists saved. now split.
Defined.

(** ** Billing *)

(** X24.  Without a billing provider [updateBilling] fails NOT_SUPPORTED,
    whoever calls.  With one, and for an authenticated account, the
    account id of the parameters defaults to the caller's.  When the
    parameters name an organisation (stored), the provider is called if the
    caller owns the organisation and the call fails
    INSUFFICIENT_PERMISSIONS otherwise, whatever account id was passed
    along; when they name none, the provider is called if the account id is
    the caller's own and the call fails INSUFFICIENT_PERMISSIONS otherwise.
    A refused call changes nothing. *)
Theorem updateBilling_permissions
    (env : Env) (provider : BillingProvider) (ctx : Context) (session : Session)
    (account : Account) (params : UpdateBillingParams) (w : World) :
  ctx_session ctx = Some session ->
  ctx_account ctx = Some account ->
  let effective :=
    mkUpdateBillingParams
      (if truthy (ubp_account params) then ubp_account params else Some (acc_id account))
      (ubp_org params) (ubp_details params) in
  (forall anyone, updateBilling env None anyone params w = (Throw (Err NOT_SUPPORTED), w))
  /\ (forall orgId org,
        ubp_org params = Some orgId -> orgId <> "" ->
        st_org (storage w) !! orgId = Some org ->
        updateBilling env (Some provider) ctx params w
        = if isOwner env org (acc_id account) then bp_updateBilling provider effective w
          else (Throw (Err INSUFFICIENT_PERMISSIONS), w))
  /\ (truthy (ubp_org params) = false ->
      forall accId,
        ubp_account effective = Some accId ->
        updateBilling env (Some provider) ctx params w
        = if String.eqb accId (acc_id account) then bp_updateBilling provider effective w
          else (Throw (Err INSUFFICIENT_PERMISSIONS), w)).
Proof.
  intros Hs Ha effective. split; [reflexivity |]. split.
  - intros orgId org Horg Hne Ho. unfold updateBilling.
    rewrite (bind_ok _ _ _ _ _ (requireAuth_ok ctx session account Hs Ha w)). cbn [fst].
    fold effective. cbn [ubp_org effective]. rewrite Horg. cbn [truthy].
    rewrite (eqb_false_of_neq _ _ Hne). cbn [negb].
    unfold get_org, bind at 1 2. rewrite (storage_get_some st_org _ _ _ Ho).
    now destruct (isOwner env org (acc_id account)).
  - intros Hnone accId Hacc. unfold updateBilling.
    rewrite (bind_ok _ _ _ _ _ (requireAuth_ok ctx session account Hs Ha w)). cbn [fst].
    fold effective. cbn [ubp_org effective]. rewrite Hnone. rewrite Hacc.
    cbn [ubp_account effective] in Hacc.
    destruct (truthy (ubp_account params)) eqn:Ht.
    + rewrite Hacc in Ht. rewrite Ht. unfold bind. cbn [andb].
      now destruct (String.eqb accId (acc_id account)).
    + injection Hacc as <-. rewrite String.eqb_refl, andb_false_r. reflexivity.
Qed.

Lemma updateBilling_permissions_witness :
  updateBilling Sample.env (Some Scenario.provider) Sample.asBob
                (mkUpdateBillingParams None (Some "org-1") "card") Sample.world
  = (Throw (Err INSUFFICIENT_PERMISSIONS), Sample.world)
  /\ updateBilling Sample.env (Some Scenario.provider) Sample.asBob
                   (mkUpdateBillingParams (Some "acc-alice") None "card") Sample.world
     = (Throw (Err INSUFFICIENT_PERMISSIONS), Sample.world).
Proof.
  destruct (updateBilling_permissions Sample.env Scenario.provider Sample.asBob
              Sample.bobSession Sample.bob (mkUpdateBillingParams None (Some "org-1") "card")
              Sample.world eq_refl eq_refl) as (_ & Horg & _).
  destruct (updateBilling_permissions Sample.env Scenario.provider Sample.asBob
              Sample.bobSession Sample.bob (mkUpdateBillingParams (Some "acc-alice") None "card")
              Sample.world eq_refl eq_refl) as (_ & _ & Hacc).
  split.
  - apply (Horg "org-1" Sample.org1); [reflexivity | discriminate | reflexivity].
  - apply (Hacc eq_refl "acc-alice"). reflexivity.
Defined.

(** ** Renaming an account *)

Lemma rename_loop_names (account name : string) (l : list string) :
  forall w0,
    orgsKeyed w0 ->
    (forall id, In id l -> memberAt w0 account id) ->
    exists w1,
      for_each l (fun id =>
        org <~ get_org id ;;
        match getMember org account with
        | None => throw TypeError
        | Some _ =>
            save_org (set_org_members
                        (update_member account (set_mem_name name) (org_members org)) org)
        end) w0 = (Ok tt, w1)
      /\ st_account (storage w1) = st_account (storage w0)
      /\ orgsKeyed w1
      /\ (forall id, In id l -> namedAt w1 account name id)
      /\ (forall id, ~ In id l -> st_org (storage w1) !! id = st_org (storage w0) !! id)
      /\ (forall id, namedAt w0 account name id -> namedAt w1 account name id)
      /\ (forall id, memberAt w0 account id -> memberAt w1 account id).
Proof.
  induction l as [| id r IH]; intros w0 Hkey Hmem.
  - exists w0. cbn. repeat split; try tauto.
  - destruct (Hmem id (or_introl eq_refl)) as (o & Ho & Hm).
    unfold isMember in Hm. destruct (getMember o account) as [m |] eqn:G; [| discriminate].
    pose proof (Hkey id o Ho) as Hid.
    set (o' := set_org_members (update_member account (set_mem_name name) (org_members o)) o).
    set (w0' := snd (save_org o' w0)).
    assert (Hst : st_org (storage w0') = <[id := o']> (st_org (storage w0)))
      by (subst w0'; cbn; now rewrite Hid).
    assert (Hacc0 : st_account (storage w0') = st_account (storage w0)) by reflexivity.
    assert (Hg' : getMember o' account = Some (set_mem_name name m)).
    { subst o'. rewrite getMember_update by reflexivity. now rewrite G. }
    assert (Hnamed0 : namedAt w0' account name id).
    { exists o', (set_mem_name name m). rewrite Hst, lookup_insert_eq. now repeat split. }
    assert (Hkeep_named : forall id', namedAt w0 account name id' ->
                                      namedAt w0' account name id').
    { intros id' (o1 & m1 & Ho1 & Hg1 & Hn1).
      destruct (decide (id = id')) as [<- | Hne]; [exact Hnamed0 |].
      exists o1, m1. rewrite Hst, lookup_insert_ne by exact Hne. now repeat split. }
    assert (Hkeep_mem : forall id', memberAt w0 account id' -> memberAt w0' account id').
    { intros id' (o1 & Ho1 & Hm1).
      destruct (decide (id = id')) as [<- | Hne].
      - exists o'. rewrite Hst, lookup_insert_eq. split; [reflexivity |].
        unfold isMember. now rewrite Hg'.
      - exists o1. rewrite Hst, lookup_insert_ne by exact Hne. now split. }
    assert (Hkey' : orgsKeyed w0').
    { intros id' o1. rewrite Hst. intros H.
      apply lookup_insert_Some in H as [[<- <-] | [Hne H]]; [exact Hid | now apply Hkey]. }
    destruct (IH w0' Hkey') as (w1 & E & Hacc & Hkey1 & Hnamed & Hother & Hkn & Hkm).
    { intros id' Hin. apply Hkeep_mem, Hmem. now right. }
    exists w1. cbn [for_each].
    assert (Hstep : (org <~ get_org id ;;
                     match getMember org account with
                     | None => throw TypeError
                     | Some _ =>
                         save_org (set_org_members
                                     (update_member account (set_mem_name name)
                                                    (org_members org)) org)
                     end) w0 = (Ok tt, w0')).
    { unfold get_org. rewrite (bind_ok _ _ _ _ _ (storage_get_some st_org _ _ _ Ho)).
      now rewrite G. }
    rewrite (bind_ok _ _ _ _ _ Hstep). split; [exact E |].
    split; [now rewrite Hacc |]. split; [exact Hkey1 |]. split; [| split; [| split]].
    + intros id' [<- | Hin]; [now apply Hkn | now apply Hnamed].
    + intros id' Hn. rewrite Hother by (intros Hin; apply Hn; now right).
      rewrite Hst. apply lookup_insert_ne. intros <-. apply Hn. now left.
    + intros id' H. now apply Hkn, Hkeep_named.
    + intros id' H. now apply Hkm, Hkeep_mem.
Qed.

(** X25.  [updateAccount] with the current revision, by an account that is
    a member of every organisation it lists (each stored under its own id),
    succeeds.  The stored and
    returned account takes name, email, public key, key and encryption
    parameters and encrypted data from the update, gets a fresh revision
    and the current time, and keeps its id, sessions, organisations, quota
    and main vault whatever the update says about those.  If the name is
    the old one no organisation is touched; if it changed, the member entry
    of the account in each of its organisations carries the new name, and
    the organisations it does not list are as they were. *)
Theorem updateAccount_effects
    (env : Env) (ctx : Context) (session : Session) (account : Account)
    (w : World) (upd : Account) :
  ctx_session ctx = Some session ->
  ctx_account ctx = Some account ->
  acc_revision upd = acc_revision account ->
  orgsKeyed w ->
  (forall id, In id (acc_orgs account) -> memberAt w (acc_id account) id) ->
  let account' :=
    mkAccount (acc_id account) (acc_email upd) (acc_name upd) (acc_publicKey upd)
              (acc_keyParams upd) (acc_encryptionParams upd) (acc_encryptedData upd)
              (uuid_gen env (entropy w)) (acc_sessions account) (acc_orgs account)
              (acc_quota account) (acc_mainVault account) (clock w) in
  let w' := snd (updateAccount env ctx upd w) in
  fst (updateAccount env ctx upd w) = Ok account'
  /\ st_account (storage w') = <[acc_id account := account']> (st_account (storage w))
  /\ (acc_name upd = acc_name account -> st_org (storage w') = st_org (storage w))
  /\ (acc_name upd <> acc_name account ->
      forall id, In id (acc_orgs account) -> namedAt w' (acc_id account) (acc_name upd) id)
  /\ (forall id, ~ In id (acc_orgs account) ->
        st_org (storage w') !! id = st_org (storage w) !! id).
Proof.
  intros Hs Ha Hr Hkey Hmem account' w'. subst w'. unfold updateAccount.
  rewrite (bind_ok _ _ _ _ _ (requireAuth_ok ctx session account Hs Ha w)).
  cbn [fst]. rewrite (eqb_true_of_eq _ _ Hr). cbn [negb].
  unfold uuid, draw, now, save_account, modify_storage.
  unfold bind at 1 2 3 4. cbn -[for_each].
  fold account'.
  destruct (String.eqb (acc_name account) (acc_name upd)) eqn:En; cbn [negb].
  - unfold bind, ret. cbn. repeat split. intros Hne. apply String.eqb_eq in En. congruence.
  - apply String.eqb_neq in En.
    match goal with
    | |- context [bind (for_each _ _) _ ?w0] =>
        destruct (rename_loop_names (acc_id account) (acc_name upd) (acc_orgs account) w0)
          as (w1 & E & Hacc & _ & Hnamed & Hother & _)
    end.
    { exact Hkey. }
    { exact Hmem. }
    rewrite (bind_ok _ _ _ _ _ E). unfold ret. cbn [fst snd].
    split; [reflexivity |]. split; [now rewrite Hacc |].
    split; [congruence |]. split.
    + intros _. exact Hnamed.
    + intros id Hid. now rewrite Hother.
Qed.

Lemma updateAccount_effects_witness :
  namedAt (snd (updateAccount Sample.env Sample.asAlice Sample.renamedAlice Sample.world))
          "acc-alice" "Alicia" "org-1".
Proof.
  destruct (updateAccount_effects Sample.env Sample.asAlice Sample.aliceSession Sample.alice
              Sample.world Sample.renamedAlice eq_refl eq_refl eq_refl)
    as (_ & _ & _ & Hnamed & _).
  - intros id o H. cbn in H.
    apply lookup_singleton_Some in H as [<- <-]. reflexivity.
  - intros id [<- | []]. exists Sample.org1. split; reflexivity.
  - apply Hnamed; [discriminate | now left].
Defined.

(** X26.  [updateAccount] saves the account before it renames the member
    entries.  When the name changed and the first organisation the account
    lists is not stored, the call fails NOT_FOUND; when that organisation
    has no member entry for the account, it throws an error that is not an
    [Err].  In both cases the account is already stored under its new name
    and revision, and no organisation has been changed. *)
Theorem updateAccount_rename_failure
    (env : Env) (ctx : Context) (session : Session) (account : Account)
    (w : World) (upd : Account) (id : string) (rest : list string) :
  ctx_session ctx = Some session ->
  ctx_account ctx = Some account ->
  acc_revision upd = acc_revision account ->
  acc_name upd <> acc_name account ->
  acc_orgs account = id :: rest ->
  let w' := snd (updateAccount env ctx upd w) in
  ((st_org (storage w) !! id = None ->
    fst (updateAccount env ctx upd w) = Throw (Err NOT_FOUND))
   /\ (forall o, st_org (storage w) !! id = Some o ->
         isMember o (acc_id account) = false ->
         fst (updateAccount env ctx upd w) = Throw TypeError))
  /\ ((st_org (storage w) !! id = None
       \/ exists o, st_org (storage w) !! id = Some o
                    /\ isMember o (acc_id account) = false) ->
      st_org (storage w') = st_org (storage w)
      /\ exists account',
           st_account (storage w') !! acc_id account = Some account'
           /\ acc_name account' = acc_name upd
           /\ acc_revision account' = uuid_gen env (entropy w)).
Proof.
  intros Hs Ha Hr Hn Horgs w'. subst w'. unfold updateAccount.
  rewrite (bind_ok _ _ _ _ _ (requireAuth_ok ctx session account Hs Ha w)).
  cbn [fst]. rewrite (eqb_true_of_eq _ _ Hr). cbn [negb].
  assert (En : String.eqb (acc_name account) (acc_name upd) = false)
    by (apply String.eqb_neq; congruence).
  rewrite En. cbn [negb].
  unfold uuid, draw, now, save_account, modify_storage.
  unfold bind at 1 2 3 4. cbn -[for_each]. rewrite Horgs. cbn [for_each].
  unfold get_org, storage_get, bind, throw. cbn.
  split; [split |].
  - intros ->. reflexivity.
  - intros o Ho Hm. rewrite Ho. cbn. unfold isMember in Hm.
    now destruct (getMember o (acc_id account)).
  - intros [Hnone | (o & Ho & Hm)].
    + rewrite Hnone. cbn. split; [reflexivity |].
      eexists. rewrite lookup_insert_eq. split; [reflexivity |]. now split.
    + rewrite Ho. cbn. unfold isMember in Hm.
      destruct (getMember o (acc_id account)); [discriminate |]. cbn.
      split; [reflexivity |].
      eexists. rewrite lookup_insert_eq. split; [reflexivity |]. now split.
Qed.

Lemma updateAccount_rename_failure_witness :
  fst (updateAccount Sample.env Scenario.asDave Scenario.renamedDave Sample.world)
  = Throw TypeError.
Proof.
  destruct (updateAccount_rename_failure Sample.env Scenario.asDave Scenario.daveSession
              Scenario.dave Sample.world Scenario.renamedDave "org-1" []
              eq_refl eq_refl eq_refl) as [[_ Hmissing] _].
  - discriminate.
  - reflexivity.
  - apply (Hmissing Sample.org1); reflexivity.
Defined.

(** ** Updating a vault *)

Lemma readDenied_same_identity (env : Env) (org : option Org) (v v' : Vault)
    (account : Account) :
  vault_id v' = vault_id v -> vault_owner v' = vault_owner v ->
  readDenied env org v' account = readDenied env org v account.
Proof. unfold readDenied. now intros -> ->. Qed.

(** X27.  For an authenticated account [updateVault] checks, in this
    order: that the vault is stored (NOT_FOUND), that the account may read
    it (NOT_FOUND again), that it may write to it
    (INSUFFICIENT_PERMISSIONS), and that the update carries the stored
    revision (OUTDATED_REVISION); a failed check changes nothing.  When all pass, the vault is
    stored and returned with key and encryption parameters, accessors and
    encrypted data from the update, a fresh revision and the current time,
    and with the id, name, owner, organisation and creation time it had,
    whatever the update says about those; [getVault] then returns exactly
    this vault. *)
Theorem updateVault_checks_and_frame
    (env : Env) (ctx : Context) (session : Session) (account : Account)
    (w : World) (upd : Vault) :
  ctx_session ctx = Some session ->
  ctx_account ctx = Some account ->
  (st_vault (storage w) !! vault_id upd = None ->
   updateVault env ctx upd w = (Throw (Err NOT_FOUND), w))
  /\ forall vault org,
       st_vault (storage w) !! vault_id upd = Some vault ->
       vault_id vault = vault_id upd ->
       orgOf vault w = (Ok org, w) ->
       (readDenied env org vault account = true ->
        updateVault env ctx upd w = (Throw (Err NOT_FOUND), w))
       /\ (readDenied env org vault account = false ->
           writeDenied env org vault account = true ->
           updateVault env ctx upd w = (Throw (Err INSUFFICIENT_PERMISSIONS), w))
       /\ (readDenied env org vault account = false ->
           writeDenied env org vault account = false ->
           vault_revision upd <> vault_revision vault ->
           updateVault env ctx upd w = (Throw (Err OUTDATED_REVISION), w))
       /\ (readDenied env org vault account = false ->
           writeDenied env org vault account = false ->
           vault_revision upd = vault_revision vault ->
           let vault' :=
             mkVault (vault_id vault) (vault_name vault) (vault_owner vault) (vault_org vault)
                     (uuid_gen env (entropy w)) (vault_keyParams upd)
                     (vault_encryptionParams upd) (vault_accessors upd)
                     (vault_encryptedData upd) (vault_created vault) (clock w) in
           let w' := snd (updateVault env ctx upd w) in
           fst (updateVault env ctx upd w) = Ok vault'
           /\ st_vault (storage w') = <[vault_id vault := vault']> (st_vault (storage w))
           /\ st_org (storage w') = st_org (storage w)
           /\ getVault env ctx (vault_id upd) w' = (Ok vault', w')).
Proof.
  intros Hs Ha. split.
  - intros Hn. unfold updateVault.
    rewrite (bind_ok _ _ _ _ _ (requireAuth_ok ctx session account Hs Ha w)). cbn [fst].
    unfold get_vault. now rewrite (bind_throw _ _ _ _ _ (storage_get_none st_vault _ _ Hn)).
  - intros vault org Hv Hid Ho.
    assert (Hrun : updateVault env ctx upd w
                   = (if readDenied env org vault account then throw (Err NOT_FOUND)
                      else if writeDenied env org vault account
                           then throw (Err INSUFFICIENT_PERMISSIONS)
                      else if negb (String.eqb (vault_revision upd) (vault_revision vault))
                           then throw (Err OUTDATED_REVISION)
                      else
                        revision <~ uuid env ;;
                        updated <~ now ;;
                        let vault :=
                          mkVault (vault_id vault) (vault_name vault) (vault_owner vault)
                                  (vault_org vault) revision (vault_keyParams upd)
                                  (vault_encryptionParams upd) (vault_accessors upd)
                                  (vault_encryptedData upd) (vault_created vault) updated in
                        save_vault vault ;;;
                        ret vault) w).
    { unfold updateVault.
      rewrite (bind_ok _ _ _ _ _ (requireAuth_ok ctx session account Hs Ha w)). cbn [fst].
      unfold get_vault. rewrite (bind_ok _ _ _ _ _ (storage_get_some st_vault _ _ _ Hv)).
      now rewrite (bind_ok _ _ _ _ _ Ho). }
    rewrite Hrun. split; [| split; [| split]].
    + intros ->. reflexivity.
    + intros -> ->. reflexivity.
    + intros -> -> Hne. now rewrite (eqb_false_of_neq _ _ Hne).
    + intros Hrd Hwd Hrev vault' w'. subst w'. rewrite Hrd, Hwd.
      rewrite (eqb_true_of_eq _ _ Hrev). cbn [negb].
      unfold uuid, draw, now, save_vault, modify_storage, bind, ret. cbn [fst snd].
      fold vault'. split; [reflexivity |]. split; [reflexivity |]. split; [reflexivity |].
      match goal with |- getVault _ _ _ ?x = _ => set (w' := x) end.
      assert (Hv' : st_vault (storage w') !! vault_id upd = Some vault').
      { subst w'. cbn. rewrite <- Hid. apply lookup_insert_eq. }
      assert (Ho' : orgOf vault' w' = (Ok org, w')).
      { revert Ho. unfold orgOf. cbn [vault_org vault'].
        destruct (vault_org vault) as [ref |]; [| unfold ret; congruence].
        unfold bind, get_org, storage_get, ret, throw.
        change (st_org (storage w')) with (st_org (storage w)).
        destruct (st_org (storage w) !! vr_id ref); [| discriminate]. congruence. }
      unfold getVault.
      rewrite (bind_ok _ _ _ _ _ (requireAuth_ok ctx session account Hs Ha w')). cbn [fst].
      unfold get_vault. rewrite (bind_ok _ _ _ _ _ (storage_get_some st_vault _ _ _ Hv')).
      rewrite (bind_ok _ _ _ _ _ Ho').
      rewrite (readDenied_same_identity env org vault vault' account eq_refl eq_refl).
      now rewrite Hrd.
Qed.

Lemma updateVault_checks_and_frame_witness :
  fst (updateVault Sample.env Sample.asAlice Sample.refilledVault Sample.world)
  = Ok (mkVault (vault_id Sample.aliceVault) (vault_name Sample.aliceVault)
                (vault_owner Sample.aliceVault) (vault_org Sample.aliceVault)
                "id-0" (vault_keyParams Sample.refilledVault)
                (vault_encryptionParams Sample.refilledVault)
                (vault_accessors Sample.refilledVault)
                (vault_encryptedData Sample.refilledVault)
                (vault_created Sample.aliceVault) 100%nat).
Proof.
  destruct (updateVault_checks_and_frame Sample.env Sample.asAlice Sample.aliceSession
              Sample.alice Sample.world Sample.refilledVault eq_refl eq_refl) as [_ H].
  destruct (H Sample.aliceVault None eq_refl eq_refl eq_refl) as (_ & _ & _ & Hok).
  destruct (Hok eq_refl eq_refl eq_refl) as [Hres _]. exact Hres.
Defined.

(** ** Updating an organisation *)

Lemma updateOrg_inv (env : Env) (ctx : Context) (session : Session) (account : Account)
    (w w' : World) (upd org org' : Org) :
  ctx_session ctx = Some session ->
  ctx_account ctx = Some account ->
  st_org (storage w) !! org_id upd = Some org ->
  updateOrg env ctx upd w = (Ok org', w') ->
  let owner := String.eqb (org_owner org) (acc_id account)
               || isOwner env org (acc_id account) in
  org_revision upd = org_revision org
  /\ owner || isAdmin env org (acc_id account) = true
  /\ (owner = false -> membershipChanged org upd = false)
  /\ exceeds (length (org_members upd)) (oq_members (org_quota org)) = false
  /\ exceeds (length (org_groups upd)) (oq_groups (org_quota org)) = false
  /\ (exists n,
        org' = set_org_revision (uuid_gen env n)
                 (if owner then assign_owner_fields upd (assign_membership upd org)
                  else assign_membership upd org))
  /\ st_org (storage w') !! org_id org = Some org'.
Proof.
  intros Hs Ha Ho H owner. unfold updateOrg in H.
  rewrite (bind_ok _ _ _ _ _ (requireAuth_ok ctx session account Hs Ha w)) in H.
  cbn [fst] in H. unfold get_org in H.
  rewrite (bind_ok _ _ _ _ _ (storage_get_some st_org _ _ _ Ho)) in H.
  destruct (String.eqb (org_revision upd) (org_revision org)) eqn:Hrev;
    [| discriminate]. cbn [negb] in H. apply String.eqb_eq in Hrev.
  cbv zeta in H. fold owner in H.
  destruct (owner || isAdmin env org (acc_id account)) eqn:Hadmin; [| discriminate].
  cbn [negb] in H.
  destruct (negb owner && membershipChanged org upd) eqn:Hdiff; [discriminate |].
  apply bind_inv in H as (? & w1 & _ & H).
  apply bind_inv in H as (? & w2 & _ & H).
  apply bind_inv in H as (? & w3 & _ & H).
  assert (Hq : org_quota (if owner then assign_owner_fields upd (assign_membership upd org)
                          else assign_membership upd org) = org_quota org)
    by now destruct owner.
  rewrite Hq in H.
  destruct (exceeds (length (org_members upd)) (oq_members (org_quota org))) eqn:Hm;
    [discriminate |].
  destruct (exceeds (length (org_groups upd)) (oq_groups (org_quota org))) eqn:Hg;
    [discriminate |].
  cbn [orb] in H.
  apply bind_inv in H as (? & w4 & _ & H).
  unfold uuid, draw, save_org, modify_storage, bind, ret in H. cbn in H.
  injection H as <- <-.
  split; [exact Hrev |]. split; [reflexivity |]. split.
  { intros E. rewrite E in Hdiff. exact Hdiff. }
  split; [reflexivity |]. split; [reflexivity |]. split.
  - exists (entropy w4). reflexivity.
  - cbn. replace (org_id org) with
      (org_id (if owner then assign_owner_fields upd (assign_membership upd org)
               else assign_membership upd org)) at 1 by now destruct owner.
    apply lookup_insert_eq.
Qed.

(** X28.  Whenever [updateOrg] returns an organisation, the update carried
    the stored revision, the caller owns or administers the stored
    organisation, and the update does not exceed its member and group
    quota.  The organisation returned is the one stored under the id; it
    has the id, the owner and the quota that were stored, whatever the
    update says about those, and the members, groups and vaults of the
    update.  Its name, keys, accessors and invites are those of the update
    when the caller is an owner, and the stored ones, untouched, when the
    caller is an administrator only. *)
Theorem updateOrg_frame
    (env : Env) (ctx : Context) (session : Session) (account : Account)
    (w : World) (upd org org' : Org) :
  ctx_session ctx = Some session ->
  ctx_account ctx = Some account ->
  st_org (storage w) !! org_id upd = Some org ->
  fst (updateOrg env ctx upd w) = Ok org' ->
  let owner := String.eqb (org_owner org) (acc_id account)
               || isOwner env org (acc_id account) in
  let source := if owner then upd else org in
  org_revision upd = org_revision org
  /\ owner || isAdmin env org (acc_id account) = true
  /\ exceeds (length (org_members upd)) (oq_members (org_quota org)) = false
  /\ exceeds (length (org_groups upd)) (oq_groups (org_quota org)) = false
  /\ st_org (storage (snd (updateOrg env ctx upd w))) !! org_id org = Some org'
  /\ org_id org' = org_id org
  /\ org_owner org' = org_owner org
  /\ org_quota org' = org_quota org
  /\ org_members org' = org_members upd
  /\ org_groups org' = org_groups upd
  /\ org_vaults org' = org_vaults upd
  /\ org_name org' = org_name source
  /\ org_publicKey org' = org_publicKey source
  /\ org_keyParams org' = org_keyParams source
  /\ org_encryptionParams org' = org_encryptionParams source
  /\ org_encryptedData org' = org_encryptedData source
  /\ org_signingParams org' = org_signingParams source
  /\ org_accessors org' = org_accessors source
  /\ org_invites org' = org_invites source.
Proof.
  intros Hs Ha Ho Hok owner source.
  destruct (updateOrg env ctx upd w) as [r w'] eqn:E. cbn [fst snd] in *. subst r.
  destruct (updateOrg_inv env ctx session account w w' upd org org' Hs Ha Ho E)
    as (Hrev & Hadmin & _ & Hm & Hg & [n ->] & Hst).
  fold owner in Hadmin |- *. subst source.
  split; [exact Hrev |]. split; [exact Hadmin |]. split; [exact Hm |]. split; [exact Hg |].
  split; [exact Hst |].
  destruct owner; cbn; repeat split.
Qed.

Lemma updateOrg_frame_witness :
  exists org',
    fst (updateOrg Sample.env Sample.asAlice Sample.renamedOrg Sample.world) = Ok org'
    /\ org_owner org' = "acc-alice" /\ org_quota org' = mkOrgQuota 2 1 2 1
    /\ org_name org' = "Org Uno".
Proof.
  assert (Hok : exists org',
             fst (updateOrg Sample.env Sample.asAlice Sample.renamedOrg Sample.world) = Ok org')
    by (eexists; vm_compute; reflexivity).
  destruct Hok as [org' Hok]. exists org'. split; [exact Hok |].
  destruct (updateOrg_frame Sample.env Sample.asAlice Sample.aliceSession Sample.alice
              Sample.world Sample.renamedOrg Sample.org1 org' eq_refl eq_refl eq_refl Hok)
    as (_ & _ & _ & _ & _ & _ & Howner & Hquota & _ & _ & _ & Hname & _).
  repeat split; assumption.
Defined.

Lemma removed_loop_inv (oid : string) (l : list OrgMember) :
  forall w1 w2,
    accountsKeyed w1 ->
    for_each l (fun m =>
      acc <~ get_account (mem_id m) ;;
      save_account
        (set_acc_orgs (List.filter (fun id => negb (String.eqb id oid)) (acc_orgs acc)) acc))
      w1 = (Ok tt, w2) ->
    accountsKeyed w2
    /\ (forall m, In m l -> omitsOrg w2 (mem_id m) oid)
    /\ (forall id, ~ In id (map mem_id l) ->
          st_account (storage w2) !! id = st_account (storage w1) !! id)
    /\ (forall id, omitsOrg w1 id oid -> omitsOrg w2 id oid).
Proof.
  induction l as [| m r IH]; intros w1 w2 Hkey H.
  - cbn in H. injection H as <-. repeat split; try tauto. intros m [].
  - cbn [for_each] in H. apply bind_inv in H as ([] & w1' & Hbody & H).
    unfold bind, get_account, storage_get in Hbody.
    destruct (st_account (storage w1) !! mem_id m) as [acc |] eqn:Hacc; [| discriminate].
    cbn in Hbody. injection Hbody as <-.
    pose proof (Hkey _ _ Hacc) as Hid.
    set (acc' := set_acc_orgs (List.filter (fun id => negb (String.eqb id oid)) (acc_orgs acc))
                              acc) in *.
    match type of H with for_each _ _ ?x = _ => set (w1' := x) in * end.
    assert (Hst : st_account (storage w1') = <[mem_id m := acc']> (st_account (storage w1)))
      by (subst w1'; cbn; now rewrite Hid).
    assert (Homit : omitsOrg w1' (mem_id m) oid).
    { exists acc'. rewrite Hst, lookup_insert_eq. split; [reflexivity |].
      subst acc'. cbn. intros Hin. apply filter_In in Hin as [_ Hin].
      now rewrite String.eqb_refl in Hin. }
    assert (Hkeep : forall id, omitsOrg w1 id oid -> omitsOrg w1' id oid).
    { intros id (a & Ha & Hn). destruct (decide (mem_id m = id)) as [<- | Hne];
        [exact Homit |].
      exists a. rewrite Hst, lookup_insert_ne by exact Hne. now split. }
    assert (Hkey' : accountsKeyed w1').
    { intros id a. rewrite Hst. intros Ha.
      apply lookup_insert_Some in Ha as [[<- <-] | [_ Ha]]; [exact Hid | now apply Hkey]. }
    destruct (IH w1' w2 Hkey' H) as (Hkey2 & Hrem & Hother & Hmono).
    split; [exact Hkey2 |]. split; [| split].
    + intros m' [<- | Hin]; [now apply Hmono | now apply Hrem].
    + intros id Hn. rewrite Hother by (intros Hin; apply Hn; now right).
      rewrite Hst. apply lookup_insert_ne. intros E. apply Hn. now left.
    + intros id Ho. now apply Hmono, Hkeep.
Qed.

Lemma added_loop_inv (env : Env) (self : string) (org : Org) (l : list OrgMember) :
  forall w1 w2,
    accountsKeyed w1 ->
    for_each l (fun member =>
      acc <~ get_account (mem_id member) ;;
      save_account (set_acc_orgs (acc_orgs acc ++ [org_id org]) acc) ;;;
      if negb (String.eqb (mem_id member) self) then
        send (mem_email member)
             (MemberAddedMessage org (clientUrl env +:+ "/org/" +:+ org_id org))
      else ret tt) w1 = (Ok tt, w2) ->
    accountsKeyed w2
    /\ (forall m, In m l -> listsOrg w2 (mem_id m) (org_id org))
    /\ (forall id, ~ In id (map mem_id l) ->
          st_account (storage w2) !! id = st_account (storage w1) !! id)
    /\ (forall id, listsOrg w1 id (org_id org) -> listsOrg w2 id (org_id org)).
Proof.
  induction l as [| m r IH]; intros w1 w2 Hkey H.
  - cbn in H. injection H as <-. repeat split; try tauto. intros m [].
  - cbn [for_each] in H. apply bind_inv in H as ([] & w1' & Hbody & H).
    unfold get_account in Hbody. apply bind_inv in Hbody as (acc & w0 & Hget & Hbody).
    unfold storage_get in Hget.
    destruct (st_account (storage w1) !! mem_id m) as [acc0 |] eqn:Hacc; [| discriminate].
    injection Hget as <- <-.
    pose proof (Hkey _ _ Hacc) as Hid.
    set (acc' := set_acc_orgs (acc_orgs acc0 ++ [org_id org]) acc0) in *.
    assert (Hst : st_account (storage w1') = <[mem_id m := acc']> (st_account (storage w1))).
    { unfold bind, save_account, modify_storage, send, ret in Hbody. cbn in Hbody.
      destruct (negb (String.eqb (mem_id m) self)); injection Hbody as <-; cbn;
        now rewrite Hid. }
    clear Hbody.
    assert (Hlists : listsOrg w1' (mem_id m) (org_id org)).
    { exists acc'. rewrite Hst, lookup_insert_eq. split; [reflexivity |].
      subst acc'. cbn. apply in_or_app. right. now left. }
    assert (Hkeep : forall id, listsOrg w1 id (org_id org) -> listsOrg w1' id (org_id org)).
    { intros id (a & Ha & Hin). destruct (decide (mem_id m = id)) as [<- | Hne];
        [exact Hlists |].
      exists a. rewrite Hst, lookup_insert_ne by exact Hne. now split. }
    assert (Hkey' : accountsKeyed w1').
    { intros id a. rewrite Hst. intros Ha.
      apply lookup_insert_Some in Ha as [[<- <-] | [_ Ha]]; [exact Hid | now apply Hkey]. }
    destruct (IH w1' w2 Hkey' H) as (Hkey2 & Hadd & Hother & Hmono).
    split; [exact Hkey2 |]. split; [| split].
    + intros m' [<- | Hin]; [now apply Hmono | now apply Hadd].
    + intros id Hn. rewrite Hother by (intros Hin; apply Hn; now right).
      rewrite Hst. apply lookup_insert_ne. intros E. apply Hn. now left.
    + intros id Ho. now apply Hmono, Hkeep.
Qed.

Lemma removed_not_added (org upd : Org) (m : OrgMember) :
  In m (removedMembers org upd) ->
  ~ In (mem_id m) (map mem_id (addedMembers org upd)).
Proof.
  unfold removedMembers, addedMembers. intros Hm Hin.
  apply filter_In in Hm as [_ Hm]. apply negb_true_iff in Hm.
  apply in_map_iff in Hin as (m' & Hid & Hin). apply filter_In in Hin as [Hin _].
  assert (E : existsb (fun m' => String.eqb (mem_id m) (mem_id m')) (org_members upd) = true).
  { apply existsb_exists. exists m'. split; [exact Hin |]. rewrite Hid. apply String.eqb_refl. }
  congruence.
Qed.

(** X29.  Whenever [updateOrg] returns, with every account stored under its
    own id beforehand, the accounts follow the member list: the account of
    each member that the update removed no longer lists the organisation,
    the account of each member that it added lists it, and every other
    account is stored as it was. *)
Theorem updateOrg_syncs_accounts
    (env : Env) (ctx : Context) (session : Session) (account : Account)
    (w : World) (upd org org' : Org) :
  ctx_session ctx = Some session ->
  ctx_account ctx = Some account ->
  st_org (storage w) !! org_id upd = Some org ->
  accountsKeyed w ->
  fst (updateOrg env ctx upd w) = Ok org' ->
  let w' := snd (updateOrg env ctx upd w) in
  (forall m, In m (removedMembers org upd) -> omitsOrg w' (mem_id m) (org_id org))
  /\ (forall m, In m (addedMembers org upd) -> listsOrg w' (mem_id m) (org_id org))
  /\ (forall id,
        ~ In id (map mem_id (removedMembers org upd)) ->
        ~ In id (map mem_id (addedMembers org upd)) ->
        st_account (storage w') !! id = st_account (storage w) !! id).
Proof.
  intros Hs Ha Ho Hkey Hok w'. subst w'.
  destruct (updateOrg env ctx upd w) as [r w'] eqn:H. cbn [fst snd] in *. subst r.
  unfold updateOrg in H.
  rewrite (bind_ok _ _ _ _ _ (requireAuth_ok ctx session account Hs Ha w)) in H.
  cbn [fst] in H. unfold get_org in H.
  rewrite (bind_ok _ _ _ _ _ (storage_get_some st_org _ _ _ Ho)) in H.
  destruct (negb (String.eqb (org_revision upd) (org_revision org))); [discriminate |].
  cbv zeta in H.
  set (owner := String.eqb (org_owner org) (acc_id account)
                || isOwner env org (acc_id account)) in *.
  destruct (negb (owner || isAdmin env org (acc_id account))); [discriminate |].
  destruct (negb owner && membershipChanged org upd); [discriminate |].
  set (neworg := if owner then assign_owner_fields upd (assign_membership upd org)
                 else assign_membership upd org) in *.
  assert (Hnid : org_id neworg = org_id org) by (subst neworg; now destruct owner).
  match type of H with
  | bind (for_each ?l ?body) _ _ = _ =>
      assert (P1 : preserves (fun x => st_account (storage x) = st_account (storage w))
                             (for_each l body))
        by (unfold get_auth, newEmailVerification; keeps_frame)
  end.
  apply bind_inv in H as ([] & w1 & E1 & H).
  specialize (P1 w eq_refl). rewrite E1 in P1. cbn [snd] in P1.
  apply bind_inv in H as ([] & w2 & E2 & H).
  match type of H with
  | bind (for_each ?l ?body) _ _ = _ =>
      assert (P3 : preserves (fun x => st_account (storage x) = st_account (storage w2))
                             (for_each l body))
        by (unfold get_vault; keeps_frame)
  end.
  apply bind_inv in H as ([] & w3 & E3 & H).
  specialize (P3 w2 eq_refl). rewrite E3 in P3. cbn [snd] in P3.
  destruct (exceeds _ _ || exceeds _ _); [discriminate |].
  apply bind_inv in H as ([] & w4 & E4 & H).
  assert (P5 : st_account (storage w') = st_account (storage w4)).
  { unfold uuid, draw, save_org, modify_storage, bind, ret in H. cbn in H.
    injection H as _ <-. reflexivity. }
  clear H.
  assert (Hkey1 : accountsKeyed w1) by (unfold accountsKeyed; now rewrite P1).
  destruct (removed_loop_inv (org_id org) _ w1 w2 Hkey1 E2) as (Hkey2 & Hrem & Hoth2 & _).
  assert (Hkey3 : accountsKeyed w3) by (unfold accountsKeyed; now rewrite P3).
  destruct (added_loop_inv env (acc_id account) neworg _ w3 w4 Hkey3 E4)
    as (_ & Hadd & Hoth4 & _).
  rewrite Hnid in Hadd.
  split; [| split].
  - intros m Hm. destruct (Hrem m Hm) as (a & Hlook & Hn).
    exists a. split; [| exact Hn].
    rewrite P5, Hoth4 by now apply removed_not_added. now rewrite P3.
  - intros m Hm. destruct (Hadd m Hm) as (a & Hlook & Hin).
    exists a. split; [| exact Hin]. now rewrite P5.
  - intros id Hr Hadded. now rewrite P5, Hoth4, P3, Hoth2, P1.
Qed.

Lemma updateOrg_syncs_accounts_witness :
  omitsOrg (snd (updateOrg Sample.env Sample.asAlice Scenario.withoutBob Sample.world))
           "acc-bob" "org-1".
Proof.
  assert (Hkey : accountsKeyed Sample.world).
  { intros id a H. cbn in H.
    apply lookup_insert_Some in H as [[<- <-] | [_ H]]; [reflexivity |].
    apply lookup_insert_Some in H as [[<- <-] | [_ H]]; [reflexivity |].
    apply lookup_singleton_Some in H as [<- <-]. reflexivity. }
  assert (Hok : exists org',
             fst (updateOrg Sample.env Sample.asAlice Scenario.withoutBob Sample.world)
             = Ok org')
    by (eexists; vm_compute; reflexivity).
  destruct Hok as [org' Hok].
  destruct (updateOrg_syncs_accounts Sample.env Sample.asAlice Sample.aliceSession
              Sample.alice Sample.world Scenario.withoutBob Sample.org1 org'
              eq_refl eq_refl eq_refl Hkey Hok) as [Hremoved _].
  apply (Hremoved (mkOrgMember "acc-bob" "Bob" "bob@example.com" Member
                               [mkAssignment "vault-shared" true])).
  vm_compute. now left.
Defined.

(** ** The revision guard *)

(** The walk through a method for a bound on the draws made so far. *)
Ltac keeps_entropy :=
  repeat
    match goal with
    | |- preserves _ (ret _) => apply preserves_ret
    | |- preserves _ (throw _) => apply preserves_throw
    | |- preserves _ (bind _ _) => apply preserves_bind; [| intros ?]
    | |- preserves _ (try_catch _ _) => apply preserves_try_catch; [| intros ?]
    | |- preserves _ (for_each _ _) => apply preserves_for_each; intros ?
    | |- preserves _ (storage_get _ _) => apply preserves_storage_get
    | |- preserves _ (if ?c then _ else _) => destruct c
    | |- preserves _ (match ?x with _ => _ end) => destruct x
    | |- preserves _ _ => solve [let H := fresh in intros ? H; cbn in *; lia]
    end.

(** The revision of an organisation that [updateOrg] returns is an
    identifier drawn during the call. *)
Lemma updateOrg_revision_drawn (env : Env) (ctx : Context) (session : Session)
    (account : Account) (w w' : World) (upd org org' : Org) :
  ctx_session ctx = Some session ->
  ctx_account ctx = Some account ->
  st_org (storage w) !! org_id upd = Some org ->
  updateOrg env ctx upd w = (Ok org', w') ->
  exists n, (entropy w <= n)%nat /\ org_revision org' = uuid_gen env n.
Proof.
  intros Hs Ha Ho H. unfold updateOrg in H.
  rewrite (bind_ok _ _ _ _ _ (requireAuth_ok ctx session account Hs Ha w)) in H.
  cbn [fst] in H. unfold get_org in H.
  rewrite (bind_ok _ _ _ _ _ (storage_get_some st_org _ _ _ Ho)) in H.
  destruct (negb (String.eqb (org_revision upd) (org_revision org))); [discriminate |].
  cbv zeta in H.
  destruct (negb _); [discriminate |].
  destruct (negb _ && membershipChanged org upd); [discriminate |].
  match type of H with
  | bind (for_each ?l ?body) _ _ = _ =>
      assert (P1 : preserves (fun x => (entropy w <= entropy x)%nat) (for_each l body))
        by (unfold get_auth, newEmailVerification, draw; keeps_entropy)
  end.
  apply bind_inv in H as ([] & w1 & E1 & H).
  specialize (P1 w (Nat.le_refl _)). rewrite E1 in P1. cbn [snd] in P1.
  match type of H with
  | bind (for_each ?l ?body) _ _ = _ =>
      assert (P2 : preserves (fun x => (entropy w <= entropy x)%nat) (for_each l body))
        by (unfold get_account; keeps_entropy)
  end.
  apply bind_inv in H as ([] & w2 & E2 & H).
  specialize (P2 w1 P1). rewrite E2 in P2. cbn [snd] in P2.
  match type of H with
  | bind (for_each ?l ?body) _ _ = _ =>
      assert (P3 : preserves (fun x => (entropy w <= entropy x)%nat) (for_each l body))
        by (unfold get_vault; keeps_entropy)
  end.
  apply bind_inv in H as ([] & w3 & E3 & H).
  specialize (P3 w2 P2). rewrite E3 in P3. cbn [snd] in P3.
  destruct (exceeds _ _ || exceeds _ _); [discriminate |].
  match type of H with
  | bind (for_each ?l ?body) _ _ = _ =>
      assert (P4 : preserves (fun x => (entropy w <= entropy x)%nat) (for_each l body))
        by (unfold get_account; keeps_entropy)
  end.
  apply bind_inv in H as ([] & w4 & E4 & H).
  specialize (P4 w3 P3). rewrite E4 in P4. cbn [snd] in P4.
  unfold uuid, draw, save_org, modify_storage, bind, ret in H. cbn in H.
  injection H as <- _. exists (entropy w4). split; [exact P4 | reflexivity].
Qed.

(** C5 (amended).  The caller is authenticated.
    - [updateAccount]: a revision other than the one of the caller's account
      fails OUTDATED_REVISION and changes nothing; the current revision
      succeeds (when the name changes, provided the organisations listed on
      the account are stored with the account as a member) and the stored
      account carries the identifier drawn by the call as its revision.
    - [updateOrg] of a stored organisation: a revision other than the stored
      one fails OUTDATED_REVISION and changes nothing; the current revision
      succeeds for a caller who may apply the update (the owner, or an admin
      leaving the membership alone), provided the member and group counts
      are within the quota and the accounts of the members and the vaults of
      the organisation are stored, and the stored organisation carries an
      identifier drawn during the call as its revision.
    - [updateVault] of a stored vault by a caller with read and write
      access: a revision other than the stored one fails OUTDATED_REVISION
      and changes nothing; the current revision succeeds and the stored
      vault carries the identifier drawn by the call as its revision.
    In each case the new revision differs from the supplied one when the
    generator does not return an identifier that is in use again. *)
Theorem revision_guard
    (env : Env) (ctx : Context) (session : Session) (account : Account) (w : World) :
  ctx_session ctx = Some session ->
  ctx_account ctx = Some account ->
  (forall upd,
     (acc_revision upd <> acc_revision account ->
      updateAccount env ctx upd w = (Throw (Err OUTDATED_REVISION), w))
     /\ (acc_revision upd = acc_revision account ->
         (acc_name upd <> acc_name account ->
          forall id, In id (acc_orgs account) ->
            exists o, st_org (storage w) !! id = Some o
                      /\ isMember o (acc_id account) = true) ->
         exists account' w',
           updateAccount env ctx upd w = (Ok account', w')
           /\ st_account (storage w') !! acc_id account = Some account'
           /\ acc_revision account' = uuid_gen env (entropy w)
           /\ (notDrawnAgain env w (acc_revision upd) ->
               acc_revision account' <> acc_revision upd)))
  /\ (forall upd org,
        st_org (storage w) !! org_id upd = Some org ->
        (org_revision upd <> org_revision org ->
         updateOrg env ctx upd w = (Throw (Err OUTDATED_REVISION), w))
        /\ (org_revision upd = org_revision org ->
            mayUpdate env account org upd ->
            within (length (org_members upd)) (oq_members (org_quota org)) ->
            within (length (org_groups upd)) (oq_groups (org_quota org)) ->
            (forall m, In m (org_members org) \/ In m (org_members upd) ->
                       is_Some (st_account (storage w) !! mem_id m)) ->
            (forall entry, In entry (org_vaults org) ->
                           is_Some (st_vault (storage w) !! vr_id entry)) ->
            exists org' w',
              updateOrg env ctx upd w = (Ok org', w')
              /\ st_org (storage w') !! org_id org = Some org'
              /\ (exists n, (entropy w <= n)%nat /\ org_revision org' = uuid_gen env n)
              /\ (notDrawnAgain env w (org_revision upd) ->
                  org_revision org' <> org_revision upd)))
  /\ (forall upd vault org,
        st_vault (storage w) !! vault_id upd = Some vault ->
        orgOf vault w = (Ok org, w) ->
        readDenied env org vault account = false ->
        writeDenied env org vault account = false ->
        (vault_revision upd <> vault_revision vault ->
         updateVault env ctx upd w = (Throw (Err OUTDATED_REVISION), w))
        /\ (vault_revision upd = vault_revision vault ->
            exists vault' w',
              updateVault env ctx upd w = (Ok vault', w')
              /\ st_vault (storage w') !! vault_id vault = Some vault'
              /\ vault_revision vault' = uuid_gen env (entropy w)
              /\ (notDrawnAgain env w (vault_revision upd) ->
                  vault_revision vault' <> vault_revision upd))).
Proof.
  intros Hs Ha. split; [| split].
  - intros upd. split.
    + now apply (updateAccount_outdated env ctx session account Hs Ha).
    + intros Hr Horgs.
      destruct (updateAccount_current env ctx session account Hs Ha w upd Hr Horgs)
        as (account' & w' & E & Hst & Hrev).
      exists account', w'. repeat split; try assumption.
      intros Hfresh. rewrite Hrev. apply Hfresh. lia.
  - intros upd org Ho. split.
    + now apply (updateOrg_outdated env ctx session account Hs Ha).
    + intros Hr Hmay Hm Hg Haccs Hvs.
      destruct (updateOrg_current env ctx session account Hs Ha w upd org Ho Hr Hmay
                  Haccs Hvs Hm Hg) as (org' & w' & E & Hst & _).
      destruct (updateOrg_revision_drawn env ctx session account w w' upd org org'
                  Hs Ha Ho E) as (n & Hn & Hrev).
      exists org', w'. split; [exact E |]. split; [exact Hst |].
      split; [now exists n |].
      intros Hfresh. rewrite Hrev. now apply Hfresh.
  - intros upd vault org Hv Ho Hread Hwrite. split.
    + now apply (updateVault_outdated env ctx session account Hs Ha w upd vault org).
    + intros Hr.
      destruct (updateVault_current env ctx session account Hs Ha w upd vault org
                  Hv Ho Hread Hwrite Hr) as (vault' & w' & E & Hst & Hrev).
      exists vault', w'. repeat split; try assumption.
      intros Hfresh. rewrite Hrev. apply Hfresh. lia.
Qed.

Lemma revision_guard_witness :
  updateAccount Sample.env Sample.asAlice Sample.carol Sample.world
  = (Throw (Err OUTDATED_REVISION), Sample.world)
  /\ (exists account' w',
        updateAccount Sample.env Sample.asAlice Sample.renamedAlice Sample.world
        = (Ok account', w')
        /\ st_account (storage w') !! "acc-alice" = Some account'
        /\ acc_revision account' = "id-0"
        /\ acc_revision account' <> "rev-a1")
  /\ st_account (storage Scenario.worldRenamed) !! "acc-alice" = Some Scenario.aliceRenamed
  /\ (exists account' w',
        updateAccount Sample.env Scenario.asAliceRenamed Scenario.secondUpdate
                      Scenario.worldRenamed
        = (Ok account', w')
        /\ acc_revision account' = "id-1"
        /\ acc_revision account' <> "id-0")
  /\ updateOrg Sample.env Sample.asAlice (set_org_revision "rev-o0" Sample.renamedOrg)
               Sample.world
     = (Throw (Err OUTDATED_REVISION), Sample.world)
  /\ (exists org' w',
        updateOrg Sample.env Sample.asAlice Sample.renamedOrg Sample.world = (Ok org', w')
        /\ st_org (storage w') !! "org-1" = Some org'
        /\ org_revision org' = "id-0"
        /\ org_revision org' <> "rev-o1")
  /\ updateVault Sample.env Sample.asAlice Sample.staleVault Sample.world
     = (Throw (Err OUTDATED_REVISION), Sample.world)
  /\ (exists vault' w',
        updateVault Sample.env Sample.asAlice Sample.refilledVault Sample.world
        = (Ok vault', w')
        /\ st_vault (storage w') !! "vault-alice" = Some vault'
        /\ vault_revision vault' = "id-0"
        /\ vault_revision vault' <> "rev-v1").
Proof.
  destruct (revision_guard Sample.env Sample.asAlice Sample.aliceSession Sample.alice
              Sample.world eq_refl eq_refl) as (Hacc & Horg & Hvault).
  destruct (revision_guard Sample.env Scenario.asAliceRenamed Sample.aliceSession
              Scenario.aliceRenamed Scenario.worldRenamed eq_refl eq_refl) as (Hagain & _).
  assert (Hfresh : forall w rev, String.get 0%nat rev = Some "r"%char ->
                                 notDrawnAgain Sample.env w rev).
  { intros w rev Hrev n _ E. rewrite <- E in Hrev. discriminate Hrev. }
  assert (Hused : notDrawnAgain Sample.env Scenario.worldRenamed "id-0").
  { intros n Hn E. cbn in E. injection E as E.
    change (pretty n = pretty 0%nat) in E. apply (inj pretty) in E.
    subst n. vm_compute in Hn. lia. }
  destruct (Hacc Sample.carol) as [Hacc1 _].
  destruct (Hacc Sample.renamedAlice) as [_ Hacc2].
  destruct (Hagain Scenario.secondUpdate) as [_ Hacc3].
  destruct (Horg (set_org_revision "rev-o0" Sample.renamedOrg) Sample.org1 eq_refl)
    as [Horg1 _].
  destruct (Horg Sample.renamedOrg Sample.org1 eq_refl) as [_ Horg2].
  destruct (Hvault Sample.staleVault Sample.aliceVault None eq_refl eq_refl eq_refl eq_refl)
    as [Hvault1 _].
  destruct (Hvault Sample.refilledVault Sample.aliceVault None eq_refl eq_refl eq_refl eq_refl)
    as [_ Hvault2].
  split; [| split; [| split; [| split; [| split; [| split; [| split]]]]]].
  - apply Hacc1. discriminate.
  - destruct Hacc2 as (account' & w' & E & Hst & Hrev & Hne).
    + reflexivity.
    + intros _ id [<- | []]. exists Sample.org1. split; reflexivity.
    + exists account', w'. split; [exact E |]. split; [exact Hst |].
      split; [exact Hrev |]. apply Hne, Hfresh. reflexivity.
  - vm_compute. reflexivity.
  - destruct Hacc3 as (account' & w' & E & _ & Hrev & Hne).
    + reflexivity.
    + intros Hname. now destruct Hname.
    + exists account', w'. split; [exact E |]. split; [exact Hrev |]. now apply Hne.
  - apply Horg1. discriminate.
  - destruct Horg2 as (org' & w' & E & Hst & _ & Hne).
    + reflexivity.
    + left. reflexivity.
    + right. cbn. lia.
    + right. cbn. lia.
    + intros m [H | H]; cbn in H; destruct H as [<- | [<- | []]];
        vm_compute; eexists; reflexivity.
    + intros entry H. cbn in H. destruct H as [<- | []]. vm_compute. eexists; reflexivity.
    + exists org', w'. split; [exact E |]. split; [exact Hst |].
      split; [| apply Hne, Hfresh; reflexivity].
      vm_compute in E. injection E as <- _. reflexivity.
  - apply Hvault1. discriminate.
  - destruct Hvault2 as (vault' & w' & E & Hst & Hrev & Hne).
    + reflexivity.
    + exists vault', w'. split; [exact E |]. split; [exact Hst |].
      split; [exact Hrev |]. apply Hne, Hfresh. reflexivity.
Defined.

(** C5 as stated fails: an
    update of the shared vault based on an older revision fails
    INSUFFICIENT_PERMISSIONS for Bob, who may only read it, and NOT_FOUND
    for Carol, who may not read it; and the owner's update of the
    organisation based on the current revision fails QUOTA_EXCEEDED when it
    lists more members than the quota allows. *)
Lemma stale_updateVault_fails_on_access :
  vault_revision Scenario.staleShared <> vault_revision Sample.sharedVault
  /\ updateVault Sample.env Sample.asBob Scenario.staleShared Sample.world
     = (Throw (Err INSUFFICIENT_PERMISSIONS), Sample.world)
  /\ updateVault Sample.env Sample.asCarol Scenario.staleShared Sample.world
     = (Throw (Err NOT_FOUND), Sample.world)
  /\ org_revision Sample.oversizedUpdate = org_revision Sample.org1
  /\ org_owner Sample.org1 = acc_id Sample.alice
  /\ fst (updateOrg Sample.env Sample.asAlice Sample.oversizedUpdate Sample.world)
     = Throw (Err QUOTA_EXCEEDED).
Proof.
  split; [discriminate |]. split; [vm_compute; reflexivity |].
  split; [vm_compute; reflexivity |]. split; [reflexivity |]. split; [reflexivity |].
  vm_compute. reflexivity.
Qed.
